(** * HalluciFix maintenance scripts: usage analysis and rewrite engine

    A shallow embedding of the three Python scripts

      - [clean-unused-vars.py]   (class [UnusedVariableCleaner])
      - [fix-common-unused.py]   ([fix_common_unused_variables], [is_variable_used])
      - [fix-console-logging.py] (class [ConsoleToLoggingMigrator])

    A Python [str] is a list of characters.  Characters are the code
    points 0..255 (Latin-1), which is where TypeScript sources live; [\s],
    [\w] and [str.strip] follow Python's Unicode tables on that range.

    The scripts drive everything through the [re] module, so the file
    starts with a small backtracking matcher for the fragment of regular
    expressions the scripts use: literals, one-character classes, greedy
    [*] and [+] over a class, alternation of literals, capturing groups
    and the word boundary. *)

From Stdlib Require Import Ascii String List ZArith NArith Lia Bool Arith.
From Stdlib Require Import Permutation Sorted.
Import ListNotations.
Open Scope list_scope.

Set Implicit Arguments.

(** ** Text *)

Definition text := list ascii.

Definition t (s : string) : text := list_ascii_of_string s.

Definition dq : ascii := ascii_of_nat 34.   (* the double quote *)
Definition sq : ascii := ascii_of_nat 39.   (* the single quote *)
Definition nl : ascii := ascii_of_nat 10.   (* the line feed *)

Definition code (c : ascii) : N := N_of_ascii c.

Definition between (lo hi : N) (c : ascii) : bool :=
  ((lo <=? code c) && (code c <=? hi))%N.

(** [str.isspace] on one character, which is also the class [\s]. *)
Definition is_space (c : ascii) : bool :=
  between 9 13 c || between 28 32 c || (code c =? 133)%N || (code c =? 160)%N.

(** The class [\w] of a [str] pattern: alphanumeric or underscore. *)
Definition is_word (c : ascii) : bool :=
  between 48 57 c || between 65 90 c || between 97 122 c || (code c =? 95)%N
  || (code c =? 170)%N || between 178 179 c || (code c =? 181)%N
  || between 185 186 c || between 188 190 c
  || between 192 214 c || between 216 246 c || between 248 255 c.

Definition in_text (c : ascii) (cs : text) : bool := existsb (Ascii.eqb c) cs.

(** ** Regular expressions *)

Inductive cls : Type :=
| Space                 (* \s *)
| Word                  (* \w *)
| Dot                   (* .  : anything but a line feed *)
| OneOf (cs : text)     (* [abc] *)
| NoneOf (cs : text).   (* [^abc] *)

Definition cls_mem (p : cls) (c : ascii) : bool :=
  match p with
  | Space => is_space c
  | Word => is_word c
  | Dot => negb (Ascii.eqb c nl)
  | OneOf cs => in_text c cs
  | NoneOf cs => negb (in_text c cs)
  end.

Inductive atom : Type :=
| Str (lit : text)          (* a literal run of characters *)
| Set_ (p : cls)            (* one character of a class *)
| Star (p : cls)            (* greedy p* *)
| Plus (p : cls)            (* greedy p+ *)
| Alt (lits : list text)    (* (?:a|b|c), tried left to right *)
| Open (i : nat)            (* start of capturing group i *)
| Close (i : nat)           (* end of capturing group i *)
| WordB.                    (* \b *)

Definition regex := list atom.

(** The state of one match attempt: where each open group started (as the
    text that was left at that moment) and the text of each closed group. *)
Record caps : Type := mkCaps {
  opened : list (nat * text);
  groups : list (nat * text)
}.

Definition no_caps : caps := mkCaps [] [].

Fixpoint assoc (i : nat) (l : list (nat * text)) : option text :=
  match l with
  | [] => None
  | (j, x) :: l' => if Nat.eqb i j then Some x else assoc i l'
  end.

Definition group (i : nat) (g : caps) : text :=
  match assoc i (groups g) with Some x => x | None => [] end.

Definition open_group (i : nat) (s : text) (g : caps) : caps :=
  mkCaps ((i, s) :: opened g) (groups g).

Definition close_group (i : nat) (s : text) (g : caps) : caps :=
  match assoc i (opened g) with
  | Some s0 => mkCaps (opened g) ((i, firstn (length s0 - length s) s0) :: groups g)
  | None => g
  end.

Fixpoint strip_prefix (lit s : text) : option text :=
  match lit with
  | [] => Some s
  | a :: lit' =>
      match s with
      | [] => None
      | c :: s' => if Ascii.eqb a c then strip_prefix lit' s' else None
      end
  end.

Definition last_char (consumed : text) (prev : option ascii) : option ascii :=
  match rev consumed with
  | [] => prev
  | c :: _ => Some c
  end.

Definition opt_word (c : option ascii) : bool :=
  match c with Some x => is_word x | None => false end.

(** [\b]: exactly one of the two neighbours is a word character. *)
Definition at_boundary (prev : option ascii) (s : text) : bool :=
  xorb (opt_word prev) (opt_word (hd_error s)).

Section Engine.

Variable R : Type.

(** Greedy repetition of a class: take as many characters as possible,
    give them back one at a time while the continuation fails. *)
Fixpoint star_loop (p : cls) (k : option ascii -> text -> option R)
         (prev : option ascii) (s : text) : option R :=
  match s with
  | c :: s' =>
      if cls_mem p c then
        match star_loop p k (Some c) s' with
        | Some r => Some r
        | None => k prev s
        end
      else k prev s
  | [] => k prev s
  end.

Fixpoint alt_loop (lits : list text) (k : option ascii -> text -> option R)
         (prev : option ascii) (s : text) : option R :=
  match lits with
  | [] => None
  | lit :: lits' =>
      match strip_prefix lit s with
      | Some s' =>
          match k (last_char lit prev) s' with
          | Some r => Some r
          | None => alt_loop lits' k prev s
          end
      | None => alt_loop lits' k prev s
      end
  end.

End Engine.

(** One match attempt of [re] at the start of [s]; [prev] is the character
    just before [s] in the subject.  The result is the captures and the text
    left after the match. *)
Fixpoint match_atoms (re : regex) (g : caps) (prev : option ascii) (s : text)
  : option (caps * text) :=
  match re with
  | [] => Some (g, s)
  | Str lit :: re' =>
      match strip_prefix lit s with
      | Some s' => match_atoms re' g (last_char lit prev) s'
      | None => None
      end
  | Set_ p :: re' =>
      match s with
      | c :: s' => if cls_mem p c then match_atoms re' g (Some c) s' else None
      | [] => None
      end
  | Star p :: re' => star_loop p (match_atoms re' g) prev s
  | Plus p :: re' =>
      match s with
      | c :: s' =>
          if cls_mem p c then star_loop p (match_atoms re' g) (Some c) s' else None
      | [] => None
      end
  | Alt lits :: re' => alt_loop lits (match_atoms re' g) prev s
  | Open i :: re' => match_atoms re' (open_group i s g) prev s
  | Close i :: re' => match_atoms re' (close_group i s g) prev s
  | WordB :: re' => if at_boundary prev s then match_atoms re' g prev s else None
  end.

Definition match_here (re : regex) (prev : option ascii) (s : text)
  : option (caps * text) :=
  match_atoms re no_caps prev s.

(** A match object: [m.start()], [m.end()] and the groups. *)
Record rmatch : Type := mkMatch {
  m_start : nat;
  m_end : nat;
  m_caps : caps
}.

(** [re.finditer]: scan left to right; after a match of length [n] the next
    attempt is [n] characters further (one further after an empty match).
    [skip] counts the characters of the current match still to pass. *)
Fixpoint finditer_from (re : regex) (skip pos : nat) (prev : option ascii)
         (s : text) : list rmatch :=
  match s with
  | [] =>
      match skip with
      | 0 =>
          match match_here re prev [] with
          | Some (g, _) => [mkMatch pos pos g]
          | None => []
          end
      | S _ => []
      end
  | c :: s' =>
      match skip with
      | S k => finditer_from re k (S pos) (Some c) s'
      | 0 =>
          match match_here re prev s with
          | Some (g, rest) =>
              let n := length s - length rest in
              mkMatch pos (pos + n) g :: finditer_from re (pred n) (S pos) (Some c) s'
          | None => finditer_from re 0 (S pos) (Some c) s'
          end
      end
  end.

Definition finditer (re : regex) (s : text) : list rmatch :=
  finditer_from re 0 0 None s.

(** Replacement templates: literal text and back-references. *)
Inductive ritem : Type :=
| RLit (x : text)
| RRef (i : nat).

Definition template := list ritem.

Fixpoint expand (tpl : template) (g : caps) : text :=
  match tpl with
  | [] => []
  | RLit x :: tpl' => x ++ expand tpl' g
  | RRef i :: tpl' => group i g ++ expand tpl' g
  end.

(** [re.sub(pattern, repl, s)]. *)
Fixpoint sub_from (re : regex) (tpl : template) (skip : nat) (prev : option ascii)
         (s : text) : text :=
  match s with
  | [] =>
      match skip with
      | 0 =>
          match match_here re prev [] with
          | Some (g, _) => expand tpl g
          | None => []
          end
      | S _ => []
      end
  | c :: s' =>
      match skip with
      | S k => sub_from re tpl k (Some c) s'
      | 0 =>
          match match_here re prev s with
          | Some (g, rest) =>
              match length s - length rest with
              | 0 => expand tpl g ++ c :: sub_from re tpl 0 (Some c) s'
              | S k => expand tpl g ++ sub_from re tpl k (Some c) s'
              end
          | None => c :: sub_from re tpl 0 (Some c) s'
          end
      end
  end.

Definition re_sub (re : regex) (tpl : template) (s : text) : text :=
  sub_from re tpl 0 None s.

(** ** Python string and slice operations *)

(** [s[a:b]] for non-negative bounds. *)
Definition slice (a b : nat) (s : text) : text := firstn (b - a) (skipn a s).

(** [s[:start] + replacement + s[stop:]]. *)
Definition splice (start stop : nat) (replacement s : text) : text :=
  firstn start s ++ replacement ++ skipn stop s.

(** [needle in s]. *)
Fixpoint contains (needle s : text) : bool :=
  match strip_prefix needle s with
  | Some _ => true
  | None =>
      match s with
      | [] => false
      | _ :: s' => contains needle s'
      end
  end.

(** [s.split(sep)] for a one-character separator. *)
Fixpoint split_on (sep : ascii) (s : text) : list text :=
  match s with
  | [] => [[]]
  | c :: s' =>
      if Ascii.eqb c sep then [] :: split_on sep s'
      else match split_on sep s' with
           | [] => [[c]]
           | w :: ws => (c :: w) :: ws
           end
  end.

Fixpoint lstrip (s : text) : text :=
  match s with
  | c :: s' => if is_space c then lstrip s' else s
  | [] => []
  end.

Definition rstrip (s : text) : text := rev (lstrip (rev s)).

(** [s.strip()]. *)
Definition strip (s : text) : text := rstrip (lstrip s).

(** [sep.join(parts)]. *)
Fixpoint join (sep : text) (parts : list text) : text :=
  match parts with
  | [] => []
  | [x] => x
  | x :: rest => x ++ sep ++ join sep rest
  end.

Definition nonempty (s : text) : bool :=
  match s with [] => false | _ => true end.

(** ** The usage resolver

    [is_variable_used] is the same function in [clean-unused-vars.py]
    (a method) and in [fix-common-unused.py] (a module function). *)

Definition usage_pattern (var_name : text) : regex :=
  [WordB; Str var_name; WordB].    (* r'\b' + re.escape(var_name) + r'\b' *)

Definition usage_matches (var_name content : text) : list rmatch :=
  finditer (usage_pattern var_name) content.

Definition usage_count (var_name content : text) : Z :=
  Z.of_nat (length (usage_matches var_name content)) - 1.

Definition is_variable_used (var_name content : text) : bool :=
  (usage_count var_name content >? 0)%Z.

(** ** [str.find] and [str.rfind] for a one-character needle *)

Fixpoint find_char (c : ascii) (s : text) : option nat :=
  match s with
  | [] => None
  | x :: s' =>
      if Ascii.eqb x c then Some 0
      else match find_char c s' with Some i => Some (S i) | None => None end
  end.

(** [s.find(c, start)]; [None] stands for Python's [-1]. *)
Definition find_from (c : ascii) (start : nat) (s : text) : option nat :=
  match find_char c (skipn start s) with
  | Some i => Some (start + i)
  | None => None
  end.

Fixpoint rfind_char (c : ascii) (s : text) : option nat :=
  match s with
  | [] => None
  | x :: s' =>
      match rfind_char c s' with
      | Some i => Some (S i)
      | None => if Ascii.eqb x c then Some 0 else None
      end
  end.

(** [s.rfind(c, 0, stop)]. *)
Definition rfind_before (c : ascii) (stop : nat) (s : text) : option nat :=
  rfind_char c (firstn stop s).

(** ** The unused-variable cleaner ([clean-unused-vars.py]) *)

(** [r'const\s+\{\s*([^}]+)\s*\}\s*='] *)
Definition destructuring_pattern : regex :=
  [Str (t "const"); Plus Space; Str (t "{"); Star Space;
   Open 1; Plus (NoneOf (t "}")); Close 1;
   Star Space; Str (t "}"); Star Space; Str (t "=")].

(** [r'(const|let|var)\s+(\w+)\s*=\s*[^;]+;'] *)
Definition simple_var_pattern : regex :=
  [Open 1; Alt [t "const"; t "let"; t "var"]; Close 1; Plus Space;
   Open 2; Plus Word; Close 2;
   Star Space; Str (t "="); Star Space; Plus (NoneOf (t ";")); Str (t ";")].

(** [[v.strip() for v in vars_str.split(',') if v.strip()]] *)
Definition vars_list_of (vars_str : text) : list text :=
  map strip (filter (fun v => nonempty (strip v)) (split_on "," vars_str)).

(** [var.split(':')[0].strip()] *)
Definition var_name_of (var : text) : text :=
  strip (hd [] (split_on ":" var)).

(** The inner loop that fills [used_vars]. *)
Definition used_vars_of (vars_list : list text) (content : text) : list text :=
  filter (fun var => is_variable_used (var_name_of var) content) vars_list.

(** [f"const {{ {new_vars_str} }} ="] *)
Definition new_line_of (used_vars : list text) : text :=
  t "const { " ++ join (t ", ") used_vars ++ t " } =".

(** One iteration of the loop over the destructuring matches.  [content] is
    the buffer as the earlier iterations left it; [m] is a match object,
    whose offsets were taken by [re.finditer] on the buffer the loop started
    from. *)
Definition destructuring_step (content : text) (m : rmatch) : text :=
  let vars_list := vars_list_of (group 1 (m_caps m)) in
  let used_vars := used_vars_of vars_list content in
  if length used_vars <? length vars_list then
    splice (m_start m) (m_end m) (new_line_of used_vars) content
  else content.

(** One iteration of the loop over the simple declarations. *)
Definition simple_step (content : text) (m : rmatch) : text :=
  let var_name := group 2 (m_caps m) in
  if negb (is_variable_used var_name content) then
    let line_start :=
      match rfind_before nl (m_start m) content with
      | Some i => i + 1
      | None => 0
      end in
    let line_end :=
      match find_from nl (m_end m) content with
      | Some i => i
      | None => length content
      end in
    let line := slice line_start line_end content in
    if contains var_name line && contains (t "=") line then
      firstn line_start content ++ skipn (line_end + 1) content
    else content
  else content.

(** Pattern 1 of [remove_unused_variables]; the same loop is Pattern 2 of
    [fix_common_unused_variables]. *)
Definition remove_unused_destructuring (content : text) : text :=
  fold_left destructuring_step (finditer destructuring_pattern content) content.

Definition remove_unused_simple (content : text) : text :=
  fold_left simple_step (finditer simple_var_pattern content) content.

Definition remove_unused_variables (content : text) : text :=
  remove_unused_simple (remove_unused_destructuring content).

(** ** The console-to-logger migrator ([fix-console-logging.py]) *)

(** The patterns below are quoted with [Q] for the class of the two quote
    characters, [N] for its complement and [D] for a double quote; groups
    are written with a space inside the parentheses. *)
Definition quote : cls := OneOf [dq; sq].        (* Q *)
Definition not_quote : cls := NoneOf [dq; sq].   (* N *)
Definition not_rpar : cls := NoneOf (t ")").     (* [^)] *)

(** [console\.<callee>\s*\(\s*Q], the common head of the ten patterns. *)
Definition call_head (callee : text) : regex :=
  [Str (t "console." ++ callee); Star Space; Str (t "("); Star Space; Set_ quote].

(** [<head>( N* )Q\s*,\s*([^)]+)\)] *)
Definition two_arg_pattern (callee : text) : regex :=
  call_head callee ++
  [Open 1; Star not_quote; Close 1; Set_ quote; Star Space; Str (t ",");
   Star Space; Open 2; Plus not_rpar; Close 2; Str (t ")")].

(** [<head>( N* )Q\s*\)] *)
Definition one_arg_pattern (callee : text) : regex :=
  call_head callee ++
  [Open 1; Star not_quote; Close 1; Set_ quote; Star Space; Str (t ")")].

Definition pattern1 : regex := two_arg_pattern (t "error").

(** [r'logger.error(D\1D, \2 instanceof Error ? \2 : new Error(String(\2)))'] *)
Definition replacement1 : template :=
  [RLit (t "logger.error(" ++ [dq]); RRef 1; RLit (dq :: t ", "); RRef 2;
   RLit (t " instanceof Error ? "); RRef 2;
   RLit (t " : new Error(String("); RRef 2; RLit (t ")))")].

(** [r'console\.error\s*\(\s*Q( N* ):Q\s*,'] *)
Definition pattern2 : regex :=
  call_head (t "error") ++
  [Open 1; Star not_quote; Close 1; Str (t ":"); Set_ quote; Star Space; Str (t ",")].

Definition replacement2 : template :=
  [RLit (t "logger.error(" ++ [dq]); RRef 1; RLit [dq]].

Definition pattern3 : regex := one_arg_pattern (t "error").

Definition one_arg_replacement (method : text) : template :=
  [RLit (t "logger." ++ method ++ t "(" ++ [dq]); RRef 1; RLit (dq :: t ")")].

(** [r'logger.<method>(D\1D, { \2 })'] *)
Definition object_replacement (method : text) : template :=
  [RLit (t "logger." ++ method ++ t "(" ++ [dq]); RRef 1; RLit (dq :: t ", { ");
   RRef 2; RLit (t " })")].

Definition replacement3 : template := one_arg_replacement (t "error").

Definition pattern4 : regex := two_arg_pattern (t "warn").
Definition replacement4 : template := object_replacement (t "warn").

Definition pattern5 : regex := one_arg_pattern (t "warn").
Definition replacement5 : template := one_arg_replacement (t "warn").

(** [r'console\.log\s*\(\s*Q( N*(?:Start|Complete|Process)N* )Q\s*\)'] *)
Definition keywords : list text := [t "Start"; t "Complete"; t "Process"].

Definition pattern6 : regex :=
  call_head (t "log") ++
  [Open 1; Star not_quote; Alt keywords;
   Star not_quote; Close 1; Set_ quote; Star Space; Str (t ")")].
Definition replacement6 : template := one_arg_replacement (t "info").

Definition pattern7 : regex := two_arg_pattern (t "log").
Definition replacement7 : template := object_replacement (t "info").

Definition pattern8 : regex := one_arg_pattern (t "log").
Definition replacement8 : template := one_arg_replacement (t "debug").

Definition pattern9 : regex := two_arg_pattern (t "info").
Definition replacement9 : template := object_replacement (t "info").

Definition pattern10 : regex := one_arg_pattern (t "info").
Definition replacement10 : template := one_arg_replacement (t "info").

(** The ten stanzas of [replace_console_statements], in source order. *)
Definition rules : list (regex * template) :=
  [(pattern1, replacement1); (pattern2, replacement2); (pattern3, replacement3);
   (pattern4, replacement4); (pattern5, replacement5); (pattern6, replacement6);
   (pattern7, replacement7); (pattern8, replacement8); (pattern9, replacement9);
   (pattern10, replacement10)].

Definition apply_rule (content : text) (r : regex * template) : text :=
  re_sub (fst r) (snd r) content.

(** [replacements_made] adds, for every pattern, the number of its matches
    in the original content. *)
Definition count_replacements (original_content : text) : nat :=
  fold_left (fun n r => n + length (finditer (fst r) original_content)) rules 0.

Definition replace_console_statements (content : text) : text * nat :=
  (fold_left apply_rule rules content, count_replacements content).

(** [s[:k]] and [s[k:]] for an integer bound: a negative bound counts from
    the end, and bounds are clamped to the string. *)
Definition slice_index (k : Z) (s : text) : nat :=
  if (k <? 0)%Z then Z.to_nat (Z.max 0 (Z.of_nat (length s) + k)) else Z.to_nat k.

Definition slice_to (k : Z) (s : text) : text := firstn (slice_index k s) s.
Definition slice_from (k : Z) (s : text) : text := skipn (slice_index k s) s.

(** [s.rfind(needle)], [-1] when the needle does not occur. *)
Fixpoint rfind_text (needle s : text) : option nat :=
  match s with
  | [] => match needle with [] => Some 0 | _ => None end
  | _ :: s' =>
      match rfind_text needle s' with
      | Some i => Some (S i)
      | None => match strip_prefix needle s with Some _ => Some 0 | None => None end
      end
  end.

Definition rfind (needle s : text) : Z :=
  match rfind_text needle s with
  | Some i => Z.of_nat i
  | None => (-1)%Z
  end.

(** [r'( import.*from[^\n]*;\n* )'] *)
Definition import_pattern : regex :=
  [Open 1; Str (t "import"); Star Dot; Str (t "from"); Star (NoneOf [nl]);
   Str (t ";"); Star (OneOf [nl]); Close 1].

(** [re.findall] of a pattern with one group: the texts of group 1. *)
Definition findall1 (re : regex) (s : text) : list text :=
  map (fun m => group 1 (m_caps m)) (finditer re s).

Definition logger_import : text := t "import { logger } from './logging';".

(** The text the guard of [add_logger_import] looks for with [in]. *)
Definition import_guard : text := t "import.*logger.*from".

Definition add_logger_import (content : text) : text * bool :=
  if contains import_guard content then (content, false)
  else
    let imports := findall1 import_pattern content in
    match rev imports with
    | [] => (logger_import ++ [nl; nl] ++ content, true)
    | last_import :: _ =>
        let last_import_end :=
          (rfind last_import content + Z.of_nat (length last_import))%Z in
        (slice_to last_import_end content ++ logger_import ++ [nl] ++
         slice_from last_import_end content, true)
    end.

(** ** Auxiliary notions used in the statements and proofs *)

(** [stops p s]: a run of [p] cannot go on into [s]. *)
Definition stops (p : cls) (s : text) : bool :=
  match s with
  | [] => true
  | c :: _ => negb (cls_mem p c)
  end.

(** A name that is an identifier: non-empty, word characters only. *)
Definition is_identifier (name : text) : bool :=
  nonempty name && forallb is_word name.

(** Whole-word occurrence, in the words of the specification: the name
    stands at the start of [s] as a complete identifier, neither preceded
    nor followed by a word character. *)
Definition whole_word_at (name : text) (prev : option ascii) (s : text) : bool :=
  match strip_prefix name s with
  | Some rest => negb (opt_word prev) && negb (opt_word (hd_error rest))
  | None => false
  end.

(** The number of positions of [s] that carry a whole-word occurrence. *)
Fixpoint whole_word_count (name : text) (prev : option ascii) (s : text) : nat :=
  (if whole_word_at name prev s then 1 else 0) +
  match s with
  | [] => 0
  | c :: s' => whole_word_count name (Some c) s'
  end.

(** No whole-word occurrence starts at the next [k] positions. *)
Fixpoint no_start (name : text) (k : nat) (prev : option ascii) (s : text) : bool :=
  match k with
  | 0 => true
  | S k' =>
      negb (whole_word_at name prev s) &&
      match s with
      | [] => true
      | c :: s' => no_start name k' (Some c) s'
      end
  end.

(** The loop of [find_unused_variables_in_function] over the candidates of
    one pattern: a candidate is reported when the resolver says it is not
    used in the scope. *)
Definition unused_among (candidates : list text) (scope : text) : list text :=
  filter (fun var => negb (is_variable_used var scope)) candidates.

(** [r'const\s+\{([^}]+)\}\s*='], [r'const\s+(\w+)'], [r'let\s+(\w+)'],
    [r'var\s+(\w+)'] *)
Definition var_patterns : list regex :=
  [[Str (t "const"); Plus Space; Str (t "{"); Open 1; Plus (NoneOf (t "}"));
    Close 1; Str (t "}"); Star Space; Str (t "=")];
   [Str (t "const"); Plus Space; Open 1; Plus Word; Close 1];
   [Str (t "let"); Plus Space; Open 1; Plus Word; Close 1];
   [Str (t "var"); Plus Space; Open 1; Plus Word; Close 1]].

(** Every pattern has one group, so [re.findall] yields strings and the
    [isinstance(match, tuple)] branch is never taken. *)
Definition find_unused_variables_in_function
           (content : text) (function_start function_end : nat) : list text :=
  let function_content := slice function_start function_end content in
  flat_map (fun pattern => unused_among (findall1 pattern function_content)
                                        function_content)
           var_patterns.

(** The edit set of a buffer, in the words of the specification: one
    replace-range edit per destructuring declaration with a member judged
    unused, with the offsets and verdicts taken on the buffer itself. *)
Definition planned_destructuring_edits (content : text) : list (nat * nat * text) :=
  flat_map
    (fun m =>
       let vars_list := vars_list_of (group 1 (m_caps m)) in
       let used_vars := used_vars_of vars_list content in
       if length used_vars <? length vars_list
       then [(m_start m, m_end m, new_line_of used_vars)]
       else [])
    (finditer destructuring_pattern content).

(** The Edit Applier of the specification: the edits, given in ascending
    order of start offset, are spliced in from the last one to the first. *)
Definition apply_edits_descending (edits : list (nat * nat * text)) (buffer : text)
  : text :=
  fold_right (fun e b => splice (fst (fst e)) (snd (fst e)) (snd e) b) buffer edits.

(** No destructuring declaration of the buffer has a member judged unused. *)
Definition no_dead_member (content : text) : bool :=
  forallb (fun m =>
             let vars_list := vars_list_of (group 1 (m_caps m)) in
             negb (length (used_vars_of vars_list content) <? length vars_list))
          (finditer destructuring_pattern content).

(** No simple declaration of the buffer is judged unused. *)
Definition no_dead_declaration (content : text) : bool :=
  forallb (fun m => is_variable_used (group 2 (m_caps m)) content)
          (finditer simple_var_pattern content).

(** None of the ten patterns matches anywhere in the buffer. *)
Definition no_console_match (content : text) : bool :=
  forallb (fun r => match finditer (fst r) content with [] => true | _ => false end)
          rules.

(** Quote characters and the number of them in a text. *)
Definition is_quote (c : ascii) : bool := in_text c [dq; sq].

Definition count_q (s : text) : nat := length (filter is_quote s).

(** The number of quote characters a match of the pattern is sure to
    consume: one for each atom that takes exactly one quote character. *)
Fixpoint need_quotes (re : regex) : nat :=
  match re with
  | [] => 0
  | Set_ (OneOf cs) :: re' =>
      (if nonempty cs && forallb is_quote cs then 1 else 0) + need_quotes re'
  | _ :: re' => need_quotes re'
  end.

Definition starts (lit s : text) : bool :=
  match strip_prefix lit s with Some _ => true | None => false end.

(** A buffer in which no rule of the migrator can match: wherever the text
    [console.] begins, fewer than two quote characters follow. *)
Fixpoint quiet (s : text) : bool :=
  (negb (starts (t "console.") s) || (count_q s <? 2)) &&
  match s with
  | [] => true
  | _ :: s' => quiet s'
  end.

(** The text of a call with one argument or two, the first a string
    literal in quotes [q]. *)
Definition one_arg_call (callee : text) (q : ascii) (msg : text) : text :=
  (t "console." ++ callee) ++ t "(" ++ q :: msg ++ q :: t ")".

Definition two_arg_call (callee : text) (q : ascii) (msg arg : text) : text :=
  (t "console." ++ callee) ++ t "(" ++ q :: msg ++ q :: t ", " ++ arg ++ t ")".

(** A second argument that holds no closing parenthesis and no quote
    character and does not begin with white space. *)
Definition plain_argument (arg : text) : bool :=
  forallb (cls_mem not_rpar) arg && forallb (cls_mem not_quote) arg &&
  match arg with
  | [] => false
  | c :: _ => negb (is_space c)
  end.

(** The coercion of the second argument to an [Error]. *)
Definition error_coercion (arg : text) : text :=
  arg ++ t " instanceof Error ? " ++ arg ++ t " : new Error(String(" ++ arg ++ t "))".

(** The message holds one of the keywords of the sixth pattern. *)
Definition has_keyword (msg : text) : bool :=
  existsb (fun kw => contains kw msg) keywords.

(** [logger.<method>(D msg D, { arg })], the result of the object rules. *)
Definition object_call (method msg arg : text) : text :=
  t "logger." ++ method ++ t "(" ++ dq :: msg ++ dq :: t ", { " ++ arg ++ t " })".

(** [logger.<method>(D msg D)]. *)
Definition logger_call (method msg : text) : text :=
  t "logger." ++ method ++ t "(" ++ dq :: msg ++ dq :: t ")".

(** The captures of a match of a one-argument and of a two-argument
    pattern on the text of a call. *)
Definition one_arg_caps (q : ascii) (msg : text) : caps :=
  close_group 1 (q :: t ")") (open_group 1 (msg ++ q :: t ")") no_caps).

Definition two_arg_caps (q : ascii) (msg arg : text) : caps :=
  close_group 2 (t ")")
    (open_group 2 (arg ++ t ")")
       (close_group 1 (q :: t ", " ++ arg ++ t ")")
          (open_group 1 (msg ++ q :: t ", " ++ arg ++ t ")") no_caps))).

(** No suffix of [s] satisfies [P]. *)
Fixpoint nowhere (P : text -> bool) (s : text) : bool :=
  negb (P s) &&
  match s with
  | [] => true
  | _ :: s' => nowhere P s'
  end.

(** The text begins with one of the three declaration keywords. *)
Definition starts_declaration (s : text) : bool :=
  starts (t "const") s || starts (t "let") s || starts (t "var") s.

(** No suffix of [pre ++ rest] that begins inside [pre] begins with the
    text [console.]. *)
Fixpoint inert_before (pre rest : text) : bool :=
  match pre with
  | [] => true
  | _ :: pre' => negb (starts (t "console.") (pre ++ rest)) && inert_before pre' rest
  end.

(** [rest] does not begin with the end of the text [console.], so that an
    occurrence begun before [rest] cannot be completed by it. *)
Definition no_border (rest : text) : bool :=
  forallb (fun k => negb (starts (skipn k (t "console.")) rest)) (seq 1 7).

(** A second argument without closing parenthesis that does not begin with
    white space. *)
Definition bare_argument (arg : text) : bool :=
  forallb (cls_mem not_rpar) arg &&
  match arg with
  | [] => false
  | c :: _ => negb (is_space c)
  end.

Definition one_arg_caps_in (q : ascii) (msg post : text) : caps :=
  close_group 1 (q :: t ")" ++ post) (open_group 1 (msg ++ q :: t ")" ++ post) no_caps).

Definition two_arg_caps_in (q : ascii) (msg arg post : text) : caps :=
  close_group 2 (t ")" ++ post)
    (open_group 2 (arg ++ t ")" ++ post)
       (close_group 1 (q :: t ", " ++ arg ++ t ")" ++ post)
          (open_group 1 (msg ++ q :: t ", " ++ arg ++ t ")" ++ post) no_caps))).

(** No suffix of [pre ++ rest] that begins inside [pre] satisfies [P]. *)
Fixpoint inert (P : text -> bool) (pre rest : text) : bool :=
  match pre with
  | [] => true
  | _ :: pre' => negb (P (pre ++ rest)) && inert P pre' rest
  end.

(** [rest] does not begin with a proper end of [lit]. *)
Definition no_border_of (lit rest : text) : bool :=
  forallb (fun k => negb (starts (skipn k lit) rest)) (seq 1 (length lit - 1)).

(** A member of a destructuring pattern as the cleaner writes it back: not
    empty, no white space at either end, no comma and no closing brace. *)
Definition well_formed_member (v : text) : bool :=
  match v with [] => false | c :: _ => negb (is_space c) end &&
  match rev v with [] => false | c :: _ => negb (is_space c) end &&
  forallb (fun c => negb (in_text c (t ",}"))) v.


(** A declaration in the layout [kw name = expr;]. *)
Definition simple_declaration (kw name expr : text) : text :=
  kw ++ t " " ++ name ++ t " = " ++ expr ++ t ";".

(** None of the three declaration keywords occurs in [s], not even inside
    a longer word. *)
Definition no_keyword (s : text) : bool :=
  negb (contains (t "const") s) && negb (contains (t "let") s)
  && negb (contains (t "var") s).

(** An initialiser that [simple_var_pattern] takes whole: not empty, no
    white space in front, no semicolon. *)
Definition plain_initialiser (expr : text) : bool :=
  match expr with [] => false | c :: _ => negb (is_space c) end &&
  forallb (fun c => negb (in_text c (t ";"))) expr.

(** [s] is empty or ends with a newline: what follows starts a line. *)
Definition at_line_start (s : text) : bool :=
  match rev s with [] => true | c :: _ => Ascii.eqb c nl end.

(** [s] is empty or begins with a newline: the line ends here. *)
Definition at_line_end (s : text) : bool :=
  match s with [] => true | c :: _ => Ascii.eqb c nl end.

(** ** The common-pattern fixer ([fix-common-unused.py]) *)

(** [bool(re.search(pattern, s))]. *)
Definition re_search (re : regex) (s : text) : bool :=
  match finditer re s with
  | [] => false
  | _ :: _ => true
  end.

(** [r'React\.'] *)
Definition react_member_pattern : regex := [Str (t "React.")].

(** [react_import_pattern]: the text [import React, ], an opening brace,
    any run of characters other than a closing brace, a closing brace and
    the text [ from 'react';]. *)
Definition react_import_pattern : regex :=
  [Str (t "import React, "); Str (t "{"); Star (NoneOf (t "}")); Str (t "}");
   Str (t " from 'react';")].

(** The pattern handed to [re.sub]: the same text, the braces and what they
    hold in group 1. *)
Definition react_sub_pattern : regex :=
  [Str (t "import React, "); Open 1; Str (t "{"); Star (NoneOf (t "}"));
   Str (t "}"); Close 1; Str (t " from 'react';")].

(** The replacement [r'import \1 from \'react\';'].  The literal is a raw
    string, so each backslash before a quote is a character of the template;
    [re.sub] leaves an escaped non-letter as it stands, backslash
    included. *)
Definition react_replacement : template :=
  [RLit (t "import "); RRef 1; RLit (t " from \'react\';")].

(** Pattern 1 of [fix_common_unused_variables]: the buffer after the step
    and what the step adds to [fixes_made]. *)
Definition remove_react_import (content : text) : text * nat :=
  if contains (t "import React") content
     && negb (re_search react_member_pattern content) then
    if re_search react_import_pattern content then
      (re_sub react_sub_pattern react_replacement content, 1)
    else (content, 0)
  else (content, 0).

(** The import line the step looks for, with [names] between the braces. *)
Definition react_import (names : text) : text :=
  t "import React, {" ++ names ++ t "} from 'react';".

(** ** Processing one file ([fix-console-logging.py]) *)

(** [r'console\.(log|error|warn|info)'] *)
Definition console_pattern : regex :=
  [Str (t "console."); Open 1; Alt [t "log"; t "error"; t "warn"; t "info"];
   Close 1].

(** [has_console_statements], on the content that it reads from the file. *)
Definition has_console_statements (content : text) : bool :=
  re_search console_pattern content.

(** [len(re.findall(r'console\.(log|error|warn|info)', content))] *)
Definition count_console (content : text) : Z :=
  Z.of_nat (length (finditer console_pattern content)).

(** The counters of a [ConsoleToLoggingMigrator]. *)
Record migrator : Type := mkMigrator {
  total_files : nat;
  modified_files : nat;
  console_statements_fixed : Z
}.

(** [process_file].  The file is the content read from it; the result holds
    the counters after the call, the content written back ([None] when the
    file is not written) and the value returned. *)
Definition process_file (self : migrator) (original_content : text)
  : migrator * option text * bool :=
  if negb (has_console_statements original_content) then (self, None, false)
  else
    let before_count := count_console original_content in
    let (content, import_added) := add_logger_import original_content in
    let (content', replacements) := replace_console_statements content in
    let after_count := count_console content' in
    let fixed_count := (before_count - after_count)%Z in
    if (fixed_count >? 0)%Z then
      (mkMigrator (total_files self) (modified_files self + 1)
                  (console_statements_fixed self + fixed_count),
       Some content', true)
    else (self, None, false).

(** The logger method that takes the place of a console method in a call
    with one string literal. *)
Definition migrated_level (callee msg : text) : text :=
  if starts (t "log") callee then
    if has_keyword msg then t "info" else t "debug"
  else callee.

(** An import statement on one line, [import a from b;]. *)
Definition import_line (a b : text) : text :=
  t "import" ++ a ++ t "from" ++ b ++ t ";".

(** A part of such a statement: no newline and no semicolon in it. *)
Definition import_part (a : text) : bool :=
  forallb (fun c => negb (in_text c [nl; ";"%char])) a.

(** A non-empty run of newlines. *)
Definition newlines (s : text) : bool :=
  nonempty s && forallb (fun c => in_text c [nl]) s.

(** [rest] does not begin with a newline. *)
Definition after_newlines (rest : text) : bool :=
  match rest with
  | [] => true
  | c :: _ => negb (in_text c [nl])
  end.

(** ** Cleaning one file ([clean-unused-vars.py]) *)

(** [a == b] on strings. *)
Fixpoint text_eqb (a b : text) : bool :=
  match a, b with
  | [], [] => true
  | x :: a', y :: b' => Ascii.eqb x y && text_eqb a' b'
  | _, _ => false
  end.

(** The counters of an [UnusedVariableCleaner]. *)
Record cleaner : Type := mkCleaner {
  cleaner_total_files : nat;
  cleaner_modified_files : nat;
  variables_removed : Z
}.

(** [clean_file].  The file is the content read from it; the result holds
    the counters after the call, the content written back ([None] when the
    file is not written) and the value returned. *)
Definition clean_file (self : cleaner) (original_content : text)
  : cleaner * option text * bool :=
  let original_lines := split_on nl original_content in
  let cleaned_content := remove_unused_variables original_content in
  let cleaned_lines := split_on nl cleaned_content in
  if negb (text_eqb cleaned_content original_content) then
    let lines_removed :=
      (Z.of_nat (length original_lines) - Z.of_nat (length cleaned_lines))%Z in
    (mkCleaner (cleaner_total_files self) (cleaner_modified_files self + 1)
               (variables_removed self + lines_removed),
     Some cleaned_content, true)
  else (self, None, false).

(** The number of newlines in a text. *)
Definition count_newlines (s : text) : nat :=
  length (filter (fun c => Ascii.eqb c nl) s).

(** The offset at which the line of a match begins, as [simple_step] takes
    it: one past the last newline before the start of the match. *)
Definition line_start_of (content : text) (m : rmatch) : nat :=
  match rfind_before nl (m_start m) content with
  | Some i => i + 1
  | None => 0
  end.

(** The number of places at which [needle] occurs in [s] as a piece of
    text, inside a longer word or not. *)
Fixpoint occurrences (needle s : text) : nat :=
  (if starts needle s then 1 else 0) +
  match s with
  | [] => 0
  | _ :: s' => occurrences needle s'
  end.

(** Atoms that leave the captures as they are. *)
Definition keeps_groups (a : atom) : bool :=
  match a with
  | Open _ | Close _ => false
  | _ => true
  end.
(** * Properties *)

(** ** The matcher *)

Lemma strip_prefix_app (lit s : text) : strip_prefix lit (lit ++ s) = Some s.
Proof.
  induction lit as [|a lit IH]; simpl; [reflexivity|].
  now rewrite Ascii.eqb_refl.
Qed.

Lemma strip_prefix_inv (lit s s' : text) :
  strip_prefix lit s = Some s' -> s = lit ++ s'.
Proof.
  revert s; induction lit as [|a lit IH]; simpl; intros s H.
  - now inversion H.
  - destruct s as [|c s]; [discriminate|].
    destruct (Ascii.eqb a c) eqn:E; [|discriminate].
    apply Ascii.eqb_eq in E; subst c. f_equal. now apply IH.
Qed.

Lemma last_char_nil (prev : option ascii) : last_char [] prev = prev.
Proof. reflexivity. Qed.

Lemma last_char_cons (c : ascii) (a : text) (prev : option ascii) :
  last_char (c :: a) prev = last_char a (Some c).
Proof.
  unfold last_char; simpl.
  destruct (rev a) as [|x l]; reflexivity.
Qed.

Lemma last_char_app (a b : text) (prev : option ascii) :
  last_char (a ++ b) prev = last_char b (last_char a prev).
Proof.
  revert prev; induction a as [|c a IH]; intros prev; simpl.
  - reflexivity.
  - now rewrite !last_char_cons, IH.
Qed.

Section StarLoop.

Variable R : Type.
Variable p : cls.
Variable k : option ascii -> text -> option R.

Lemma star_loop_stop (prev : option ascii) (s : text) :
  stops p s = true -> star_loop p k prev s = k prev s.
Proof.
  destruct s as [|c s]; simpl; [reflexivity|].
  intros H. apply negb_true_iff in H. now rewrite H.
Qed.

(** A successful repetition ends at some split of the subject. *)
Lemma star_loop_some_inv (prev : option ascii) (s : text) (r : R) :
  star_loop p k prev s = Some r ->
  exists a b, s = a ++ b /\ forallb (cls_mem p) a = true /\
              k (last_char a prev) b = Some r.
Proof.
  revert prev; induction s as [|c s IH]; intros prev H; simpl in H.
  - exists [], []. auto.
  - destruct (cls_mem p c) eqn:E.
    + destruct (star_loop p k (Some c) s) as [r'|] eqn:E'.
      * inversion H; subst r'. destruct (IH _ E') as (a & b & -> & Ha & Hk).
        exists (c :: a), b. simpl. rewrite E, Ha, last_char_cons. auto.
      * exists [], (c :: s). auto.
    + exists [], (c :: s). auto.
Qed.

(** A failed repetition failed at every split of the run. *)
Lemma star_loop_none_inv (prev : option ascii) (xs tl : text) :
  forallb (cls_mem p) xs = true ->
  star_loop p k prev (xs ++ tl) = None ->
  forall a b, xs = a ++ b -> k (last_char a prev) (b ++ tl) = None.
Proof.
  revert prev; induction xs as [|c xs IH]; intros prev Hp H a b Hab.
  - destruct a; [|discriminate]. destruct b; [|discriminate]. simpl in *.
    destruct tl as [|c tl]; simpl in H; [assumption|].
    destruct (cls_mem p c); [|assumption].
    destruct (star_loop p k (Some c) tl); [discriminate|assumption].
  - simpl in Hp. apply andb_true_iff in Hp as [Hc Hp].
    simpl in H. rewrite Hc in H.
    destruct (star_loop p k (Some c) (xs ++ tl)) eqn:E; [discriminate|].
    destruct a as [|c' a].
    + simpl in Hab; subst b. exact H.
    + simpl in Hab. inversion Hab; subst c' xs.
      rewrite last_char_cons. eapply IH; eauto.
Qed.

(** Greedy: when the continuation accepts after the whole run, that is
    the result. *)
Lemma star_loop_greedy (prev : option ascii) (xs tl : text) (r : R) :
  forallb (cls_mem p) xs = true ->
  stops p tl = true ->
  k (last_char xs prev) tl = Some r ->
  star_loop p k prev (xs ++ tl) = Some r.
Proof.
  revert prev; induction xs as [|c xs IH]; intros prev Hp Hs Hk.
  - simpl. now rewrite star_loop_stop.
  - simpl in Hp. apply andb_true_iff in Hp as [Hc Hp].
    simpl. rewrite Hc. rewrite last_char_cons in Hk.
    now rewrite (IH _ Hp Hs Hk).
Qed.

Lemma star_loop_none (prev : option ascii) (xs tl : text) :
  forallb (cls_mem p) xs = true ->
  stops p tl = true ->
  (forall a b, xs = a ++ b -> k (last_char a prev) (b ++ tl) = None) ->
  star_loop p k prev (xs ++ tl) = None.
Proof.
  revert prev; induction xs as [|c xs IH]; intros prev Hp Hs Hk.
  - simpl. rewrite star_loop_stop by assumption. exact (Hk [] [] eq_refl).
  - simpl in Hp. apply andb_true_iff in Hp as [Hc Hp].
    simpl. rewrite Hc. rewrite IH; auto.
    + exact (Hk [] (c :: xs) eq_refl).
    + intros a b ->. specialize (Hk (c :: a) b eq_refl).
      now rewrite last_char_cons in Hk.
Qed.

(** Backtracking: when every split that the continuation accepts yields
    the same result, and at least one does, that is the result. *)
Lemma star_loop_agree (prev : option ascii) (xs tl : text) (r : R) :
  forallb (cls_mem p) xs = true ->
  stops p tl = true ->
  (forall a b r', xs = a ++ b ->
                  k (last_char a prev) (b ++ tl) = Some r' -> r' = r) ->
  (exists a b, xs = a ++ b /\ k (last_char a prev) (b ++ tl) = Some r) ->
  star_loop p k prev (xs ++ tl) = Some r.
Proof.
  intros Hp Hs Hall (a & b & Hab & Hk).
  destruct (star_loop p k prev (xs ++ tl)) as [r'|] eqn:E.
  - destruct (@star_loop_some_inv prev (xs ++ tl) r' E) as (a' & b' & Heq & Ha' & Hk').
    assert (exists b'', xs = a' ++ b'' /\ b' = b'' ++ tl) as (b'' & -> & ->).
    { clear -Heq Hp Hs Ha'. revert a' Heq Ha'.
      induction xs as [|c xs IH]; intros a' Heq Ha'.
      - simpl in Heq. destruct a' as [|c' a'].
        + exists []. simpl in *. auto.
        + destruct tl as [|c tl]; [discriminate|]. simpl in Heq.
          inversion Heq; subst c'. simpl in Ha', Hs.
          apply andb_true_iff in Ha' as [Hc _].
          rewrite Hc in Hs. discriminate.
      - simpl in Hp. apply andb_true_iff in Hp as [Hc Hp].
        destruct a' as [|c' a'].
        + exists (c :: xs). simpl in *. auto.
        + simpl in Heq. inversion Heq; subst c'.
          simpl in Ha'. apply andb_true_iff in Ha' as [_ Ha'].
          destruct (IH Hp a' H1 Ha') as (b'' & -> & ->).
          exists b''. auto. }
    f_equal. exact (Hall a' b'' r' eq_refl Hk').
  - rewrite (@star_loop_none_inv prev xs tl Hp E a b Hab) in Hk. discriminate.
Qed.

End StarLoop.

(** What a match consumed is a prefix of the subject. *)
Lemma match_atoms_suffix (re : regex) :
  forall g prev s g' rest,
    match_atoms re g prev s = Some (g', rest) -> exists w, s = w ++ rest.
Proof.
  induction re as [|a re IH]; intros g prev s g' rest H; simpl in H.
  - inversion H; subst. now exists [].
  - destruct a as [lit|p|p|p|lits|i|i|].
    + destruct (strip_prefix lit s) as [s'|] eqn:E; [|discriminate].
      apply strip_prefix_inv in E; subst s.
      destruct (IH _ _ _ _ _ H) as (w & ->). exists (lit ++ w). now rewrite app_assoc.
    + destruct s as [|c s]; [discriminate|].
      destruct (cls_mem p c); [|discriminate].
      destruct (IH _ _ _ _ _ H) as (w & ->). now exists (c :: w).
    + apply star_loop_some_inv in H as (x & b & -> & _ & Hk).
      destruct (IH _ _ _ _ _ Hk) as (w & ->). exists (x ++ w). now rewrite app_assoc.
    + destruct s as [|c s]; [discriminate|].
      destruct (cls_mem p c); [|discriminate].
      apply star_loop_some_inv in H as (x & b & -> & _ & Hk).
      destruct (IH _ _ _ _ _ Hk) as (w & ->). exists (c :: x ++ w).
      simpl. now rewrite app_assoc.
    + revert H. induction lits as [|lit lits IHl]; simpl; [discriminate|].
      destruct (strip_prefix lit s) as [s'|] eqn:E; [|exact IHl].
      destruct (match_atoms re g (last_char lit prev) s') as [[g1 r1]|] eqn:E1;
        [|exact IHl].
      intros H; inversion H; subst g1 r1.
      apply strip_prefix_inv in E; subst s.
      destruct (IH _ _ _ _ _ E1) as (w & ->). exists (lit ++ w). now rewrite app_assoc.
    + eapply IH; eauto.
    + eapply IH; eauto.
    + destruct (at_boundary prev s); [|discriminate]. eapply IH; eauto.
Qed.

(** ** The usage resolver *)

Lemma usage_match_spec (name : text) (prev : option ascii) (s : text) :
  is_identifier name = true ->
  match_here (usage_pattern name) prev s =
  match strip_prefix name s with
  | Some rest => if whole_word_at name prev s then Some (no_caps, rest) else None
  | None => None
  end.
Proof.
  intros Hid. unfold is_identifier in Hid. apply andb_true_iff in Hid as [Hne Hw].
  unfold match_here, usage_pattern, whole_word_at. simpl.
  destruct (strip_prefix name s) as [rest|] eqn:E.
  - pose proof (strip_prefix_inv _ _ E) as ->.
    destruct name as [|c name]; [discriminate|].
    simpl in Hw. apply andb_true_iff in Hw as [Hc Hw].
    assert (Hl : opt_word (last_char (c :: name) prev) = true).
    { clear -Hc Hw. revert c Hc prev. induction name as [|d name IH]; intros c Hc prev.
      - unfold last_char; simpl. exact Hc.
      - rewrite last_char_cons. simpl in Hw. apply andb_true_iff in Hw as [Hd Hw].
        now apply IH. }
    unfold at_boundary at 1. simpl hd_error. simpl opt_word at 2. rewrite Hc.
    unfold at_boundary. rewrite Hl.
    destruct (opt_word prev); simpl; [reflexivity|].
    destruct (opt_word (hd_error rest)); reflexivity.
  - destruct (at_boundary prev s); reflexivity.
Qed.

Lemma no_start_word (name w rest : text) (prev : option ascii) :
  opt_word prev = true -> forallb is_word w = true ->
  no_start name (length w) prev (w ++ rest) = true.
Proof.
  revert prev; induction w as [|c w IH]; intros prev Hp Hw; simpl.
  - reflexivity.
  - simpl in Hw. apply andb_true_iff in Hw as [Hc Hw].
    rewrite IH by assumption. rewrite andb_true_r.
    unfold whole_word_at. destruct (strip_prefix name (c :: w ++ rest)); [|reflexivity].
    now rewrite Hp.
Qed.

Lemma finditer_from_cons (re : regex) (pos : nat) (prev : option ascii)
      (c : ascii) (s : text) :
  finditer_from re 0 pos prev (c :: s) =
  match match_here re prev (c :: s) with
  | Some (g, rest) =>
      mkMatch pos (pos + (length (c :: s) - length rest)) g
      :: finditer_from re (pred (length (c :: s) - length rest)) (S pos) (Some c) s
  | None => finditer_from re 0 (S pos) (Some c) s
  end.
Proof. reflexivity. Qed.

Lemma finditer_usage_count (name : text) :
  is_identifier name = true ->
  forall s skip pos prev,
    no_start name skip prev s = true ->
    length (finditer_from (usage_pattern name) skip pos prev s) =
    whole_word_count name prev s.
Proof.
  intros Hid. pose proof Hid as Hid'.
  unfold is_identifier in Hid'. apply andb_true_iff in Hid' as [Hne Hw].
  induction s as [|c s IH]; intros skip pos prev Hq.
  - simpl. rewrite usage_match_spec by assumption.
    unfold whole_word_at. destruct name; [discriminate|]. simpl.
    destruct skip; reflexivity.
  - change (whole_word_count name prev (c :: s))
      with ((if whole_word_at name prev (c :: s) then 1 else 0)
            + whole_word_count name (Some c) s).
    destruct skip as [|k].
    + rewrite finditer_from_cons, usage_match_spec by assumption.
      destruct (strip_prefix name (c :: s)) as [rest|] eqn:E.
      * destruct (whole_word_at name prev (c :: s)) eqn:Ew.
        -- pose proof (strip_prefix_inv _ _ E) as Heq.
           destruct name as [|d name]; [discriminate|].
           simpl in Heq. inversion Heq; subst d s.
           simpl in Hw. apply andb_true_iff in Hw as [Hc Hw].
           replace (length (c :: name ++ rest) - length rest) with (S (length name))
             by (change (length (c :: name ++ rest)) with (S (length (name ++ rest)));
                 rewrite length_app; lia).
           cbn [pred length plus]. f_equal. apply IH. now apply no_start_word.
        -- cbn [plus]. now apply IH.
      * unfold whole_word_at. rewrite E. cbn [plus]. now apply IH.
    + simpl in Hq. apply andb_true_iff in Hq as [Hn Hq].
      apply negb_true_iff in Hn. rewrite Hn. cbn [plus finditer_from]. now apply IH.
Qed.

Lemma usage_matches_whole_word (name scope : text) :
  is_identifier name = true ->
  length (usage_matches name scope) = whole_word_count name None scope.
Proof.
  intros Hid. unfold usage_matches, finditer. now apply finditer_usage_count.
Qed.

(** C5 (as amended): for a name that is an identifier, the verdict is
    "unused" exactly when the number of whole-word occurrences of the name
    in the scope, minus one for the declaration, is zero or less: a name
    that does not occur at all is unused too. *)
Theorem is_variable_used_verdict (name scope : text) :
  is_identifier name = true ->
  (is_variable_used name scope = false <->
   (Z.of_nat (whole_word_count name None scope) - 1 <= 0)%Z).
Proof.
  intros Hid. unfold is_variable_used, usage_count.
  rewrite usage_matches_whole_word by assumption.
  rewrite Z.gtb_ltb, Z.ltb_ge. reflexivity.
Qed.

Lemma is_variable_used_verdict_witness :
  is_identifier (t "b") = true /\
  (is_variable_used (t "b") (t "const { a, b } = getThing(); use(a);") = false <->
   (Z.of_nat (whole_word_count (t "b") None
                (t "const { a, b } = getThing(); use(a);")) - 1 <= 0)%Z).
Proof.
  split; [reflexivity|].
  apply (is_variable_used_verdict (t "b") (t "const { a, b } = getThing(); use(a);")).
  reflexivity.
Defined.

(** C5 (as stated) fails when the name does not occur in the scope: the
    verdict is "unused" although the count minus one is -1, not 0. *)
Lemma is_variable_used_not_iff_zero :
  ~ (is_variable_used (t "x") (t "use(y);") = false <->
     (Z.of_nat (whole_word_count (t "x") None (t "use(y);")) - 1 = 0)%Z).
Proof.
  intros [H _]. specialize (H eq_refl). vm_compute in H. discriminate.
Qed.

Lemma filter_permutation (A : Type) (f : A -> bool) (l l' : list A) :
  Permutation l l' -> Permutation (filter f l) (filter f l').
Proof.
  induction 1 as [|x l l' _ IH|x y l|l l' l'' _ IH1 _ IH2]; simpl.
  - constructor.
  - destruct (f x); [now constructor|assumption].
  - destruct (f x), (f y); try reflexivity. apply perm_swap.
  - now transitivity (filter f l').
Qed.

(** C8: the verdict on a name depends on the name and the scope only.  In
    the loop that examines the candidates, a name is reported exactly when
    the resolver alone says it is unused, whatever candidates are examined
    before or after it; examining the candidates in another order reports
    the same names; and [find_unused_variables_in_function] reports a name
    exactly when some pattern yields it and the resolver says it is unused. *)
Theorem usage_verdict_independent (name scope : text) :
  (forall before after,
      In name (unused_among (before ++ name :: after) scope) <->
      is_variable_used name scope = false) /\
  (forall candidates candidates',
      Permutation candidates candidates' ->
      Permutation (unused_among candidates scope) (unused_among candidates' scope)) /\
  (forall content function_start function_end,
      scope = slice function_start function_end content ->
      (In name (find_unused_variables_in_function content function_start function_end)
       <-> (exists pattern, In pattern var_patterns /\
                            In name (findall1 pattern scope)) /\
           is_variable_used name scope = false)).
Proof.
  repeat split.
  - intros H. apply filter_In in H as [_ H]. now apply negb_true_iff in H.
  - intros H. apply filter_In. split.
    + apply in_or_app. right. now left.
    + now apply negb_true_iff.
  - intros c c' H. now apply filter_permutation.
  - unfold find_unused_variables_in_function in H0. rewrite <- H in H0.
    apply in_flat_map in H0 as (pattern & Hp & Hin).
    apply filter_In in Hin as [Hin _]. now exists pattern.
  - unfold find_unused_variables_in_function in H0. rewrite <- H in H0.
    apply in_flat_map in H0 as (pattern & Hp & Hin).
    apply filter_In in Hin as [_ Hin]. now apply negb_true_iff in Hin.
  - intros [(pattern & Hp & Hin) Hu].
    unfold find_unused_variables_in_function. rewrite <- H.
    apply in_flat_map. exists pattern. split; [assumption|].
    apply filter_In. split; [assumption|]. now apply negb_true_iff.
Qed.

Lemma usage_verdict_independent_witness :
  let content := t "function f() { const x = 1; let y = 2; return y; }" in
  Permutation (unused_among [t "x"; t "y"] content)
              (unused_among [t "y"; t "x"] content) /\
  (In (t "x") (find_unused_variables_in_function content 0 51) <->
   (exists pattern, In pattern var_patterns /\
                    In (t "x") (findall1 pattern (slice 0 51 content))) /\
   is_variable_used (t "x") (slice 0 51 content) = false).
Proof.
  intros content. split.
  - apply (proj1 (proj2 (usage_verdict_independent (t "x") content))).
    apply perm_swap.
  - exact (proj2 (proj2 (usage_verdict_independent (t "x") (slice 0 51 content)))
                 content 0 51 eq_refl).
Defined.

(** ** Destructuring members *)

Lemma word_not_space (c : ascii) : is_word c = true -> is_space c = false.
Proof.
  destruct c as [[] [] [] [] [] [] [] []]; vm_compute; congruence.
Qed.




Lemma lstrip_spaces (a b : text) :
  forallb is_space a = true -> lstrip (a ++ b) = lstrip b.
Proof.
  induction a as [|c a IH]; simpl; intros H; [reflexivity|].
  apply andb_true_iff in H as [Hc H]. rewrite Hc. now apply IH.
Qed.


Lemma forallb_rev (A : Type) (f : A -> bool) (l : list A) :
  forallb f (rev l) = forallb f l.
Proof.
  induction l as [|x l IH]; simpl; [reflexivity|].
  rewrite forallb_app, IH. simpl. rewrite andb_true_r. apply andb_comm.
Qed.



Lemma is_variable_used_twice (name scope : text) :
  is_identifier name = true ->
  (is_variable_used name scope = true <-> 2 <= whole_word_count name None scope).
Proof.
  intros Hid. unfold is_variable_used, usage_count.
  rewrite usage_matches_whole_word by assumption.
  rewrite Z.gtb_ltb, Z.ltb_lt. lia.
Qed.

(** ** The destructuring rewrite *)

Lemma join_member (sep var : text) (l : list text) :
  In var l -> exists pre post, join sep l = pre ++ var ++ post.
Proof.
  induction l as [|x l IH]; intros H; [destruct H|].
  destruct H as [->|H].
  - destruct l as [|y l].
    + exists [], []. simpl. now rewrite app_nil_r.
    + exists [], (sep ++ join sep (y :: l)). reflexivity.
  - destruct (IH H) as (pre & post & E).
    destruct l as [|y l]; [destruct H|].
    exists (x ++ sep ++ pre), post.
    change (join sep (x :: y :: l)) with (x ++ sep ++ join sep (y :: l)).
    rewrite E. now rewrite <- !app_assoc.
Qed.


(** ** Live bindings *)

(** C2 (as stated) fails: [y] is used, yet its declaration goes away with
    the line it shares with the dead declaration of [x]. *)
Lemma live_binding_removed_example :
  let content := t "const x = 1; const y = 2;" ++ nl :: t "use(y);" in
  is_variable_used (t "y") content = true /\
  remove_unused_variables content = t "use(y);" /\
  contains (t "const y") (remove_unused_variables content) = false.
Proof.
  vm_compute. repeat split.
Qed.

(** ** Applying the edits *)

Lemma finditer_from_starts (re : regex) (s : text) :
  forall skip pos prev,
    Forall (fun m => pos <= m_start m) (finditer_from re skip pos prev s).
Proof.
  induction s as [|c s IH]; intros skip pos prev; simpl.
  - destruct skip; [|constructor].
    destruct (match_here re prev []) as [[g rest]|]; repeat constructor.
  - assert (Hs : forall k p, Forall (fun m => pos <= m_start m)
                                    (finditer_from re k (S pos) p s)).
    { intros k p. eapply Forall_impl; [|apply IH]. simpl. intros; lia. }
    destruct skip; [|apply Hs].
    destruct (match_here re prev (c :: s)) as [[g rest]|]; [|apply Hs].
    constructor; [simpl; lia|apply Hs].
Qed.

Lemma finditer_from_sorted (re : regex) (s : text) :
  forall skip pos prev,
    StronglySorted lt (map m_start (finditer_from re skip pos prev s)).
Proof.
  induction s as [|c s IH]; intros skip pos prev; simpl.
  - destruct skip; [|constructor].
    destruct (match_here re prev []) as [[g rest]|]; repeat constructor.
  - destruct skip; [|apply IH].
    destruct (match_here re prev (c :: s)) as [[g rest]|]; [|apply IH].
    simpl. constructor; [apply IH|].
    apply Forall_map. eapply Forall_impl; [|apply finditer_from_starts].
    simpl. intros; lia.
Qed.

Lemma splice_frame (start stop : nat) (replacement s : text) :
  start <= length s ->
  firstn start (splice start stop replacement s) = firstn start s /\
  firstn (length replacement) (skipn start (splice start stop replacement s))
  = replacement /\
  skipn (start + length replacement) (splice start stop replacement s)
  = skipn stop s.
Proof.
  intros H. unfold splice.
  assert (Hl : length (firstn start s) = start) by (rewrite length_firstn; lia).
  repeat split.
  - rewrite firstn_app, Hl, Nat.sub_diag. simpl. rewrite app_nil_r.
    rewrite <- Hl at 1. apply firstn_all.
  - rewrite skipn_app, Hl, Nat.sub_diag. simpl.
    rewrite <- Hl at 1. rewrite skipn_all. simpl.
    rewrite firstn_app, Nat.sub_diag. simpl. rewrite app_nil_r. apply firstn_all.
  - replace (start + length replacement)
      with (length (firstn start s ++ replacement))
      by (rewrite length_app, Hl; reflexivity).
    rewrite app_assoc, skipn_app, Nat.sub_diag, skipn_all. reflexivity.
Qed.

Lemma rfind_char_lt (c : ascii) (s : text) (i : nat) :
  rfind_char c s = Some i -> i < length s.
Proof.
  revert i; induction s as [|x s IH]; simpl; intros i H; [discriminate|].
  destruct (rfind_char c s) as [j|].
  - inversion H; subst. specialize (IH j eq_refl). lia.
  - destruct (Ascii.eqb x c); inversion H; lia.
Qed.

(** C3: the loop means to replace each declaration where it stands, but
    the offsets of the second declaration were taken before the first edit
    shortened the buffer, so the second edit lands three characters to the
    right of its span: text outside the two edited ranges is overwritten
    and part of the old declaration is left behind.  Applying the same two
    edits from the last one to the first gives the intended text. *)
Lemma edit_offsets_drift_example :
  let content := t "const { a, b } = f(); use(a);" ++ nl ::
                 t "const { c, d } = g(); use(c);" in
  planned_destructuring_edits content
  = [(0, 16, t "const { a } ="); (30, 46, t "const { c } =")] /\
  apply_edits_descending (planned_destructuring_edits content) content
  = t "const { a } = f(); use(a);" ++ nl :: t "const { c } = g(); use(c);" /\
  remove_unused_destructuring content
  = t "const { a } = f(); use(a);" ++ nl :: t "conconst { c } =); use(c);" /\
  remove_unused_destructuring content
  <> apply_edits_descending (planned_destructuring_edits content) content.
Proof.
  vm_compute. repeat split. discriminate.
Qed.

(** ** Running the transformation again *)

Lemma fold_left_fixed (A B : Type) (f : A -> B -> A) (l : list B) (a : A) :
  (forall b, In b l -> f a b = a) -> fold_left f l a = a.
Proof.
  induction l as [|b l IH]; simpl; intros H; [reflexivity|].
  rewrite (H b) by now left. apply IH. intros; apply H. now right.
Qed.

Lemma sub_from_no_match (re : regex) (tpl : template) (s : text) :
  forall pos prev,
    finditer_from re 0 pos prev s = [] -> sub_from re tpl 0 prev s = s.
Proof.
  induction s as [|c s IH]; intros pos prev H; simpl in *.
  - destruct (match_here re prev []) as [[g rest]|]; [discriminate|reflexivity].
  - destruct (match_here re prev (c :: s)) as [[g rest]|]; [discriminate|].
    f_equal. eapply IH; eauto.
Qed.

Lemma remove_unused_variables_settled (y : text) :
  no_dead_member y = true -> no_dead_declaration y = true ->
  remove_unused_variables y = y.
Proof.
  intros Hm Hd. unfold remove_unused_variables.
  assert (E : remove_unused_destructuring y = y).
  { unfold remove_unused_destructuring. apply fold_left_fixed. intros m Hin.
    unfold no_dead_member in Hm. rewrite forallb_forall in Hm.
    specialize (Hm m Hin). cbv zeta in Hm. apply negb_true_iff in Hm.
    unfold destructuring_step. now rewrite Hm. }
  rewrite E. unfold remove_unused_simple. apply fold_left_fixed. intros m Hin.
  unfold no_dead_declaration in Hd. rewrite forallb_forall in Hd.
  unfold simple_step. now rewrite (Hd m Hin).
Qed.

Lemma replace_console_statements_settled (y : text) :
  no_console_match y = true -> fst (replace_console_statements y) = y.
Proof.
  intros H. unfold replace_console_statements. cbn [fst].
  apply fold_left_fixed. intros r Hin.
  unfold no_console_match in H. rewrite forallb_forall in H.
  specialize (H r Hin). unfold apply_rule, re_sub.
  apply sub_from_no_match with (pos := 0).
  unfold finditer in H. now destruct (finditer_from (fst r) 0 0 None y).
Qed.

(** C4 (as amended): a second run changes nothing when the output of the
    first run has no candidate left: no destructuring member and no simple
    declaration judged unused for the cleaner, no text matched by one of
    the ten patterns for the migrator. *)
Theorem second_run_identity_when_settled (x : text) :
  (no_dead_member (remove_unused_variables x) = true ->
   no_dead_declaration (remove_unused_variables x) = true ->
   remove_unused_variables (remove_unused_variables x)
   = remove_unused_variables x) /\
  (no_console_match (fst (replace_console_statements x)) = true ->
   fst (replace_console_statements (fst (replace_console_statements x)))
   = fst (replace_console_statements x)).
Proof.
  split.
  - apply remove_unused_variables_settled.
  - apply replace_console_statements_settled.
Qed.

Lemma second_run_identity_when_settled_witness :
  let x := t "const { a, b } = getThing(); use(a);" in
  let x' := t "console.error('failed', err)" in
  remove_unused_variables (remove_unused_variables x) = remove_unused_variables x /\
  fst (replace_console_statements (fst (replace_console_statements x')))
  = fst (replace_console_statements x').
Proof.
  intros x x'. split.
  - apply (proj1 (second_run_identity_when_settled x)); reflexivity.
  - apply (proj2 (second_run_identity_when_settled x')); reflexivity.
Defined.

(** C4 (as stated) fails for both engines.  Removing the dead declaration
    of [y] leaves [x] with one occurrence, so that a second run removes it
    too; and the object wrapper that the first run of the migrator puts
    around an argument completes a call that its first pattern matches in
    the second run. *)
Lemma not_idempotent_example :
  let x := t "const x = 1;" ++ nl :: t "const y = x;" ++ [nl] in
  let x' := t "console.log('m', console.error('e',))" in
  remove_unused_variables x = t "const x = 1;" ++ [nl] /\
  remove_unused_variables (remove_unused_variables x) = [] /\
  remove_unused_variables (remove_unused_variables x) <> remove_unused_variables x /\
  fst (replace_console_statements (fst (replace_console_statements x')))
  <> fst (replace_console_statements x').
Proof.
  vm_compute. repeat split; discriminate.
Qed.

(** ** The logger import *)

Lemma slice_to_from (k : Z) (s : text) : slice_to k s ++ slice_from k s = s.
Proof. unfold slice_to, slice_from. apply firstn_skipn. Qed.

(** The guard text cannot begin inside the inserted line, nor end in it. *)
Lemma guard_not_in_import (rest : text) :
  contains import_guard (logger_import ++ nl :: rest) = contains import_guard rest.
Proof. reflexivity. Qed.

Lemma guard_suffix_not_import (rest : text) (k : nat) :
  k < length import_guard ->
  strip_prefix (skipn k import_guard) (logger_import ++ nl :: rest) = None.
Proof.
  intros Hk. do 20 (destruct k as [|k]; [reflexivity|]).
  simpl in Hk. lia.
Qed.

Lemma strip_prefix_insert (X rest : text) :
  forall n a,
    (forall k, k < length n -> strip_prefix (skipn k n) X = None) ->
    strip_prefix n (a ++ rest) = None ->
    strip_prefix n (a ++ X) = None.
Proof.
  intros n a; revert n; induction a as [|c a IH]; intros n Hn H.
  - destruct n as [|x n]; [discriminate|].
    apply (Hn 0). simpl. lia.
  - destruct n as [|x n]; [discriminate|].
    simpl in *. destruct (Ascii.eqb x c); [|reflexivity].
    apply IH; [|assumption].
    intros k Hk. apply (Hn (S k)). lia.
Qed.

Lemma guard_absent_after_insert (pre rest : text) :
  contains import_guard (pre ++ rest) = false ->
  contains import_guard (pre ++ logger_import ++ nl :: rest) = false.
Proof.
  induction pre as [|c pre IH]; intros H.
  - cbn [app] in *. now rewrite guard_not_in_import.
  - change ((c :: pre) ++ rest) with (c :: (pre ++ rest)) in H.
    change ((c :: pre) ++ logger_import ++ nl :: rest)
      with (c :: pre ++ logger_import ++ nl :: rest).
    unfold contains in H |- *; fold contains in H |- *.
    destruct (strip_prefix import_guard (c :: pre ++ rest)) eqn:E; [discriminate|].
    change (c :: pre ++ rest) with ((c :: pre) ++ rest) in E.
    apply (strip_prefix_insert (logger_import ++ nl :: rest)) in E.
    + change ((c :: pre) ++ logger_import ++ nl :: rest)
        with (c :: pre ++ logger_import ++ nl :: rest) in E.
      rewrite E. now apply IH.
    + intros k Hk. now apply guard_suffix_not_import.
Qed.

(** C9: when the text [import.*logger.*from] does not occur literally in
    the content, [add_logger_import] reports a change and its result is the
    content with the line [import { logger } from './logging';] inserted,
    whether or not the content already has that line; the guard text is
    absent from the result as well, so that processing the result again
    inserts the line once more. *)
Theorem add_logger_import_always_inserts (content : text) :
  contains import_guard content = false ->
  snd (add_logger_import content) = true /\
  (exists pre post sep,
      content = pre ++ post /\ (sep = [nl] \/ sep = [nl; nl]) /\
      fst (add_logger_import content) = pre ++ logger_import ++ sep ++ post) /\
  contains import_guard (fst (add_logger_import content)) = false /\
  snd (add_logger_import (fst (add_logger_import content))) = true.
Proof.
  intros H.
  assert (Hmain :
    snd (add_logger_import content) = true /\
    (exists pre post sep,
      content = pre ++ post /\ (sep = [nl] \/ sep = [nl; nl]) /\
      fst (add_logger_import content) = pre ++ logger_import ++ sep ++ post) /\
    contains import_guard (fst (add_logger_import content)) = false).
  { unfold add_logger_import. rewrite H.
    destruct (rev (findall1 import_pattern content)) as [|last_import l].
    - cbn [fst snd]. repeat split.
      + exists [], content, [nl; nl]. auto.
      + apply (guard_absent_after_insert [] (nl :: content)). exact H.
    - cbn [fst snd].
      set (k := (rfind last_import content + Z.of_nat (length last_import))%Z).
      repeat split.
      + exists (slice_to k content), (slice_from k content), [nl].
        rewrite slice_to_from. auto.
      + apply guard_absent_after_insert. now rewrite slice_to_from. }
  destruct Hmain as (H1 & H2 & H3). repeat split; try assumption.
  unfold add_logger_import at 1. rewrite H3.
  destruct (rev _); reflexivity.
Qed.

Lemma add_logger_import_always_inserts_witness :
  let content := t "import { logger } from './logging';" ++ nl ::
                 t "console.log('x');" in
  fst (add_logger_import content)
  = t "import { logger } from './logging';" ++ nl ::
    t "import { logger } from './logging';" ++ nl :: t "console.log('x');" /\
  snd (add_logger_import content) = true /\
  snd (add_logger_import (fst (add_logger_import content))) = true.
Proof.
  intros content.
  assert (H : contains import_guard content = false) by reflexivity.
  pose proof (add_logger_import_always_inserts content H) as (H1 & _ & _ & H4).
  split; [reflexivity|]. split; assumption.
Defined.

(** ** The rewrite rules of the migrator *)

Lemma count_q_app (a b : text) : count_q (a ++ b) = count_q a + count_q b.
Proof. unfold count_q. now rewrite filter_app, length_app. Qed.

Lemma count_q_cons (c : ascii) (s : text) :
  count_q (c :: s) = (if is_quote c then 1 else 0) + count_q s.
Proof. unfold count_q. simpl. now destruct (is_quote c). Qed.

Lemma count_q_none (s : text) :
  forallb (cls_mem not_quote) s = true -> count_q s = 0.
Proof.
  induction s as [|c s IH]; simpl; intros H; [reflexivity|].
  apply andb_true_iff in H as [Hc H]. rewrite count_q_cons, IH by assumption.
  replace (is_quote c) with false; [reflexivity|].
  symmetry. apply negb_true_iff. exact Hc.
Qed.

(** A match consumes at least as many quote characters as its pattern has
    atoms that take one. *)
Lemma match_atoms_quotes (re : regex) :
  forall g prev s g' rest,
    match_atoms re g prev s = Some (g', rest) ->
    need_quotes re + count_q rest <= count_q s.
Proof.
  induction re as [|a re IH]; intros g prev s g' rest H; simpl in H.
  - inversion H; subst. simpl. lia.
  - destruct a as [lit|p|p|p|lits|i|i|].
    + destruct (strip_prefix lit s) as [s'|] eqn:E; [|discriminate].
      apply strip_prefix_inv in E; subst s. apply IH in H.
      rewrite count_q_app. simpl need_quotes. lia.
    + destruct s as [|c s]; [discriminate|].
      destruct (cls_mem p c) eqn:Ec; [|discriminate].
      apply IH in H. rewrite count_q_cons.
      destruct p as [| | |cs|cs]; simpl need_quotes; try lia.
      destruct (nonempty cs && forallb is_quote cs) eqn:Eq; [|lia].
      apply andb_true_iff in Eq as [_ Eq].
      simpl in Ec. unfold in_text in Ec. apply existsb_exists in Ec as (x & Hx & Hcx).
      apply Ascii.eqb_eq in Hcx; subst x.
      rewrite forallb_forall in Eq. rewrite (Eq c Hx). lia.
    + apply star_loop_some_inv in H as (x & b & -> & _ & Hk).
      apply IH in Hk. rewrite count_q_app. simpl need_quotes. lia.
    + destruct s as [|c s]; [discriminate|].
      destruct (cls_mem p c); [|discriminate].
      apply star_loop_some_inv in H as (x & b & -> & _ & Hk).
      apply IH in Hk. rewrite count_q_cons, count_q_app. simpl need_quotes. lia.
    + simpl need_quotes. revert H.
      induction lits as [|lit lits IHl]; simpl; [discriminate|].
      destruct (strip_prefix lit s) as [s'|] eqn:E; [|exact IHl].
      destruct (match_atoms re g (last_char lit prev) s') as [[g1 r1]|] eqn:E1;
        [|exact IHl].
      intros H; inversion H; subst g1 r1.
      apply strip_prefix_inv in E; subst s. apply IH in E1.
      rewrite count_q_app. lia.
    + apply IH in H. simpl need_quotes. lia.
    + apply IH in H. simpl need_quotes. lia.
    + destruct (at_boundary prev s); [|discriminate].
      apply IH in H. simpl need_quotes. lia.
Qed.

(** Every rule begins with the text [console.] and takes two quotes. *)
Lemma rule_head (r : regex * template) :
  In r rules ->
  exists callee tail,
    fst r = Str (t "console." ++ callee) :: tail /\ 2 <= need_quotes (fst r).
Proof.
  intros H. unfold rules in H.
  repeat (destruct H as [<-|H];
          [do 2 eexists; split; [reflexivity|vm_compute; lia]|]).
  destruct H.
Qed.

Lemma rule_no_match (r : regex * template) (prev : option ascii) (s : text) :
  In r rules ->
  negb (starts (t "console.") s) || (count_q s <? 2) = true ->
  match_here (fst r) prev s = None.
Proof.
  intros Hr Hq. destruct (@rule_head r Hr) as (callee & tail & E & Hn).
  destruct (match_here (fst r) prev s) as [[g rest]|] eqn:Em; [|reflexivity].
  exfalso. unfold match_here in Em.
  pose proof Em as Hc. apply match_atoms_quotes in Hc.
  rewrite E in Em. cbn [match_atoms] in Em.
  destruct (strip_prefix (t "console." ++ callee) s) as [s'|] eqn:Es; [|discriminate].
  apply strip_prefix_inv in Es. subst s.
  apply orb_true_iff in Hq as [Hq|Hq].
  - unfold starts in Hq. rewrite <- app_assoc, strip_prefix_app in Hq. discriminate.
  - apply Nat.ltb_lt in Hq. lia.
Qed.

Lemma rule_no_empty_match (r : regex * template) (prev : option ascii) :
  In r rules -> match_here (fst r) prev [] = None.
Proof. intros Hr. now apply rule_no_match. Qed.

(** No rule changes a quiet buffer. *)
Lemma sub_from_quiet (r : regex * template) (s : text) :
  In r rules -> quiet s = true ->
  forall prev, sub_from (fst r) (snd r) 0 prev s = s.
Proof.
  intros Hr. induction s as [|c s IH]; intros Hq prev.
  - simpl. now rewrite rule_no_empty_match.
  - simpl in Hq. apply andb_true_iff in Hq as [Hh Hq].
    simpl. rewrite rule_no_match by assumption. f_equal. now apply IH.
Qed.

Lemma rules_quiet (rs : list (regex * template)) (s : text) :
  incl rs rules -> quiet s = true -> fold_left apply_rule rs s = s.
Proof.
  intros Hi Hq. apply fold_left_fixed. intros r Hr.
  unfold apply_rule, re_sub. apply sub_from_quiet; auto.
Qed.

Lemma quiet_few_quotes (s : text) : count_q s < 2 -> quiet s = true.
Proof.
  induction s as [|c s IH]; intros H; simpl.
  - reflexivity.
  - rewrite count_q_cons in H.
    apply andb_true_iff. split.
    + apply orb_true_iff. right. apply Nat.ltb_lt. rewrite count_q_cons. lia.
    + apply IH. lia.
Qed.

Lemma sub_from_skip_all (re : regex) (tpl : template) :
  (forall prev, match_here re prev [] = None) ->
  forall s prev, sub_from re tpl (length s) prev s = [].
Proof.
  intros H. induction s as [|c s IH]; intros prev; simpl.
  - now rewrite H.
  - apply IH.
Qed.

(** A match that takes the whole buffer rewrites it to the expansion of the
    template. *)
Lemma re_sub_whole (r : regex * template) (g : caps) (s : text) :
  In r rules ->
  match_here (fst r) None s = Some (g, []) ->
  apply_rule s r = expand (snd r) g.
Proof.
  intros Hr Hm. unfold apply_rule, re_sub.
  destruct s as [|c s].
  - rewrite rule_no_empty_match in Hm by assumption. discriminate.
  - simpl. rewrite Hm. simpl.
    rewrite sub_from_skip_all by (intros; now apply rule_no_empty_match).
    apply app_nil_r.
Qed.

(** A rule that does not match at the start of a buffer whose rest is quiet
    leaves the buffer as it is. *)
Lemma re_sub_quiet_tail (r : regex * template) (c : ascii) (s : text) :
  In r rules ->
  match_here (fst r) None (c :: s) = None ->
  quiet s = true ->
  apply_rule (c :: s) r = c :: s.
Proof.
  intros Hr Hm Hq. unfold apply_rule, re_sub. simpl. rewrite Hm.
  f_equal. now apply sub_from_quiet.
Qed.

(** ** Matching one call *)

Lemma quote_cases (q : ascii) : is_quote q = true -> q = dq \/ q = sq.
Proof.
  unfold is_quote, in_text. simpl. intros H.
  apply orb_true_iff in H as [H|H].
  - left. now apply Ascii.eqb_eq.
  - apply orb_true_iff in H as [H|H]; [|discriminate]. right. now apply Ascii.eqb_eq.
Qed.

Lemma call_head_match (callee : text) (tail : regex) (g : caps)
      (prev : option ascii) (q : ascii) (rest : text) :
  is_quote q = true ->
  match_atoms (call_head callee ++ tail) g prev
              ((t "console." ++ callee) ++ t "(" ++ q :: rest)
  = match_atoms tail g (Some q) rest.
Proof.
  intros Hq. unfold call_head. cbn [app match_atoms].
  rewrite strip_prefix_app.
  destruct (quote_cases _ Hq) as [-> | ->]; reflexivity.
Qed.

Lemma firstn_app_exact (A : Type) (a b : list A) :
  firstn (length (a ++ b) - length b) (a ++ b) = a.
Proof.
  rewrite length_app, Nat.add_sub, firstn_app, Nat.sub_diag, firstn_all.
  simpl. apply app_nil_r.
Qed.

Lemma group_close_open (i : nat) (a b : text) (g : caps) :
  group i (close_group i b (open_group i (a ++ b) g)) = a.
Proof.
  unfold group, close_group, open_group. cbn [opened groups assoc].
  rewrite Nat.eqb_refl. cbn [opened groups assoc]. rewrite Nat.eqb_refl.
  apply firstn_app_exact.
Qed.

Lemma group_close_other (i j : nat) (s b : text) (g : caps) :
  Nat.eqb i j = false ->
  group i (close_group j b (open_group j s g)) = group i g.
Proof.
  intros H. unfold group, close_group, open_group. cbn [opened groups assoc].
  rewrite Nat.eqb_refl. cbn [opened groups assoc]. now rewrite H.
Qed.

Section Steps.
Variables (re : regex) (g : caps) (prev : option ascii).

Lemma match_Str (lit s : text) :
  match_atoms (Str lit :: re) g prev (lit ++ s)
  = match_atoms re g (last_char lit prev) s.
Proof. cbn [match_atoms]. now rewrite strip_prefix_app. Qed.

Lemma match_Set (p : cls) (c : ascii) (s : text) :
  cls_mem p c = true ->
  match_atoms (Set_ p :: re) g prev (c :: s) = match_atoms re g (Some c) s.
Proof. intros H. cbn [match_atoms]. now rewrite H. Qed.

Lemma match_Star_skip (p : cls) (s : text) :
  stops p s = true ->
  match_atoms (Star p :: re) g prev s = match_atoms re g prev s.
Proof. intros H. cbn [match_atoms]. now apply star_loop_stop. Qed.

Lemma match_Star_greedy (p : cls) (xs tl : text) (r : caps * text) :
  forallb (cls_mem p) xs = true -> stops p tl = true ->
  match_atoms re g (last_char xs prev) tl = Some r ->
  match_atoms (Star p :: re) g prev (xs ++ tl) = Some r.
Proof. intros. cbn [match_atoms]. now apply star_loop_greedy. Qed.

Lemma match_Plus_greedy (p : cls) (c : ascii) (xs tl : text) (r : caps * text) :
  forallb (cls_mem p) (c :: xs) = true -> stops p tl = true ->
  match_atoms re g (last_char (c :: xs) prev) tl = Some r ->
  match_atoms (Plus p :: re) g prev ((c :: xs) ++ tl) = Some r.
Proof.
  intros H Hs Hk. cbn [match_atoms app].
  cbn [forallb] in H. apply andb_true_iff in H as [Hc H]. rewrite Hc.
  rewrite last_char_cons in Hk. now apply star_loop_greedy.
Qed.

Lemma match_Open (i : nat) (s : text) :
  match_atoms (Open i :: re) g prev s = match_atoms re (open_group i s g) prev s.
Proof. reflexivity. Qed.

Lemma match_Close (i : nat) (s : text) :
  match_atoms (Close i :: re) g prev s = match_atoms re (close_group i s g) prev s.
Proof. reflexivity. Qed.

End Steps.

Lemma match_Str_end (g : caps) (prev : option ascii) (lit : text) :
  match_atoms [Str lit] g prev lit = Some (g, []).
Proof.
  rewrite <- (app_nil_r lit) at 2. now rewrite match_Str.
Qed.

Lemma quote_not_space (q : ascii) : is_quote q = true -> is_space q = false.
Proof. intros H. destruct (quote_cases _ H) as [-> | ->]; reflexivity. Qed.

Lemma stops_not_quote (q : ascii) (s : text) :
  is_quote q = true -> stops not_quote (q :: s) = true.
Proof. intros H. destruct (quote_cases _ H) as [-> | ->]; reflexivity. Qed.

Lemma one_arg_match (callee : text) (q : ascii) (msg : text) (prev : option ascii) :
  is_quote q = true ->
  forallb (cls_mem not_quote) msg = true ->
  match_here (one_arg_pattern callee) prev (one_arg_call callee q msg)
  = Some (close_group 1 (q :: t ")") (open_group 1 (msg ++ q :: t ")") no_caps), []).
Proof.
  intros Hq Hm. unfold match_here, one_arg_pattern, one_arg_call.
  rewrite call_head_match by assumption.
  rewrite match_Open. apply match_Star_greedy; [assumption|now apply stops_not_quote|].
  rewrite match_Close, match_Set by exact Hq.
  rewrite match_Star_skip by reflexivity. apply match_Str_end.
Qed.

Lemma two_arg_match (callee : text) (q : ascii) (msg arg : text) (prev : option ascii) :
  is_quote q = true ->
  forallb (cls_mem not_quote) msg = true ->
  plain_argument arg = true ->
  match_here (two_arg_pattern callee) prev (two_arg_call callee q msg arg)
  = Some (close_group 2 (t ")")
            (open_group 2 (arg ++ t ")")
               (close_group 1 (q :: t ", " ++ arg ++ t ")")
                  (open_group 1 (msg ++ q :: t ", " ++ arg ++ t ")") no_caps))), []).
Proof.
  intros Hq Hm Ha. unfold match_here, two_arg_pattern, two_arg_call.
  rewrite call_head_match by assumption.
  unfold plain_argument in Ha. apply andb_true_iff in Ha as [Ha Hs].
  apply andb_true_iff in Ha as [Hp Hnq].
  destruct arg as [|c arg]; [discriminate|].
  rewrite match_Open. apply match_Star_greedy; [assumption|now apply stops_not_quote|].
  rewrite match_Close, match_Set by exact Hq.
  rewrite match_Star_skip by reflexivity.
  change (t ", " ++ (c :: arg) ++ t ")") with (t "," ++ t " " ++ (c :: arg) ++ t ")").
  rewrite match_Str.
  apply match_Star_greedy; [reflexivity|exact Hs|].
  rewrite match_Open.
  apply match_Plus_greedy; [assumption|reflexivity|].
  rewrite match_Close. apply match_Str_end.
Qed.

Lemma match_Star_exact (re : regex) (g : caps) (prev : option ascii)
      (p : cls) (xs tl : text) :
  forallb (cls_mem p) xs = true -> stops p tl = true ->
  (forall prev' c s', cls_mem p c = true -> match_atoms re g prev' (c :: s') = None) ->
  match_atoms (Star p :: re) g prev (xs ++ tl)
  = match_atoms re g (last_char xs prev) tl.
Proof.
  intros Hp Hs Hd. cbn [match_atoms].
  destruct (match_atoms re g (last_char xs prev) tl) as [r|] eqn:E.
  - now apply star_loop_greedy.
  - apply star_loop_none; try assumption.
    intros a b Hab. destruct b as [|c b].
    + rewrite app_nil_r in Hab. subst a. exact E.
    + apply Hd. subst xs. rewrite forallb_app in Hp.
      apply andb_true_iff in Hp as [_ Hp]. cbn [forallb] in Hp.
      now apply andb_true_iff in Hp as [Hp _].
Qed.

Lemma match_Star_none (re : regex) (g : caps) (prev : option ascii)
      (p : cls) (xs tl : text) :
  forallb (cls_mem p) xs = true -> stops p tl = true ->
  (forall a b, xs = a ++ b -> match_atoms re g (last_char a prev) (b ++ tl) = None) ->
  match_atoms (Star p :: re) g prev (xs ++ tl) = None.
Proof. intros. cbn [match_atoms]. now apply star_loop_none. Qed.

Lemma match_Star_agree (re : regex) (g : caps) (prev : option ascii)
      (p : cls) (xs tl : text) (r : caps * text) :
  forallb (cls_mem p) xs = true -> stops p tl = true ->
  (forall a b r', xs = a ++ b ->
                  match_atoms re g (last_char a prev) (b ++ tl) = Some r' -> r' = r) ->
  (exists a b, xs = a ++ b /\ match_atoms re g (last_char a prev) (b ++ tl) = Some r) ->
  match_atoms (Star p :: re) g prev (xs ++ tl) = Some r.
Proof. intros. cbn [match_atoms]. now apply star_loop_agree. Qed.

Lemma match_Star_some (re : regex) (g : caps) (prev : option ascii)
      (p : cls) (xs tl : text) (a b : text) (r : caps * text) :
  forallb (cls_mem p) xs = true ->
  xs = a ++ b -> match_atoms re g (last_char a prev) (b ++ tl) = Some r ->
  match_atoms (Star p :: re) g prev (xs ++ tl) <> None.
Proof.
  intros Hp Hab Hk Hn. cbn [match_atoms] in Hn.
  pose proof (@star_loop_none_inv _ p (match_atoms re g) prev xs tl Hp Hn a b Hab) as E.
  rewrite E in Hk. discriminate.
Qed.

Lemma match_Alt_inv (re : regex) (g : caps) (prev : option ascii)
      (lits : list text) (s : text) (r : caps * text) :
  match_atoms (Alt lits :: re) g prev s = Some r ->
  exists lit s', In lit lits /\ strip_prefix lit s = Some s' /\
                 match_atoms re g (last_char lit prev) s' = Some r.
Proof.
  cbn [match_atoms]. induction lits as [|lit lits IH]; cbn [alt_loop]; [discriminate|].
  destruct (strip_prefix lit s) as [s'|] eqn:E.
  - destruct (match_atoms re g (last_char lit prev) s') as [r'|] eqn:E'.
    + intros H; inversion H; subst r'. exists lit, s'. repeat split; auto. now left.
    + intros H. destruct (IH H) as (l & s0 & Hin & H1 & H2).
      exists l, s0. repeat split; auto. now right.
  - intros H. destruct (IH H) as (l & s0 & Hin & H1 & H2).
    exists l, s0. repeat split; auto. now right.
Qed.

Lemma match_Alt_some (re : regex) (g : caps) (prev : option ascii)
      (lits : list text) (s : text) (r : caps * text) :
  (forall lit s', In lit lits -> strip_prefix lit s = Some s' ->
                  match_atoms re g (last_char lit prev) s' = Some r) ->
  (exists lit, In lit lits /\ strip_prefix lit s <> None) ->
  match_atoms (Alt lits :: re) g prev s = Some r.
Proof.
  cbn [match_atoms]. induction lits as [|lit lits IH]; cbn [alt_loop];
    intros Hall (l & Hin & Hl); [destruct Hin|].
  destruct (strip_prefix lit s) as [s'|] eqn:E.
  - rewrite (Hall lit s') by (auto; now left). reflexivity.
  - apply IH.
    + intros l0 s0 H0 H1. apply Hall; auto. now right.
    + destruct Hin as [->|Hin]; [congruence|]. now exists l.
Qed.

Lemma strip_prefix_before (lit b tl s' : text) (q : ascii) :
  in_text q lit = false ->
  strip_prefix lit (b ++ q :: tl) = Some s' ->
  exists b', b = lit ++ b' /\ s' = b' ++ q :: tl.
Proof.
  revert b; induction lit as [|x lit IH]; intros b Hq H.
  - exists b. simpl in H. inversion H. auto.
  - cbn [in_text existsb] in Hq. apply orb_false_iff in Hq as [Hx Hq].
    destruct b as [|c b]; cbn [app strip_prefix] in H.
    + rewrite Ascii.eqb_sym, Hx in H. discriminate.
    + destruct (Ascii.eqb x c) eqn:E; [|discriminate].
      apply Ascii.eqb_eq in E; subst c.
      destruct (IH b Hq H) as (b' & -> & ->). now exists b'.
Qed.

Lemma not_quote_is (c : ascii) :
  cls_mem not_quote c = true -> cls_mem quote c = false.
Proof. cbn [cls_mem not_quote quote]. apply negb_true_iff. Qed.

Lemma forallb_app_r (A : Type) (f : A -> bool) (a b : list A) :
  forallb f (a ++ b) = true -> forallb f b = true.
Proof. rewrite forallb_app. intros H. now apply andb_true_iff in H. Qed.

Lemma two_arg_no_match_one_arg (callee : text) (q : ascii) (msg : text)
      (prev : option ascii) :
  is_quote q = true ->
  forallb (cls_mem not_quote) msg = true ->
  match_here (two_arg_pattern callee) prev (one_arg_call callee q msg) = None.
Proof.
  intros Hq Hm. unfold match_here, two_arg_pattern, one_arg_call.
  rewrite call_head_match by assumption. rewrite match_Open.
  rewrite match_Star_exact; [|assumption|now apply stops_not_quote|].
  - rewrite match_Close, match_Set by exact Hq.
    rewrite match_Star_skip by reflexivity. reflexivity.
  - intros prev' c s' Hc. rewrite match_Close. cbn [match_atoms].
    now rewrite not_quote_is.
Qed.

Lemma pattern2_no_match_one_arg (q : ascii) (msg : text) (prev : option ascii) :
  is_quote q = true ->
  forallb (cls_mem not_quote) msg = true ->
  match_here pattern2 prev (one_arg_call (t "error") q msg) = None.
Proof.
  intros Hq Hm. unfold match_here, pattern2, one_arg_call.
  rewrite call_head_match by assumption. rewrite match_Open.
  apply match_Star_none; [assumption|now apply stops_not_quote|].
  intros a b Hab. rewrite match_Close. destruct b as [|c b].
  - destruct (quote_cases _ Hq) as [-> | ->]; reflexivity.
  - cbn [match_atoms t list_ascii_of_string strip_prefix app].
    destruct (Ascii.eqb ":" c); [|reflexivity].
    destruct b as [|d b]; cbn [app].
    + destruct (quote_cases _ Hq) as [-> | ->]; reflexivity.
    + subst msg. apply forallb_app_r in Hm. cbn [forallb] in Hm.
      apply andb_true_iff in Hm as [_ Hm]. apply andb_true_iff in Hm as [Hd _].
      now rewrite (not_quote_is _ Hd).
Qed.

Lemma one_arg_tail_match (g : caps) (prev : option ascii) (q : ascii) (b : text) :
  is_quote q = true ->
  forallb (cls_mem not_quote) b = true ->
  match_atoms [Star not_quote; Close 1; Set_ quote; Star Space; Str (t ")")]
              g prev (b ++ q :: t ")")
  = Some (close_group 1 (q :: t ")") g, []).
Proof.
  intros Hq Hb.
  apply match_Star_greedy; [assumption|now apply stops_not_quote|].
  rewrite match_Close, match_Set by exact Hq.
  rewrite match_Star_skip by reflexivity. apply match_Str_end.
Qed.

Lemma keyword_no_quote (q : ascii) (kw : text) :
  is_quote q = true -> In kw keywords ->
  in_text q kw = false /\ forallb (cls_mem not_quote) kw = true.
Proof.
  intros Hq Hk. unfold keywords in Hk.
  destruct (quote_cases _ Hq) as [-> | ->];
    repeat (destruct Hk as [<-|Hk]; [split; reflexivity|]); destruct Hk.
Qed.

Lemma keyword_match (q : ascii) (pre kw post : text) (prev : option ascii) :
  is_quote q = true -> In kw keywords ->
  forallb (cls_mem not_quote) pre = true ->
  forallb (cls_mem not_quote) post = true ->
  match_here pattern6 prev (one_arg_call (t "log") q (pre ++ kw ++ post))
  = Some (close_group 1 (q :: t ")")
            (open_group 1 ((pre ++ kw ++ post) ++ q :: t ")") no_caps), []).
Proof.
  intros Hq Hk Hpre Hpost. unfold match_here, pattern6, one_arg_call.
  rewrite call_head_match by assumption. rewrite match_Open.
  destruct (keyword_no_quote _ Hq Hk) as [Hin Hkw].
  assert (Hall : forallb (cls_mem not_quote) (pre ++ kw ++ post) = true).
  { rewrite !forallb_app, Hpre, Hkw, Hpost. reflexivity. }
  set (g := open_group 1 ((pre ++ kw ++ post) ++ q :: t ")") no_caps).
  assert (Htail : forall b lit s' p',
             forallb (cls_mem not_quote) b = true -> In lit keywords ->
             strip_prefix lit (b ++ q :: t ")") = Some s' ->
             match_atoms [Star not_quote; Close 1; Set_ quote; Star Space; Str (t ")")]
                         g p' s'
             = Some (close_group 1 (q :: t ")") g, [])).
  { intros b lit s' p' Hb Hl Hs.
    destruct (keyword_no_quote _ Hq Hl) as [Hin' _].
    destruct (@strip_prefix_before lit b (t ")") s' q Hin' Hs) as (b' & -> & ->).
    apply one_arg_tail_match; [assumption|].
    apply forallb_app_r in Hb. exact Hb. }
  apply match_Star_agree; [assumption|now apply stops_not_quote| |].
  - intros a b r' Hab Hm.
    apply match_Alt_inv in Hm as (lit & s' & Hl & Hs & Hm).
    rewrite (Htail b lit s' _) in Hm; auto.
    + now inversion Hm.
    + rewrite Hab in Hall. now apply forallb_app_r in Hall.
  - exists pre, (kw ++ post). split; [reflexivity|].
    apply match_Alt_some.
    + intros lit s' Hl Hs. apply (Htail (kw ++ post) lit s'); auto.
      now apply forallb_app_r in Hall.
    + exists kw. split; [assumption|].
      rewrite <- app_assoc, strip_prefix_app. discriminate.
Qed.

(** ** Whole calls through the ten rules *)

Lemma quiet_cons_other (c : ascii) (s : text) :
  Ascii.eqb "c" c = false -> quiet s = true -> quiet (c :: s) = true.
Proof.
  intros Hc Hs. cbn [quiet]. rewrite Hs, andb_true_r.
  unfold starts. cbn [t list_ascii_of_string strip_prefix]. now rewrite Hc.
Qed.

Lemma count_q_nil : count_q [] = 0.
Proof. reflexivity. Qed.

Ltac count_quotes :=
  repeat match goal with
         | |- context [count_q (?a ++ ?b)] => rewrite (count_q_app a b)
         | |- context [count_q (?c :: ?s)] => rewrite (count_q_cons c s)
         end;
  rewrite ?count_q_nil;
  repeat match goal with
         | H : forallb (cls_mem not_quote) ?s = true |- context [count_q ?s] =>
             rewrite (count_q_none s H)
         end;
  repeat match goal with
         | |- context [is_quote ?c] =>
             let v := eval vm_compute in (is_quote c) in
             change (is_quote c) with v
         end;
  cbn;
  try lia.

Ltac solve_quiet :=
  cbn [t list_ascii_of_string app tl];
  repeat (apply quiet_cons_other; [reflexivity|]);
  apply quiet_few_quotes; count_quotes.


Lemma apply_rule_quiet_tail (r : regex * template) (s : text) :
  In r rules ->
  match_here (fst r) None s = None ->
  quiet (tl s) = true ->
  apply_rule s r = s.
Proof.
  intros Hr Hm Hq. destruct s as [|c s].
  - unfold apply_rule, re_sub. simpl. now rewrite Hm.
  - now apply re_sub_quiet_tail.
Qed.

Ltac in_rules := unfold rules; repeat first [left; reflexivity | right].

Lemma fold_rules_cons (r : regex * template) (l : list (regex * template))
      (s : text) :
  fold_left apply_rule (r :: l) s = fold_left apply_rule l (apply_rule s r).
Proof. reflexivity. Qed.

Ltac step_rule := rewrite fold_rules_cons.


Lemma apply_rule_quiet (r : regex * template) (s : text) :
  In r rules -> quiet s = true -> apply_rule s r = s.
Proof. intros Hr Hq. unfold apply_rule, re_sub. now apply sub_from_quiet. Qed.

(** The rules before the one that matches do nothing, the matching rule
    rewrites the whole call, and the rules after it leave a quiet result
    alone. *)
Lemma rules_single_rewrite (before after : list (regex * template))
      (r : regex * template) (c : text) (g : caps) :
  rules = before ++ r :: after ->
  (forall r', In r' before -> match_here (fst r') None c = None) ->
  quiet (tl c) = true ->
  match_here (fst r) None c = Some (g, []) ->
  quiet (expand (snd r) g) = true ->
  fold_left apply_rule rules c = expand (snd r) g.
Proof.
  intros E Hb Hq Hm Hout.
  assert (Hin : forall r', In r' (before ++ r :: after) -> In r' rules)
    by (intros; now rewrite E).
  rewrite E, fold_left_app.
  rewrite (@fold_left_fixed _ _ apply_rule before c).
  - rewrite fold_rules_cons.
    rewrite (@re_sub_whole r g c) by (auto using in_elt).
    apply fold_left_fixed. intros r' Hr'. apply apply_rule_quiet; [|assumption].
    apply Hin. apply in_or_app. right. now right.
  - intros r' Hr'. apply apply_rule_quiet_tail; auto.
    apply Hin. apply in_or_app. now left.
Qed.

Lemma group1_two_arg (b1 s2 b2 a : text) (g : caps) :
  group 1 (close_group 2 b2 (open_group 2 s2
             (close_group 1 b1 (open_group 1 (a ++ b1) g)))) = a.
Proof.
  rewrite group_close_other by reflexivity. apply group_close_open.
Qed.

Ltac no_match_before :=
  let r' := fresh "r" in
  let H := fresh "H" in
  intros r' H; cbn [In] in H;
  repeat (destruct H as [<-|H]; [try reflexivity|]); try (destruct H).

Lemma error_one_arg_rewrite (q : ascii) (msg : text) :
  is_quote q = true ->
  forallb (cls_mem not_quote) msg = true ->
  fold_left apply_rule rules (one_arg_call (t "error") q msg)
  = t "logger.error(" ++ dq :: msg ++ dq :: t ")".
Proof.
  intros Hq Hm.
  rewrite (@rules_single_rewrite
             [(pattern1, replacement1); (pattern2, replacement2)]
             _ (pattern3, replacement3) _
             (close_group 1 (q :: t ")") (open_group 1 (msg ++ q :: t ")") no_caps))
             eq_refl).
  - cbn [snd]. unfold replacement3, one_arg_replacement. cbn [expand].
    now rewrite group_close_open.
  - no_match_before.
    + now apply two_arg_no_match_one_arg.
    + now apply pattern2_no_match_one_arg.
  - unfold one_arg_call. destruct (quote_cases _ Hq) as [-> | ->]; solve_quiet.
  - now apply one_arg_match.
  - cbn [snd]. unfold replacement3, one_arg_replacement. cbn [expand].
    rewrite group_close_open. solve_quiet.
Qed.

Lemma error_two_arg_rewrite (q : ascii) (msg arg : text) :
  is_quote q = true ->
  forallb (cls_mem not_quote) msg = true ->
  plain_argument arg = true ->
  fold_left apply_rule rules (two_arg_call (t "error") q msg arg)
  = t "logger.error(" ++ dq :: msg ++ dq :: t ", " ++ error_coercion arg ++ t ")".
Proof.
  intros Hq Hm Ha.
  pose proof Ha as Ha'. unfold plain_argument in Ha'.
  apply andb_true_iff in Ha' as [Ha' _]. apply andb_true_iff in Ha' as [_ Hnq].
  rewrite (@rules_single_rewrite
             [] _ (pattern1, replacement1) _
             (close_group 2 (t ")")
                (open_group 2 (arg ++ t ")")
                   (close_group 1 (q :: t ", " ++ arg ++ t ")")
                      (open_group 1 (msg ++ q :: t ", " ++ arg ++ t ")") no_caps))))
             eq_refl).
  - cbn [snd]. unfold replacement1. cbn [expand].
    rewrite group1_two_arg, !group_close_open.
    unfold error_coercion. now rewrite <- !app_assoc.
  - no_match_before.
  - unfold two_arg_call. destruct (quote_cases _ Hq) as [-> | ->]; solve_quiet.
  - now apply two_arg_match.
  - cbn [snd]. unfold replacement1. cbn [expand].
    rewrite group1_two_arg, !group_close_open. solve_quiet.
Qed.

Lemma contains_app_lit (lit a b : text) : contains lit (a ++ lit ++ b) = true.
Proof.
  induction a as [|c a IH].
  - cbn [app]. destruct (lit ++ b) eqn:E; unfold contains; fold contains;
      rewrite <- E, strip_prefix_app; reflexivity.
  - cbn [app]. unfold contains; fold contains.
    destruct (strip_prefix lit (c :: a ++ lit ++ b)); [reflexivity|exact IH].
Qed.

Lemma one_arg_tail_no_comma (g : caps) (prev : option ascii) (q : ascii)
      (b rest : text) :
  is_quote q = true ->
  forallb (cls_mem not_quote) b = true ->
  match_atoms [Star not_quote; Close 1; Set_ quote; Star Space; Str (t ")")]
              g prev (b ++ q :: t ", " ++ rest) = None.
Proof.
  intros Hq Hb.
  rewrite match_Star_exact; [|assumption|now apply stops_not_quote|].
  - rewrite match_Close, match_Set by exact Hq.
    rewrite match_Star_skip by reflexivity. reflexivity.
  - intros prev' c s' Hc. rewrite match_Close. cbn [match_atoms].
    now rewrite not_quote_is.
Qed.

Lemma pattern6_no_match_two_arg (q : ascii) (msg arg : text) (prev : option ascii) :
  is_quote q = true ->
  forallb (cls_mem not_quote) msg = true ->
  match_here pattern6 prev (two_arg_call (t "log") q msg arg) = None.
Proof.
  intros Hq Hm. unfold match_here, pattern6, two_arg_call.
  rewrite call_head_match by assumption. rewrite match_Open.
  apply match_Star_none; [assumption|now apply stops_not_quote|].
  intros a b Hab.
  match goal with |- ?lhs = None => destruct lhs as [r|] eqn:E end; [|reflexivity].
  exfalso. apply match_Alt_inv in E as (lit & s' & Hl & Hs & E).
  destruct (keyword_no_quote _ Hq Hl) as [Hin _].
  destruct (@strip_prefix_before lit b (t ", " ++ arg ++ t ")") s' q Hin Hs)
    as (b' & -> & ->).
  rewrite one_arg_tail_no_comma in E; [discriminate|assumption|].
  subst msg. apply forallb_app_r in Hm. now apply forallb_app_r in Hm.
Qed.

Lemma pattern6_no_match_plain (q : ascii) (msg : text) (prev : option ascii) :
  is_quote q = true ->
  forallb (cls_mem not_quote) msg = true ->
  has_keyword msg = false ->
  match_here pattern6 prev (one_arg_call (t "log") q msg) = None.
Proof.
  intros Hq Hm Hk. unfold match_here, pattern6, one_arg_call.
  rewrite call_head_match by assumption. rewrite match_Open.
  apply match_Star_none; [assumption|now apply stops_not_quote|].
  intros a b Hab.
  match goal with |- ?lhs = None => destruct lhs as [r|] eqn:E end; [|reflexivity].
  exfalso. apply match_Alt_inv in E as (lit & s' & Hl & Hs & E).
  destruct (keyword_no_quote _ Hq Hl) as [Hin _].
  destruct (@strip_prefix_before lit b (t ")") s' q Hin Hs) as (b' & -> & ->).
  unfold has_keyword in Hk.
  assert (Hc : existsb (fun kw => contains kw msg) keywords = true).
  { apply existsb_exists. exists lit. split; [assumption|].
    subst msg. apply contains_app_lit. }
  congruence.
Qed.

Lemma plain_argument_no_quote (arg : text) :
  plain_argument arg = true -> forallb (cls_mem not_quote) arg = true.
Proof.
  unfold plain_argument. intros H.
  apply andb_true_iff in H as [H _]. now apply andb_true_iff in H as [_ H].
Qed.

Ltac expand_one_arg :=
  cbn [snd];
  unfold replacement3, replacement5, replacement6, replacement8, replacement10,
    one_arg_replacement, one_arg_caps, logger_call;
  cbn [expand]; rewrite group_close_open.

Ltac expand_object :=
  cbn [snd];
  unfold replacement4, replacement7, replacement9, object_replacement,
    two_arg_caps, object_call;
  cbn [expand]; rewrite group1_two_arg, !group_close_open.

Ltac quiet_call q Hq :=
  unfold one_arg_call, two_arg_call;
  destruct (quote_cases q Hq) as [-> | ->]; solve_quiet.

Lemma warn_one_arg_rewrite (q : ascii) (msg : text) :
  is_quote q = true ->
  forallb (cls_mem not_quote) msg = true ->
  fold_left apply_rule rules (one_arg_call (t "warn") q msg)
  = logger_call (t "warn") msg.
Proof.
  intros Hq Hm.
  rewrite (@rules_single_rewrite
             [(pattern1, replacement1); (pattern2, replacement2);
              (pattern3, replacement3); (pattern4, replacement4)]
             _ (pattern5, replacement5) _ (one_arg_caps q msg) eq_refl).
  - expand_one_arg. reflexivity.
  - no_match_before. now apply two_arg_no_match_one_arg.
  - quiet_call q Hq.
  - now apply one_arg_match.
  - expand_one_arg. solve_quiet.
Qed.

Lemma info_one_arg_rewrite (q : ascii) (msg : text) :
  is_quote q = true ->
  forallb (cls_mem not_quote) msg = true ->
  fold_left apply_rule rules (one_arg_call (t "info") q msg)
  = logger_call (t "info") msg.
Proof.
  intros Hq Hm.
  rewrite (@rules_single_rewrite
             [(pattern1, replacement1); (pattern2, replacement2);
              (pattern3, replacement3); (pattern4, replacement4);
              (pattern5, replacement5); (pattern6, replacement6);
              (pattern7, replacement7); (pattern8, replacement8);
              (pattern9, replacement9)]
             _ (pattern10, replacement10) _ (one_arg_caps q msg) eq_refl).
  - expand_one_arg. reflexivity.
  - no_match_before. now apply two_arg_no_match_one_arg.
  - quiet_call q Hq.
  - now apply one_arg_match.
  - expand_one_arg. solve_quiet.
Qed.

Lemma log_keyword_rewrite (q : ascii) (pre kw post : text) :
  is_quote q = true -> In kw keywords ->
  forallb (cls_mem not_quote) pre = true ->
  forallb (cls_mem not_quote) post = true ->
  fold_left apply_rule rules (one_arg_call (t "log") q (pre ++ kw ++ post))
  = logger_call (t "info") (pre ++ kw ++ post).
Proof.
  intros Hq Hk Hpre Hpost.
  destruct (keyword_no_quote _ Hq Hk) as [_ Hkw].
  assert (Hm : forallb (cls_mem not_quote) (pre ++ kw ++ post) = true).
  { rewrite !forallb_app, Hpre, Hkw, Hpost. reflexivity. }
  rewrite (@rules_single_rewrite
             [(pattern1, replacement1); (pattern2, replacement2);
              (pattern3, replacement3); (pattern4, replacement4);
              (pattern5, replacement5)]
             _ (pattern6, replacement6) _
             (one_arg_caps q (pre ++ kw ++ post)) eq_refl).
  - expand_one_arg. reflexivity.
  - no_match_before.
  - quiet_call q Hq.
  - now apply keyword_match.
  - expand_one_arg. solve_quiet.
Qed.

Lemma log_plain_rewrite (q : ascii) (msg : text) :
  is_quote q = true ->
  forallb (cls_mem not_quote) msg = true ->
  has_keyword msg = false ->
  fold_left apply_rule rules (one_arg_call (t "log") q msg)
  = logger_call (t "debug") msg.
Proof.
  intros Hq Hm Hk.
  rewrite (@rules_single_rewrite
             [(pattern1, replacement1); (pattern2, replacement2);
              (pattern3, replacement3); (pattern4, replacement4);
              (pattern5, replacement5); (pattern6, replacement6);
              (pattern7, replacement7)]
             _ (pattern8, replacement8) _ (one_arg_caps q msg) eq_refl).
  - expand_one_arg. reflexivity.
  - no_match_before.
    + now apply pattern6_no_match_plain.
    + now apply two_arg_no_match_one_arg.
  - quiet_call q Hq.
  - now apply one_arg_match.
  - expand_one_arg. solve_quiet.
Qed.

Lemma warn_two_arg_rewrite (q : ascii) (msg arg : text) :
  is_quote q = true ->
  forallb (cls_mem not_quote) msg = true ->
  plain_argument arg = true ->
  fold_left apply_rule rules (two_arg_call (t "warn") q msg arg)
  = object_call (t "warn") msg arg.
Proof.
  intros Hq Hm Ha. pose proof (plain_argument_no_quote _ Ha) as Hnq.
  rewrite (@rules_single_rewrite
             [(pattern1, replacement1); (pattern2, replacement2);
              (pattern3, replacement3)]
             _ (pattern4, replacement4) _ (two_arg_caps q msg arg) eq_refl).
  - expand_object. reflexivity.
  - no_match_before.
  - quiet_call q Hq.
  - now apply two_arg_match.
  - expand_object. solve_quiet.
Qed.

Lemma log_two_arg_rewrite (q : ascii) (msg arg : text) :
  is_quote q = true ->
  forallb (cls_mem not_quote) msg = true ->
  plain_argument arg = true ->
  fold_left apply_rule rules (two_arg_call (t "log") q msg arg)
  = object_call (t "info") msg arg.
Proof.
  intros Hq Hm Ha. pose proof (plain_argument_no_quote _ Ha) as Hnq.
  rewrite (@rules_single_rewrite
             [(pattern1, replacement1); (pattern2, replacement2);
              (pattern3, replacement3); (pattern4, replacement4);
              (pattern5, replacement5); (pattern6, replacement6)]
             _ (pattern7, replacement7) _ (two_arg_caps q msg arg) eq_refl).
  - expand_object. reflexivity.
  - no_match_before. now apply pattern6_no_match_two_arg.
  - quiet_call q Hq.
  - now apply two_arg_match.
  - expand_object. solve_quiet.
Qed.

Lemma info_two_arg_rewrite (q : ascii) (msg arg : text) :
  is_quote q = true ->
  forallb (cls_mem not_quote) msg = true ->
  plain_argument arg = true ->
  fold_left apply_rule rules (two_arg_call (t "info") q msg arg)
  = object_call (t "info") msg arg.
Proof.
  intros Hq Hm Ha. pose proof (plain_argument_no_quote _ Ha) as Hnq.
  rewrite (@rules_single_rewrite
             [(pattern1, replacement1); (pattern2, replacement2);
              (pattern3, replacement3); (pattern4, replacement4);
              (pattern5, replacement5); (pattern6, replacement6);
              (pattern7, replacement7); (pattern8, replacement8)]
             _ (pattern9, replacement9) _ (two_arg_caps q msg arg) eq_refl).
  - expand_object. reflexivity.
  - no_match_before.
  - quiet_call q Hq.
  - now apply two_arg_match.
  - expand_object. solve_quiet.
Qed.

(** ** What [replace_console_statements] does to a call *)

Lemma contains_split (lit s : text) :
  contains lit s = true -> exists a b, s = a ++ lit ++ b.
Proof.
  induction s as [|c s IH]; unfold contains; fold contains.
  - destruct (strip_prefix lit []) as [r|] eqn:E; [|discriminate].
    intros _. apply strip_prefix_inv in E. now exists [], r.
  - destruct (strip_prefix lit (c :: s)) as [r|] eqn:E.
    + intros _. apply strip_prefix_inv in E. now exists [], r.
    + intros H. destruct (IH H) as (a & b & ->). now exists (c :: a), b.
Qed.

(** X1: a [console.error], [console.warn] or [console.info] call whose
    only argument is a string literal without quote characters inside
    becomes the [logger] call of the same name, the literal in double
    quotes whichever quotes it had. *)
Theorem one_arg_calls_rewritten (q : ascii) (msg : text) :
  is_quote q = true ->
  forallb (cls_mem not_quote) msg = true ->
  fst (replace_console_statements (one_arg_call (t "error") q msg))
  = logger_call (t "error") msg /\
  fst (replace_console_statements (one_arg_call (t "warn") q msg))
  = logger_call (t "warn") msg /\
  fst (replace_console_statements (one_arg_call (t "info") q msg))
  = logger_call (t "info") msg.
Proof.
  intros Hq Hm. unfold replace_console_statements. cbn [fst]. repeat split.
  - now apply error_one_arg_rewrite.
  - now apply warn_one_arg_rewrite.
  - now apply info_one_arg_rewrite.
Qed.

Lemma one_arg_calls_rewritten_witness :
  fst (replace_console_statements (t "console.warn('disk almost full')"))
  = t "logger.warn(" ++ dq :: t "disk almost full" ++ dq :: t ")".
Proof.
  apply (proj1 (proj2 (one_arg_calls_rewritten sq (t "disk almost full")
                                               eq_refl eq_refl))).
Defined.

(** X2: a [console.log] call with one string literal becomes [logger.info]
    when the literal holds [Start], [Complete] or [Process], and
    [logger.debug] otherwise. *)
Theorem log_call_level (q : ascii) (msg : text) :
  is_quote q = true ->
  forallb (cls_mem not_quote) msg = true ->
  fst (replace_console_statements (one_arg_call (t "log") q msg))
  = logger_call (if has_keyword msg then t "info" else t "debug") msg.
Proof.
  intros Hq Hm. unfold replace_console_statements. cbn [fst].
  destruct (has_keyword msg) eqn:Hk.
  - unfold has_keyword in Hk. apply existsb_exists in Hk as (kw & Hin & Hc).
    destruct (contains_split _ _ Hc) as (pre & post & ->).
    apply log_keyword_rewrite; try assumption.
    + rewrite forallb_app in Hm. now apply andb_true_iff in Hm.
    + apply forallb_app_r in Hm. now apply forallb_app_r in Hm.
  - now apply log_plain_rewrite.
Qed.

Lemma log_call_level_witness :
  fst (replace_console_statements (t "console.log('Processing batch')"))
  = t "logger.info(" ++ dq :: t "Processing batch" ++ dq :: t ")" /\
  fst (replace_console_statements (t "console.log('done')"))
  = t "logger.debug(" ++ dq :: t "done" ++ dq :: t ")".
Proof.
  split.
  - apply (log_call_level sq (t "Processing batch") eq_refl eq_refl).
  - apply (log_call_level sq (t "done") eq_refl eq_refl).
Defined.

(** X3: a [console.error] call with a string literal and a second argument
    that holds no closing parenthesis and no quote becomes [logger.error]
    with the second argument kept when it is an [Error] and wrapped in
    [new Error(String(...))] otherwise. *)
Theorem error_call_coerces_argument (q : ascii) (msg arg : text) :
  is_quote q = true ->
  forallb (cls_mem not_quote) msg = true ->
  plain_argument arg = true ->
  fst (replace_console_statements (two_arg_call (t "error") q msg arg))
  = t "logger.error(" ++ dq :: msg ++ dq :: t ", " ++ error_coercion arg ++ t ")".
Proof.
  intros Hq Hm Ha. unfold replace_console_statements. cbn [fst].
  now apply error_two_arg_rewrite.
Qed.

Lemma error_call_coerces_argument_witness :
  fst (replace_console_statements
         (t "console.error(" ++ dq :: t "failed" ++ dq :: t ", err)"))
  = t "logger.error(" ++ dq :: t "failed" ++ dq ::
    t ", err instanceof Error ? err : new Error(String(err)))".
Proof.
  apply (error_call_coerces_argument dq (t "failed") (t "err")
                                     eq_refl eq_refl eq_refl).
Defined.

(** X4: a [console.warn], [console.log] or [console.info] call with a
    string literal and such a second argument becomes [logger.warn],
    [logger.info] and [logger.info], with the second argument in an object
    literal. *)
Theorem data_calls_wrap_argument (q : ascii) (msg arg : text) :
  is_quote q = true ->
  forallb (cls_mem not_quote) msg = true ->
  plain_argument arg = true ->
  fst (replace_console_statements (two_arg_call (t "warn") q msg arg))
  = object_call (t "warn") msg arg /\
  fst (replace_console_statements (two_arg_call (t "log") q msg arg))
  = object_call (t "info") msg arg /\
  fst (replace_console_statements (two_arg_call (t "info") q msg arg))
  = object_call (t "info") msg arg.
Proof.
  intros Hq Hm Ha. unfold replace_console_statements. cbn [fst]. repeat split.
  - now apply warn_two_arg_rewrite.
  - now apply log_two_arg_rewrite.
  - now apply info_two_arg_rewrite.
Qed.

Lemma data_calls_wrap_argument_witness :
  fst (replace_console_statements (t "console.log('user', user.id)"))
  = t "logger.info(" ++ dq :: t "user" ++ dq :: t ", { user.id })".
Proof.
  apply (proj1 (proj2 (data_calls_wrap_argument sq (t "user") (t "user.id")
                                                eq_refl eq_refl eq_refl))).
Defined.

(** ** Buffers without console calls, and the replacement counter *)

Lemma contains_false_quiet (s : text) :
  contains (t "console.") s = false -> quiet s = true.
Proof.
  induction s as [|c s IH]; intros H.
  - reflexivity.
  - unfold contains in H; fold contains in H.
    cbn [quiet]. unfold starts.
    destruct (strip_prefix (t "console.") (c :: s)); [discriminate|].
    cbn [negb orb andb]. now apply IH.
Qed.

Lemma finditer_from_quiet (r : regex * template) (s : text) :
  In r rules -> quiet s = true ->
  forall skip pos prev, finditer_from (fst r) skip pos prev s = [].
Proof.
  intros Hr. induction s as [|c s IH]; intros Hq skip pos prev.
  - simpl. destruct skip; [|reflexivity]. now rewrite rule_no_empty_match.
  - simpl in Hq. apply andb_true_iff in Hq as [Hh Hq].
    simpl. destruct skip; [|now apply IH].
    rewrite rule_no_match by assumption. now apply IH.
Qed.

Lemma finditer_quiet_tail (r : regex * template) (c : text) :
  In r rules -> quiet (tl c) = true ->
  length (finditer (fst r) c)
  = match match_here (fst r) None c with Some _ => 1 | None => 0 end.
Proof.
  intros Hr Hq. unfold finditer. destruct c as [|x s].
  - simpl. now rewrite rule_no_empty_match.
  - rewrite finditer_from_cons.
    destruct (match_here (fst r) None (x :: s)) as [[g rest]|].
    + cbn [length]. now rewrite finditer_from_quiet.
    + now rewrite finditer_from_quiet.
Qed.

Lemma count_replacements_zero (content : text) :
  (forall r, In r rules -> length (finditer (fst r) content) = 0) ->
  count_replacements content = 0.
Proof.
  intros H. unfold count_replacements.
  assert (G : forall l n, (forall r, In r l -> In r rules) ->
                          fold_left (fun n r => n + length (finditer (fst r) content))
                                    l n = n).
  { induction l as [|r l IH]; intros n Hl; [reflexivity|].
    cbn [fold_left]. rewrite H by (apply Hl; now left).
    rewrite Nat.add_0_r. apply IH. intros r' Hr'. apply Hl. now right. }
  now apply G.
Qed.

(** X5: a buffer in which the text [console.] does not occur comes back
    unchanged, with a replacement count of zero. *)
Theorem no_console_text_untouched (content : text) :
  contains (t "console.") content = false ->
  replace_console_statements content = (content, 0).
Proof.
  intros H. apply contains_false_quiet in H.
  unfold replace_console_statements. f_equal.
  - apply rules_quiet; [apply incl_refl|assumption].
  - apply count_replacements_zero. intros r Hr.
    unfold finditer. now rewrite finditer_from_quiet.
Qed.

Lemma no_console_text_untouched_witness :
  replace_console_statements (t "const total = items.length; render(total);")
  = (t "const total = items.length; render(total);", 0).
Proof.
  apply (no_console_text_untouched (t "const total = items.length; render(total);")).
  reflexivity.
Defined.

(** X6: the counter adds up the matches of every pattern in the original
    content, so a [console.log] call with a keyword, which the sixth and
    the eighth pattern both match, counts as two replacements although the
    call is rewritten once; without a keyword it counts as one. *)
Theorem log_call_counted (q : ascii) (msg : text) :
  is_quote q = true ->
  forallb (cls_mem not_quote) msg = true ->
  snd (replace_console_statements (one_arg_call (t "log") q msg))
  = if has_keyword msg then 2 else 1.
Proof.
  intros Hq Hm. unfold replace_console_statements. cbn [snd].
  assert (Ht : quiet (tl (one_arg_call (t "log") q msg)) = true)
    by (quiet_call q Hq).
  assert (H6 : match_here pattern6 None (one_arg_call (t "log") q msg)
               = if has_keyword msg
                 then Some (one_arg_caps q msg, [])
                 else None).
  { destruct (has_keyword msg) eqn:Hk.
    - unfold has_keyword in Hk. apply existsb_exists in Hk as (kw & Hin & Hc).
      destruct (contains_split _ _ Hc) as (pre & post & ->).
      apply keyword_match; try assumption.
      + rewrite forallb_app in Hm. now apply andb_true_iff in Hm.
      + apply forallb_app_r in Hm. now apply forallb_app_r in Hm.
    - now apply pattern6_no_match_plain. }
  unfold count_replacements, rules. cbn [fold_left].
  rewrite (@finditer_quiet_tail (pattern1, replacement1) _ ltac:(in_rules) Ht).
  rewrite (@finditer_quiet_tail (pattern2, replacement2) _ ltac:(in_rules) Ht).
  rewrite (@finditer_quiet_tail (pattern3, replacement3) _ ltac:(in_rules) Ht).
  rewrite (@finditer_quiet_tail (pattern4, replacement4) _ ltac:(in_rules) Ht).
  rewrite (@finditer_quiet_tail (pattern5, replacement5) _ ltac:(in_rules) Ht).
  rewrite (@finditer_quiet_tail (pattern6, replacement6) _ ltac:(in_rules) Ht).
  rewrite (@finditer_quiet_tail (pattern7, replacement7) _ ltac:(in_rules) Ht).
  rewrite (@finditer_quiet_tail (pattern8, replacement8) _ ltac:(in_rules) Ht).
  rewrite (@finditer_quiet_tail (pattern9, replacement9) _ ltac:(in_rules) Ht).
  rewrite (@finditer_quiet_tail (pattern10, replacement10) _ ltac:(in_rules) Ht).
  cbn [fst]. rewrite H6.
  rewrite (two_arg_no_match_one_arg (t "log") q msg None Hq Hm
           : match_here pattern7 None _ = None).
  rewrite (one_arg_match (t "log") q msg None Hq Hm
           : match_here pattern8 None _ = Some _).
  change (match_here pattern1 None (one_arg_call (t "log") q msg)) with (@None (caps * text)).
  change (match_here pattern2 None (one_arg_call (t "log") q msg)) with (@None (caps * text)).
  change (match_here pattern3 None (one_arg_call (t "log") q msg)) with (@None (caps * text)).
  change (match_here pattern4 None (one_arg_call (t "log") q msg)) with (@None (caps * text)).
  change (match_here pattern5 None (one_arg_call (t "log") q msg)) with (@None (caps * text)).
  change (match_here pattern9 None (one_arg_call (t "log") q msg)) with (@None (caps * text)).
  change (match_here pattern10 None (one_arg_call (t "log") q msg)) with (@None (caps * text)).
  destruct (has_keyword msg); reflexivity.
Qed.

Lemma log_call_counted_witness :
  snd (replace_console_statements (t "console.log('Starting up')")) = 2.
Proof.
  apply (log_call_counted sq (t "Starting up") eq_refl eq_refl).
Defined.

(** ** Buffers without declarations *)

Lemma finditer_from_nowhere (re : regex) (P : text -> bool) :
  (forall prev s, P s = false -> match_here re prev s = None) ->
  forall s skip pos prev,
    nowhere P s = true -> finditer_from re skip pos prev s = [].
Proof.
  intros H. induction s as [|c s IH]; intros skip pos prev Hn.
  - simpl in *. destruct skip; [|reflexivity].
    rewrite H; [reflexivity|]. apply andb_true_iff in Hn as [Hn _].
    now apply negb_true_iff.
  - cbn [nowhere] in Hn. apply andb_true_iff in Hn as [Hp Hn].
    apply negb_true_iff in Hp. simpl. destruct skip; [|now apply IH].
    rewrite (H _ _ Hp). now apply IH.
Qed.

Lemma contains_false_nowhere (lit s : text) :
  contains lit s = false -> nowhere (starts lit) s = true.
Proof.
  induction s as [|c s IH]; unfold contains; fold contains; cbn [nowhere];
    unfold starts at 1;
    destruct (strip_prefix lit _); try discriminate; intros H.
  - reflexivity.
  - cbn [negb andb]. now apply IH.
Qed.

Lemma nowhere_or (P Q : text -> bool) (s : text) :
  nowhere P s = true -> nowhere Q s = true ->
  nowhere (fun x => P x || Q x) s = true.
Proof.
  induction s as [|c s IH]; cbn [nowhere]; intros HP HQ;
    apply andb_true_iff in HP as [HP HP'];
    apply andb_true_iff in HQ as [HQ HQ'];
    apply negb_true_iff in HP; apply negb_true_iff in HQ;
    rewrite HP, HQ; cbn [orb negb andb]; auto.
Qed.

Lemma destructuring_needs_const (prev : option ascii) (s : text) :
  starts (t "const") s = false -> match_here destructuring_pattern prev s = None.
Proof.
  unfold starts, match_here, destructuring_pattern. cbn [match_atoms].
  now destruct (strip_prefix (t "const") s).
Qed.

Lemma simple_needs_keyword (prev : option ascii) (s : text) :
  starts_declaration s = false -> match_here simple_var_pattern prev s = None.
Proof.
  unfold starts_declaration, starts, match_here, simple_var_pattern.
  cbn [match_atoms alt_loop].
  destruct (strip_prefix (t "const") s); [discriminate|].
  destruct (strip_prefix (t "let") s); [discriminate|].
  destruct (strip_prefix (t "var") s); [discriminate|]. reflexivity.
Qed.

(** X7: a buffer in which none of the words [const], [let] and [var]
    occurs, not even inside a longer word, comes back from
    [remove_unused_variables] unchanged. *)
Theorem no_declaration_untouched (content : text) :
  contains (t "const") content = false ->
  contains (t "let") content = false ->
  contains (t "var") content = false ->
  remove_unused_variables content = content.
Proof.
  intros Hc Hl Hv.
  apply contains_false_nowhere in Hc, Hl, Hv.
  unfold remove_unused_variables, remove_unused_destructuring, remove_unused_simple.
  unfold finditer.
  rewrite (finditer_from_nowhere _ _ destructuring_needs_const) by assumption.
  cbn [fold_left].
  rewrite (finditer_from_nowhere _ _ simple_needs_keyword); [reflexivity|].
  unfold starts_declaration.
  apply (nowhere_or (fun x => starts (t "const") x || starts (t "let") x)
                    (starts (t "var"))); [|assumption].
  now apply nowhere_or.
Qed.

Lemma no_declaration_untouched_witness :
  remove_unused_variables (t "export function id(x) { return x; }")
  = t "export function id(x) { return x; }".
Proof.
  apply (no_declaration_untouched (t "export function id(x) { return x; }"));
    reflexivity.
Defined.

(** ** The spans of a scan *)

Lemma finditer_from_bounds (re : regex) (s : text) :
  forall skip pos prev,
    Forall (fun m => pos + skip <= m_start m /\ m_start m <= m_end m /\
                     m_end m <= pos + length s)
           (finditer_from re skip pos prev s).
Proof.
  induction s as [|c s IH]; intros skip pos prev.
  - simpl. destruct skip; [|constructor].
    destruct (match_here re prev []) as [[g rest]|]; [|constructor].
    constructor; [simpl; lia|constructor].
  - assert (Hs : forall k p, pos + skip <= S pos + k ->
                             Forall (fun m => pos + skip <= m_start m /\
                                              m_start m <= m_end m /\
                                              m_end m <= pos + length (c :: s))
                                    (finditer_from re k (S pos) p s)).
    { intros k p Hk. eapply Forall_impl; [|apply IH].
      cbn [length]. intros; lia. }
    destruct skip as [|k]; [|cbn [finditer_from]; apply Hs; lia].
    rewrite finditer_from_cons.
    destruct (match_here re prev (c :: s)) as [[g rest]|]; [|apply Hs; lia].
    constructor; [cbn [m_start m_end]; lia|apply Hs; lia].
Qed.

Lemma finditer_from_disjoint (re : regex) (s : text) :
  forall skip pos prev,
    StronglySorted (fun a b => m_end a <= m_start b)
                   (finditer_from re skip pos prev s).
Proof.
  induction s as [|c s IH]; intros skip pos prev.
  - simpl. destruct skip; [|constructor].
    destruct (match_here re prev []) as [[g rest]|]; repeat constructor.
  - destruct skip as [|k]; [|cbn [finditer_from]; apply IH].
    rewrite finditer_from_cons.
    destruct (match_here re prev (c :: s)) as [[g rest]|]; [|apply IH].
    constructor; [apply IH|].
    eapply Forall_impl; [|apply finditer_from_bounds].
    cbn [m_start m_end]. intros; lia.
Qed.

Lemma scan_spans_disjoint_aux (re : regex) (s : text) :
  Forall (fun m => m_start m <= m_end m /\ m_end m <= length s) (finditer re s) /\
  StronglySorted (fun a b => m_end a <= m_start b) (finditer re s).
Proof.
  split.
  - eapply Forall_impl; [|apply finditer_from_bounds]. simpl. intros; lia.
  - apply finditer_from_disjoint.
Qed.

(** X8: the spans that a scan of the buffer yields, which are the spans
    the two loops of [remove_unused_variables] edit, lie within the buffer
    and come in ascending order without overlap. *)
Theorem scan_spans_disjoint (re : regex) (s : text) :
  Forall (fun m => m_start m <= m_end m /\ m_end m <= length s) (finditer re s) /\
  StronglySorted (fun a b => m_end a <= m_start b) (finditer re s).
Proof. apply scan_spans_disjoint_aux. Qed.

(** ** The simple-declaration pass only deletes *)

Lemma find_char_lt (c : ascii) (s : text) (i : nat) :
  find_char c s = Some i -> i < length s.
Proof.
  revert i; induction s as [|x s IH]; simpl; intros i H; [discriminate|].
  destruct (Ascii.eqb x c); [inversion H; lia|].
  destruct (find_char c s) as [j|]; [|discriminate].
  inversion H; subst. specialize (IH j eq_refl). lia.
Qed.

Lemma simple_step_length (content : text) (m : rmatch) :
  m_start m <= m_end m ->
  length (simple_step content m) <= length content.
Proof.
  intros Hm. unfold simple_step.
  destruct (negb _); [|lia].
  destruct (_ && _); [|lia].
  rewrite length_app, length_firstn, length_skipn.
  unfold rfind_before, find_from.
  destruct (rfind_char nl (firstn (m_start m) content)) as [i|] eqn:Er;
    destruct (find_char nl (skipn (m_end m) content)) as [j|] eqn:Ef;
    try (apply rfind_char_lt in Er; rewrite length_firstn in Er);
    try (apply find_char_lt in Ef; rewrite length_skipn in Ef);
    lia.
Qed.

(** X9: the pass over the simple declarations only deletes text: its
    result is never longer than the buffer it was given. *)
Theorem remove_unused_simple_never_longer (content : text) :
  length (remove_unused_simple content) <= length content.
Proof.
  unfold remove_unused_simple.
  assert (G : forall ms c,
             Forall (fun m => m_start m <= m_end m) ms ->
             length (fold_left simple_step ms c) <= length c).
  { induction ms as [|m ms IH]; intros c Hf; [simpl; lia|].
    inversion Hf; subst. cbn [fold_left].
    etransitivity; [apply IH; assumption|]. now apply simple_step_length. }
  apply G. eapply Forall_impl; [|apply (proj1 (scan_spans_disjoint_aux _ _))].
  simpl. intros; lia.
Qed.

(** ** A file without imports *)

Lemma import_needs_text (prev : option ascii) (s : text) :
  starts (t "import") s = false -> match_here import_pattern prev s = None.
Proof.
  unfold starts, match_here, import_pattern. cbn [match_atoms].
  now destruct (strip_prefix (t "import") s).
Qed.

Lemma guard_needs_import (s : text) :
  contains (t "import") s = false -> contains import_guard s = false.
Proof.
  intros H. destruct (contains import_guard s) eqn:E; [|reflexivity].
  apply contains_split in E as (a & b & ->).
  change import_guard with (t "import" ++ t ".*logger.*from") in H.
  rewrite <- app_assoc in H. rewrite contains_app_lit in H. discriminate.
Qed.

(** X10: a file in which the text [import] does not occur gets the logger
    import as its first line, followed by an empty line and the old
    content. *)
Theorem no_import_goes_on_top (content : text) :
  contains (t "import") content = false ->
  add_logger_import content = (logger_import ++ [nl; nl] ++ content, true).
Proof.
  intros H. unfold add_logger_import.
  rewrite (guard_needs_import _ H).
  unfold findall1, finditer.
  rewrite (finditer_from_nowhere _ _ import_needs_text);
    [reflexivity|now apply contains_false_nowhere].
Qed.

Lemma no_import_goes_on_top_witness :
  add_logger_import (t "console.log('x');")
  = (t "import { logger } from './logging';" ++ nl :: nl :: t "console.log('x');",
     true).
Proof.
  apply (no_import_goes_on_top (t "console.log('x');")). reflexivity.
Defined.

(** ** The names that [find_unused_variables_in_function] reports *)

Lemma finditer_from_caps (re : regex) (s : text) :
  forall skip pos prev m,
    In m (finditer_from re skip pos prev s) ->
    exists prev' suf rest, match_here re prev' suf = Some (m_caps m, rest).
Proof.
  induction s as [|c s IH]; intros skip pos prev m Hin.
  - simpl in Hin. destruct skip; [|destruct Hin].
    destruct (match_here re prev []) as [[g rest]|] eqn:E; [|destruct Hin].
    destruct Hin as [<-|[]]. now exists prev, [], rest.
  - destruct skip as [|k]; [|cbn [finditer_from] in Hin; eapply IH; eauto].
    rewrite finditer_from_cons in Hin.
    destruct (match_here re prev (c :: s)) as [[g rest]|] eqn:E;
      [|eapply IH; eauto].
    destruct Hin as [<-|Hin]; [|eapply IH; eauto].
    now exists prev, (c :: s), rest.
Qed.

Lemma simple_candidate_identifier (kw : text) (prev : option ascii)
      (s : text) (g : caps) (rest : text) :
  match_here [Str kw; Plus Space; Open 1; Plus Word; Close 1] prev s
  = Some (g, rest) ->
  is_identifier (group 1 g) = true.
Proof.
  unfold match_here. cbn [match_atoms]. intros H.
  destruct (strip_prefix kw s) as [s1|]; [|discriminate].
  destruct s1 as [|c s1]; [discriminate|].
  destruct (cls_mem Space c); [|discriminate].
  apply star_loop_some_inv in H as (a & b & _ & _ & H).
  destruct b as [|w b]; [discriminate|].
  destruct (cls_mem Word w) eqn:Ew; [|discriminate].
  apply star_loop_some_inv in H as (a2 & b3 & -> & Ha2 & H).
  inversion H; subst g rest.
  change (w :: a2 ++ b3) with ((w :: a2) ++ b3).
  rewrite group_close_open. unfold is_identifier. cbn [nonempty forallb andb].
  apply andb_true_iff. split; [exact Ew|].
  rewrite forallb_forall in *. intros x Hx. exact (Ha2 x Hx).
Qed.

Lemma simple_patterns_shape (pattern : regex) :
  In pattern (tl var_patterns) ->
  exists kw, pattern = [Str kw; Plus Space; Open 1; Plus Word; Close 1].
Proof.
  unfold var_patterns. cbn [tl In].
  intros [<-|[<-|[<-|[]]]]; eexists; reflexivity.
Qed.

(** X11: a name that [find_unused_variables_in_function] reports either
    is a candidate of the destructuring pattern, or is an identifier with at
    most one whole-word occurrence in the text of the function. *)
Theorem reported_names_are_dead (content : text) (function_start function_end : nat)
        (name : text) :
  In name (find_unused_variables_in_function content function_start function_end) ->
  In name (findall1 (hd [] var_patterns)
                    (slice function_start function_end content)) \/
  (is_identifier name = true /\
   whole_word_count name None (slice function_start function_end content) <= 1).
Proof.
  unfold find_unused_variables_in_function.
  set (fc := slice function_start function_end content).
  intros H. apply in_flat_map in H as (pattern & Hp & Hin).
  unfold unused_among in Hin. apply filter_In in Hin as [Hin Hu].
  unfold var_patterns in Hp. destruct Hp as [<-|Hp]; [now left|right].
  destruct (@simple_patterns_shape pattern Hp) as (kw & ->).
  assert (Hid : is_identifier name = true).
  { unfold findall1 in Hin. apply in_map_iff in Hin as (m & <- & Hm).
    apply finditer_from_caps in Hm as (prev' & suf & rest & Hm).
    eapply simple_candidate_identifier; eauto. }
  split; [assumption|].
  apply negb_true_iff in Hu. unfold is_variable_used, usage_count in Hu.
  rewrite usage_matches_whole_word in Hu by assumption.
  rewrite Z.gtb_ltb, Z.ltb_ge in Hu. lia.
Qed.

Lemma reported_names_are_dead_witness :
  let content := t "function f() { const x = 1; let y = 2; return y; }" in
  In (t "x") (findall1 (hd [] var_patterns) (slice 0 51 content)) \/
  (is_identifier (t "x") = true /\
   whole_word_count (t "x") None (slice 0 51 content) <= 1).
Proof.
  intros content.
  apply (reported_names_are_dead content 0 51 (t "x")).
  vm_compute. left. reflexivity.
Defined.

(** ** A call inside a file *)

Lemma strip_prefix_app_none (X : text) :
  forall n a,
    (forall k, k < length n -> strip_prefix (skipn k n) X = None) ->
    strip_prefix n a = None ->
    strip_prefix n (a ++ X) = None.
Proof.
  intros n a; revert n; induction a as [|c a IH]; intros n Hn H.
  - destruct n as [|x n]; [discriminate|]. apply (Hn 0). simpl. lia.
  - destruct n as [|x n]; [discriminate|].
    simpl in *. destruct (Ascii.eqb x c); [|reflexivity].
    apply IH; [|assumption]. intros k Hk. apply (Hn (S k)). lia.
Qed.

Lemma starts_app_none (pre rest : text) (c : ascii) :
  no_border rest = true ->
  starts (t "console.") (c :: pre) = false ->
  starts (t "console.") ((c :: pre) ++ rest) = false.
Proof.
  intros Hb H. unfold starts in *.
  change (t "console.") with ("c"%char :: t "onsole.") in *.
  assert (Hk : forall k, k < length (t "onsole.") ->
                         strip_prefix (skipn k (t "onsole.")) rest = None).
  { intros k Hk. unfold no_border in Hb. rewrite forallb_forall in Hb.
    assert (Hin : In (S k) (seq 1 7)) by (apply in_seq; simpl in Hk; lia).
    specialize (Hb (S k) Hin). apply negb_true_iff in Hb. unfold starts in Hb.
    change (skipn (S k) (t "console.")) with (skipn k (t "onsole.")) in Hb.
    now destruct (strip_prefix (skipn k (t "onsole.")) rest). }
  remember (t "onsole.") as n' eqn:En. cbn [app strip_prefix] in *.
  destruct (Ascii.eqb "c" c); [|reflexivity].
  destruct (strip_prefix n' pre) eqn:E; [discriminate|].
  now rewrite strip_prefix_app_none.
Qed.

Lemma inert_before_contains (pre rest : text) :
  contains (t "console.") pre = false ->
  no_border rest = true ->
  inert_before pre rest = true.
Proof.
  intros H Hb. induction pre as [|c pre IH]; [reflexivity|].
  unfold contains in H; fold contains in H. cbn [inert_before].
  destruct (strip_prefix (t "console.") (c :: pre)) eqn:E; [discriminate|].
  rewrite starts_app_none; [|assumption|unfold starts; now rewrite E].
  cbn [negb andb]. now apply IH.
Qed.

Lemma quiet_inert (a b : text) :
  inert_before a b = true -> quiet b = true -> quiet (a ++ b) = true.
Proof.
  intros Ha Hb. induction a as [|c a IH]; [assumption|].
  cbn [inert_before] in Ha. apply andb_true_iff in Ha as [Hs Ha].
  change ((c :: a) ++ b) with (c :: a ++ b) in *. cbn [quiet].
  rewrite Hs. cbn [orb andb]. now apply IH.
Qed.

Lemma quiet_app (a b : text) :
  contains (t "console.") a = false ->
  no_border b = true ->
  quiet b = true ->
  quiet (a ++ b) = true.
Proof.
  intros Ha Hn Hb. apply quiet_inert; [|assumption].
  now apply inert_before_contains.
Qed.

Lemma sub_from_inert (r : regex * template) (pre rest : text) :
  In r rules ->
  inert_before pre rest = true ->
  forall prev,
    sub_from (fst r) (snd r) 0 prev (pre ++ rest)
    = pre ++ sub_from (fst r) (snd r) 0 (last_char pre prev) rest.
Proof.
  intros Hr. induction pre as [|c pre IH]; intros Hi prev.
  - reflexivity.
  - cbn [inert_before] in Hi. apply andb_true_iff in Hi as [Hs Hi].
    change ((c :: pre) ++ rest) with (c :: pre ++ rest) in *.
    cbn [sub_from]. rewrite rule_no_match by (assumption || now rewrite Hs).
    rewrite last_char_cons. cbn [app]. f_equal. now apply IH.
Qed.

Lemma sub_from_skip (re : regex) (tpl : template) (a b : text) :
  forall prev,
    sub_from re tpl (length a) prev (a ++ b)
    = sub_from re tpl 0 (last_char a prev) b.
Proof.
  induction a as [|c a IH]; intros prev.
  - reflexivity.
  - cbn [length app sub_from]. rewrite IH. now rewrite last_char_cons.
Qed.

Lemma sub_from_quiet_tail (r : regex * template) (s : text) (prev : option ascii) :
  In r rules ->
  match_here (fst r) prev s = None ->
  quiet (tl s) = true ->
  sub_from (fst r) (snd r) 0 prev s = s.
Proof.
  intros Hr Hm Hq. destruct s as [|c s].
  - simpl. now rewrite Hm.
  - cbn [sub_from]. rewrite Hm. f_equal. now apply sub_from_quiet.
Qed.

Lemma sub_from_call (r : regex * template) (call post : text)
      (prev : option ascii) (g : caps) :
  In r rules ->
  call <> [] ->
  match_here (fst r) prev (call ++ post) = Some (g, post) ->
  quiet post = true ->
  sub_from (fst r) (snd r) 0 prev (call ++ post) = expand (snd r) g ++ post.
Proof.
  intros Hr Hne Hm Hq. destruct call as [|c call]; [congruence|].
  change ((c :: call) ++ post) with (c :: call ++ post) in *.
  cbn [sub_from]. rewrite Hm.
  replace (length (c :: call ++ post) - length post) with (S (length call))
    by (cbn [length]; rewrite length_app; lia).
  rewrite sub_from_skip. f_equal. now apply sub_from_quiet.
Qed.

(** The rules before the one that matches do nothing, the matching rule
    rewrites the call where it stands, and the rules after it leave the
    result alone. *)
Lemma rules_rewrite_in_context (before after : list (regex * template))
      (r : regex * template) (pre call post out : text) (g : caps) :
  rules = before ++ r :: after ->
  inert_before pre (call ++ post) = true ->
  (forall r', In r' before ->
              match_here (fst r') (last_char pre None) (call ++ post) = None) ->
  quiet (tl (call ++ post)) = true ->
  call <> [] ->
  match_here (fst r) (last_char pre None) (call ++ post) = Some (g, post) ->
  quiet post = true ->
  expand (snd r) g = out ->
  inert_before pre (out ++ post) = true ->
  quiet (out ++ post) = true ->
  fold_left apply_rule rules (pre ++ call ++ post) = pre ++ out ++ post.
Proof.
  intros E Hi Hb Hq Hne Hm Hp Hout Hi' Hq'.
  assert (Hin : forall r', In r' (before ++ r :: after) -> In r' rules)
    by (intros; now rewrite E).
  rewrite E, fold_left_app.
  rewrite (@fold_left_fixed _ _ apply_rule before (pre ++ call ++ post)).
  - rewrite fold_rules_cons.
    assert (Hr : In r rules) by (apply Hin; apply in_elt).
    unfold apply_rule at 2, re_sub.
    rewrite sub_from_inert by assumption.
    rewrite (@sub_from_call r call post _ g Hr Hne Hm Hp), Hout.
    apply fold_left_fixed. intros r' Hr'.
    assert (Hr'' : In r' rules)
      by (apply Hin; apply in_or_app; right; now right).
    unfold apply_rule, re_sub. rewrite sub_from_inert by assumption.
    f_equal. now apply sub_from_quiet.
  - intros r' Hr'.
    assert (Hr'' : In r' rules) by (apply Hin; apply in_or_app; now left).
    unfold apply_rule, re_sub. rewrite sub_from_inert by assumption.
    f_equal. apply sub_from_quiet_tail; auto.
Qed.

Lemma one_arg_call_app (callee : text) (q : ascii) (msg post : text) :
  one_arg_call callee q msg ++ post
  = (t "console." ++ callee) ++ t "(" ++ q :: msg ++ q :: t ")" ++ post.
Proof.
  unfold one_arg_call. rewrite <- app_assoc. f_equal.
  cbn [t list_ascii_of_string app]. now rewrite <- app_assoc.
Qed.

Lemma two_arg_call_app (callee : text) (q : ascii) (msg arg post : text) :
  two_arg_call callee q msg arg ++ post
  = (t "console." ++ callee) ++ t "(" ++ q :: msg ++ q :: t ", " ++ arg ++ t ")" ++ post.
Proof.
  unfold two_arg_call. rewrite <- app_assoc. f_equal.
  cbn [t list_ascii_of_string app]. rewrite <- app_assoc.
  cbn [app]. now rewrite <- app_assoc.
Qed.

Lemma one_arg_match_in (callee : text) (q : ascii) (msg post : text)
      (prev : option ascii) :
  is_quote q = true ->
  forallb (cls_mem not_quote) msg = true ->
  match_here (one_arg_pattern callee) prev (one_arg_call callee q msg ++ post)
  = Some (one_arg_caps_in q msg post, post).
Proof.
  intros Hq Hm. rewrite one_arg_call_app. unfold match_here, one_arg_pattern.
  rewrite call_head_match by assumption.
  rewrite match_Open. apply match_Star_greedy; [assumption|now apply stops_not_quote|].
  rewrite match_Close, match_Set by exact Hq.
  rewrite match_Star_skip by reflexivity. now rewrite match_Str.
Qed.

Lemma two_arg_match_in (callee : text) (q : ascii) (msg arg post : text)
      (prev : option ascii) :
  is_quote q = true ->
  forallb (cls_mem not_quote) msg = true ->
  bare_argument arg = true ->
  match_here (two_arg_pattern callee) prev (two_arg_call callee q msg arg ++ post)
  = Some (two_arg_caps_in q msg arg post, post).
Proof.
  intros Hq Hm Ha. rewrite two_arg_call_app. unfold match_here, two_arg_pattern.
  rewrite call_head_match by assumption.
  unfold bare_argument in Ha. apply andb_true_iff in Ha as [Hp Hs].
  destruct arg as [|c arg]; [discriminate|].
  rewrite match_Open. apply match_Star_greedy; [assumption|now apply stops_not_quote|].
  rewrite match_Close, match_Set by exact Hq.
  rewrite match_Star_skip by reflexivity.
  change (t ", " ++ (c :: arg) ++ t ")" ++ post)
    with (t "," ++ t " " ++ (c :: arg) ++ t ")" ++ post).
  rewrite match_Str.
  apply match_Star_greedy; [reflexivity|exact Hs|].
  rewrite match_Open.
  apply match_Plus_greedy; [assumption|reflexivity|].
  rewrite match_Close. now rewrite match_Str.
Qed.

Lemma two_arg_no_match_one_arg_in (callee : text) (q : ascii) (msg post : text)
      (prev : option ascii) :
  is_quote q = true ->
  forallb (cls_mem not_quote) msg = true ->
  match_here (two_arg_pattern callee) prev (one_arg_call callee q msg ++ post) = None.
Proof.
  intros Hq Hm. rewrite one_arg_call_app. unfold match_here, two_arg_pattern.
  rewrite call_head_match by assumption. rewrite match_Open.
  rewrite match_Star_exact; [|assumption|now apply stops_not_quote|].
  - rewrite match_Close, match_Set by exact Hq.
    rewrite match_Star_skip by reflexivity. reflexivity.
  - intros prev' c s' Hc. rewrite match_Close. cbn [match_atoms].
    now rewrite not_quote_is.
Qed.

Lemma pattern2_no_match_one_arg_in (q : ascii) (msg post : text)
      (prev : option ascii) :
  is_quote q = true ->
  forallb (cls_mem not_quote) msg = true ->
  match_here pattern2 prev (one_arg_call (t "error") q msg ++ post) = None.
Proof.
  intros Hq Hm. rewrite one_arg_call_app. unfold match_here, pattern2.
  rewrite call_head_match by assumption. rewrite match_Open.
  apply match_Star_none; [assumption|now apply stops_not_quote|].
  intros a b Hab. rewrite match_Close. destruct b as [|c b].
  - destruct (quote_cases _ Hq) as [-> | ->]; reflexivity.
  - cbn [match_atoms t list_ascii_of_string strip_prefix app].
    destruct (Ascii.eqb ":" c); [|reflexivity].
    destruct b as [|d b]; cbn [app].
    + destruct (quote_cases _ Hq) as [-> | ->]; reflexivity.
    + subst msg. apply forallb_app_r in Hm. cbn [forallb] in Hm.
      apply andb_true_iff in Hm as [_ Hm]. apply andb_true_iff in Hm as [Hd _].
      now rewrite (not_quote_is _ Hd).
Qed.

Lemma one_arg_tail_match_in (g : caps) (prev : option ascii) (q : ascii)
      (b post : text) :
  is_quote q = true ->
  forallb (cls_mem not_quote) b = true ->
  match_atoms [Star not_quote; Close 1; Set_ quote; Star Space; Str (t ")")]
              g prev (b ++ q :: t ")" ++ post)
  = Some (close_group 1 (q :: t ")" ++ post) g, post).
Proof.
  intros Hq Hb.
  apply match_Star_greedy; [assumption|now apply stops_not_quote|].
  rewrite match_Close, match_Set by exact Hq.
  rewrite match_Star_skip by reflexivity. now rewrite match_Str.
Qed.

Lemma keyword_match_in (q : ascii) (pre kw post rest : text) (prev : option ascii) :
  is_quote q = true -> In kw keywords ->
  forallb (cls_mem not_quote) pre = true ->
  forallb (cls_mem not_quote) post = true ->
  match_here pattern6 prev (one_arg_call (t "log") q (pre ++ kw ++ post) ++ rest)
  = Some (one_arg_caps_in q (pre ++ kw ++ post) rest, rest).
Proof.
  intros Hq Hk Hpre Hpost. rewrite one_arg_call_app. unfold match_here, pattern6.
  rewrite call_head_match by assumption. rewrite match_Open.
  destruct (keyword_no_quote _ Hq Hk) as [Hin Hkw].
  assert (Hall : forallb (cls_mem not_quote) (pre ++ kw ++ post) = true).
  { rewrite !forallb_app, Hpre, Hkw, Hpost. reflexivity. }
  unfold one_arg_caps_in.
  set (g := open_group 1 ((pre ++ kw ++ post) ++ q :: t ")" ++ rest) no_caps).
  assert (Htail : forall b lit s' p',
             forallb (cls_mem not_quote) b = true -> In lit keywords ->
             strip_prefix lit (b ++ q :: t ")" ++ rest) = Some s' ->
             match_atoms [Star not_quote; Close 1; Set_ quote; Star Space; Str (t ")")]
                         g p' s'
             = Some (close_group 1 (q :: t ")" ++ rest) g, rest)).
  { intros b lit s' p' Hb Hl Hs.
    destruct (keyword_no_quote _ Hq Hl) as [Hin' _].
    destruct (@strip_prefix_before lit b (t ")" ++ rest) s' q Hin' Hs)
      as (b' & -> & ->).
    apply one_arg_tail_match_in; [assumption|].
    apply forallb_app_r in Hb. exact Hb. }
  apply match_Star_agree; [assumption|now apply stops_not_quote| |].
  - intros a b r' Hab Hm.
    apply match_Alt_inv in Hm as (lit & s' & Hl & Hs & Hm).
    rewrite (Htail b lit s' _) in Hm; auto.
    + now inversion Hm.
    + rewrite Hab in Hall. now apply forallb_app_r in Hall.
  - exists pre, (kw ++ post). split; [reflexivity|].
    apply match_Alt_some.
    + intros lit s' Hl Hs. apply (Htail (kw ++ post) lit s'); auto.
      now apply forallb_app_r in Hall.
    + exists kw. split; [assumption|].
      rewrite <- app_assoc, strip_prefix_app. discriminate.
Qed.

Lemma one_arg_tail_no_comma_in (g : caps) (prev : option ascii) (q : ascii)
      (b rest : text) :
  is_quote q = true ->
  forallb (cls_mem not_quote) b = true ->
  match_atoms [Star not_quote; Close 1; Set_ quote; Star Space; Str (t ")")]
              g prev (b ++ q :: t ", " ++ rest) = None.
Proof. intros. now apply one_arg_tail_no_comma. Qed.

Lemma pattern6_no_match_two_arg_in (q : ascii) (msg arg post : text)
      (prev : option ascii) :
  is_quote q = true ->
  forallb (cls_mem not_quote) msg = true ->
  match_here pattern6 prev (two_arg_call (t "log") q msg arg ++ post) = None.
Proof.
  intros Hq Hm. rewrite two_arg_call_app. unfold match_here, pattern6.
  rewrite call_head_match by assumption. rewrite match_Open.
  apply match_Star_none; [assumption|now apply stops_not_quote|].
  intros a b Hab.
  match goal with |- ?lhs = None => destruct lhs as [r|] eqn:E end; [|reflexivity].
  exfalso. apply match_Alt_inv in E as (lit & s' & Hl & Hs & E).
  destruct (keyword_no_quote _ Hq Hl) as [Hin _].
  destruct (@strip_prefix_before lit b (t ", " ++ arg ++ t ")" ++ post) s' q Hin Hs)
    as (b' & -> & ->).
  rewrite one_arg_tail_no_comma in E; [discriminate|assumption|].
  subst msg. apply forallb_app_r in Hm. now apply forallb_app_r in Hm.
Qed.

Lemma pattern6_no_match_plain_in (q : ascii) (msg post : text)
      (prev : option ascii) :
  is_quote q = true ->
  forallb (cls_mem not_quote) msg = true ->
  has_keyword msg = false ->
  match_here pattern6 prev (one_arg_call (t "log") q msg ++ post) = None.
Proof.
  intros Hq Hm Hk. rewrite one_arg_call_app. unfold match_here, pattern6.
  rewrite call_head_match by assumption. rewrite match_Open.
  apply match_Star_none; [assumption|now apply stops_not_quote|].
  intros a b Hab.
  match goal with |- ?lhs = None => destruct lhs as [r|] eqn:E end; [|reflexivity].
  exfalso. apply match_Alt_inv in E as (lit & s' & Hl & Hs & E).
  destruct (keyword_no_quote _ Hq Hl) as [Hin _].
  destruct (@strip_prefix_before lit b (t ")" ++ post) s' q Hin Hs) as (b' & -> & ->).
  unfold has_keyword in Hk.
  assert (Hc : existsb (fun kw => contains kw msg) keywords = true).
  { apply existsb_exists. exists lit. split; [assumption|].
    subst msg. apply contains_app_lit. }
  congruence.
Qed.

Ltac quiet_steps :=
  repeat first [ apply quiet_cons_other; [reflexivity|]
               | apply quiet_app; [assumption|reflexivity|] ];
  first [ apply contains_false_quiet; assumption | reflexivity ].

Ltac expose_text :=
  cbn [t list_ascii_of_string app tl];
  repeat (rewrite <- app_assoc; cbn [app]).

Ltac quiet_in_context q Hq :=
  unfold logger_call, object_call, error_coercion;
  rewrite ?one_arg_call_app, ?two_arg_call_app;
  try (destruct (quote_cases q Hq) as [-> | ->]);
  expose_text; quiet_steps.

Ltac inert_in_context :=
  apply inert_before_contains; [assumption|reflexivity].

Ltac no_match_before_in :=
  let r' := fresh "r" in
  let H := fresh "H" in
  intros r' H; cbn [In] in H;
  repeat (destruct H as [<-|H]; [try reflexivity|]); try (destruct H).

Ltac expand_one_arg_in :=
  cbn [snd];
  unfold replacement3, replacement5, replacement6, replacement8, replacement10,
    one_arg_replacement, one_arg_caps_in, logger_call;
  cbn [expand]; rewrite group_close_open; reflexivity.

Lemma error_one_arg_in_place (q : ascii) (pre msg post : text) :
  is_quote q = true ->
  forallb (cls_mem not_quote) msg = true ->
  contains (t "console.") pre = false ->
  contains (t "console.") msg = false ->
  contains (t "console.") post = false ->
  fold_left apply_rule rules (pre ++ one_arg_call (t "error") q msg ++ post)
  = pre ++ logger_call (t "error") msg ++ post.
Proof.
  intros Hq Hm Hpre Hmsg Hpost.
  apply (@rules_rewrite_in_context
           [(pattern1, replacement1); (pattern2, replacement2)]
           _ (pattern3, replacement3) pre _ post _
           (one_arg_caps_in q msg post) eq_refl).
  - inert_in_context.
  - no_match_before_in.
    + now apply two_arg_no_match_one_arg_in.
    + now apply pattern2_no_match_one_arg_in.
  - quiet_in_context q Hq.
  - discriminate.
  - now apply one_arg_match_in.
  - now apply contains_false_quiet.
  - expand_one_arg_in.
  - inert_in_context.
  - quiet_in_context q Hq.
Qed.

Lemma warn_one_arg_in_place (q : ascii) (pre msg post : text) :
  is_quote q = true ->
  forallb (cls_mem not_quote) msg = true ->
  contains (t "console.") pre = false ->
  contains (t "console.") msg = false ->
  contains (t "console.") post = false ->
  fold_left apply_rule rules (pre ++ one_arg_call (t "warn") q msg ++ post)
  = pre ++ logger_call (t "warn") msg ++ post.
Proof.
  intros Hq Hm Hpre Hmsg Hpost.
  apply (@rules_rewrite_in_context
           [(pattern1, replacement1); (pattern2, replacement2);
            (pattern3, replacement3); (pattern4, replacement4)]
           _ (pattern5, replacement5) pre _ post _
           (one_arg_caps_in q msg post) eq_refl).
  - inert_in_context.
  - no_match_before_in. now apply two_arg_no_match_one_arg_in.
  - quiet_in_context q Hq.
  - discriminate.
  - now apply one_arg_match_in.
  - now apply contains_false_quiet.
  - expand_one_arg_in.
  - inert_in_context.
  - quiet_in_context q Hq.
Qed.

Lemma info_one_arg_in_place (q : ascii) (pre msg post : text) :
  is_quote q = true ->
  forallb (cls_mem not_quote) msg = true ->
  contains (t "console.") pre = false ->
  contains (t "console.") msg = false ->
  contains (t "console.") post = false ->
  fold_left apply_rule rules (pre ++ one_arg_call (t "info") q msg ++ post)
  = pre ++ logger_call (t "info") msg ++ post.
Proof.
  intros Hq Hm Hpre Hmsg Hpost.
  apply (@rules_rewrite_in_context
           [(pattern1, replacement1); (pattern2, replacement2);
            (pattern3, replacement3); (pattern4, replacement4);
            (pattern5, replacement5); (pattern6, replacement6);
            (pattern7, replacement7); (pattern8, replacement8);
            (pattern9, replacement9)]
           _ (pattern10, replacement10) pre _ post _
           (one_arg_caps_in q msg post) eq_refl).
  - inert_in_context.
  - no_match_before_in. now apply two_arg_no_match_one_arg_in.
  - quiet_in_context q Hq.
  - discriminate.
  - now apply one_arg_match_in.
  - now apply contains_false_quiet.
  - expand_one_arg_in.
  - inert_in_context.
  - quiet_in_context q Hq.
Qed.

Lemma log_one_arg_in_place (q : ascii) (pre msg post : text) :
  is_quote q = true ->
  forallb (cls_mem not_quote) msg = true ->
  contains (t "console.") pre = false ->
  contains (t "console.") msg = false ->
  contains (t "console.") post = false ->
  fold_left apply_rule rules (pre ++ one_arg_call (t "log") q msg ++ post)
  = pre ++ logger_call (if has_keyword msg then t "info" else t "debug") msg ++ post.
Proof.
  intros Hq Hm Hpre Hmsg Hpost.
  destruct (has_keyword msg) eqn:Hk.
  - assert (H6 : match_here pattern6 (last_char pre None)
                            (one_arg_call (t "log") q msg ++ post)
                 = Some (one_arg_caps_in q msg post, post)).
    { unfold has_keyword in Hk. apply existsb_exists in Hk as (kw & Hin & Hc).
      destruct (contains_split _ _ Hc) as (a & b & ->).
      apply keyword_match_in; try assumption.
      + rewrite forallb_app in Hm. now apply andb_true_iff in Hm.
      + apply forallb_app_r in Hm. now apply forallb_app_r in Hm. }
    apply (@rules_rewrite_in_context
             [(pattern1, replacement1); (pattern2, replacement2);
              (pattern3, replacement3); (pattern4, replacement4);
              (pattern5, replacement5)]
             _ (pattern6, replacement6) pre _ post _
             (one_arg_caps_in q msg post) eq_refl).
    + inert_in_context.
    + no_match_before_in.
    + quiet_in_context q Hq.
    + discriminate.
    + exact H6.
    + now apply contains_false_quiet.
    + expand_one_arg_in.
    + inert_in_context.
    + quiet_in_context q Hq.
  - apply (@rules_rewrite_in_context
             [(pattern1, replacement1); (pattern2, replacement2);
              (pattern3, replacement3); (pattern4, replacement4);
              (pattern5, replacement5); (pattern6, replacement6);
              (pattern7, replacement7)]
             _ (pattern8, replacement8) pre _ post _
             (one_arg_caps_in q msg post) eq_refl).
    + inert_in_context.
    + no_match_before_in.
      * now apply pattern6_no_match_plain_in.
      * now apply two_arg_no_match_one_arg_in.
    + quiet_in_context q Hq.
    + discriminate.
    + now apply one_arg_match_in.
    + now apply contains_false_quiet.
    + expand_one_arg_in.
    + inert_in_context.
    + quiet_in_context q Hq.
Qed.

Ltac expand_two_arg_in :=
  cbn [snd];
  unfold replacement1, replacement4, replacement7, replacement9, object_replacement,
    two_arg_caps_in, object_call, error_coercion;
  cbn [expand];
  rewrite group_close_other by reflexivity;
  rewrite !group_close_open;
  repeat (rewrite <- app_assoc; cbn [app]); reflexivity.

Lemma error_two_arg_in_place (q : ascii) (pre msg arg post : text) :
  is_quote q = true ->
  forallb (cls_mem not_quote) msg = true ->
  bare_argument arg = true ->
  contains (t "console.") pre = false ->
  contains (t "console.") msg = false ->
  contains (t "console.") arg = false ->
  contains (t "console.") post = false ->
  fold_left apply_rule rules (pre ++ two_arg_call (t "error") q msg arg ++ post)
  = pre ++ (t "logger.error(" ++ dq :: msg ++ dq :: t ", " ++ error_coercion arg
            ++ t ")") ++ post.
Proof.
  intros Hq Hm Ha Hpre Hmsg Harg Hpost.
  apply (@rules_rewrite_in_context
           [] _ (pattern1, replacement1) pre _ post _
           (two_arg_caps_in q msg arg post) eq_refl).
  - inert_in_context.
  - no_match_before_in.
  - quiet_in_context q Hq.
  - discriminate.
  - now apply two_arg_match_in.
  - now apply contains_false_quiet.
  - expand_two_arg_in.
  - inert_in_context.
  - quiet_in_context q Hq.
Qed.

Lemma warn_two_arg_in_place (q : ascii) (pre msg arg post : text) :
  is_quote q = true ->
  forallb (cls_mem not_quote) msg = true ->
  bare_argument arg = true ->
  contains (t "console.") pre = false ->
  contains (t "console.") msg = false ->
  contains (t "console.") arg = false ->
  contains (t "console.") post = false ->
  fold_left apply_rule rules (pre ++ two_arg_call (t "warn") q msg arg ++ post)
  = pre ++ object_call (t "warn") msg arg ++ post.
Proof.
  intros Hq Hm Ha Hpre Hmsg Harg Hpost.
  apply (@rules_rewrite_in_context
           [(pattern1, replacement1); (pattern2, replacement2);
            (pattern3, replacement3)]
           _ (pattern4, replacement4) pre _ post _
           (two_arg_caps_in q msg arg post) eq_refl).
  - inert_in_context.
  - no_match_before_in.
  - quiet_in_context q Hq.
  - discriminate.
  - now apply two_arg_match_in.
  - now apply contains_false_quiet.
  - expand_two_arg_in.
  - inert_in_context.
  - quiet_in_context q Hq.
Qed.

Lemma log_two_arg_in_place (q : ascii) (pre msg arg post : text) :
  is_quote q = true ->
  forallb (cls_mem not_quote) msg = true ->
  bare_argument arg = true ->
  contains (t "console.") pre = false ->
  contains (t "console.") msg = false ->
  contains (t "console.") arg = false ->
  contains (t "console.") post = false ->
  fold_left apply_rule rules (pre ++ two_arg_call (t "log") q msg arg ++ post)
  = pre ++ object_call (t "info") msg arg ++ post.
Proof.
  intros Hq Hm Ha Hpre Hmsg Harg Hpost.
  apply (@rules_rewrite_in_context
           [(pattern1, replacement1); (pattern2, replacement2);
            (pattern3, replacement3); (pattern4, replacement4);
            (pattern5, replacement5); (pattern6, replacement6)]
           _ (pattern7, replacement7) pre _ post _
           (two_arg_caps_in q msg arg post) eq_refl).
  - inert_in_context.
  - no_match_before_in. now apply pattern6_no_match_two_arg_in.
  - quiet_in_context q Hq.
  - discriminate.
  - now apply two_arg_match_in.
  - now apply contains_false_quiet.
  - expand_two_arg_in.
  - inert_in_context.
  - quiet_in_context q Hq.
Qed.

Lemma info_two_arg_in_place (q : ascii) (pre msg arg post : text) :
  is_quote q = true ->
  forallb (cls_mem not_quote) msg = true ->
  bare_argument arg = true ->
  contains (t "console.") pre = false ->
  contains (t "console.") msg = false ->
  contains (t "console.") arg = false ->
  contains (t "console.") post = false ->
  fold_left apply_rule rules (pre ++ two_arg_call (t "info") q msg arg ++ post)
  = pre ++ object_call (t "info") msg arg ++ post.
Proof.
  intros Hq Hm Ha Hpre Hmsg Harg Hpost.
  apply (@rules_rewrite_in_context
           [(pattern1, replacement1); (pattern2, replacement2);
            (pattern3, replacement3); (pattern4, replacement4);
            (pattern5, replacement5); (pattern6, replacement6);
            (pattern7, replacement7); (pattern8, replacement8)]
           _ (pattern9, replacement9) pre _ post _
           (two_arg_caps_in q msg arg post) eq_refl).
  - inert_in_context.
  - no_match_before_in.
  - quiet_in_context q Hq.
  - discriminate.
  - now apply two_arg_match_in.
  - now apply contains_false_quiet.
  - expand_two_arg_in.
  - inert_in_context.
  - quiet_in_context q Hq.
Qed.

(** X12: in a file that mentions [console.] nowhere else, a call of
    [console.error], [console.warn], [console.info] or [console.log] with
    one string literal is rewritten where it stands, and every character
    before and after it is kept. *)
Theorem one_arg_call_rewritten_in_place (q : ascii) (pre msg post : text) :
  is_quote q = true ->
  forallb (cls_mem not_quote) msg = true ->
  contains (t "console.") pre = false ->
  contains (t "console.") msg = false ->
  contains (t "console.") post = false ->
  fst (replace_console_statements (pre ++ one_arg_call (t "error") q msg ++ post))
  = pre ++ logger_call (t "error") msg ++ post /\
  fst (replace_console_statements (pre ++ one_arg_call (t "warn") q msg ++ post))
  = pre ++ logger_call (t "warn") msg ++ post /\
  fst (replace_console_statements (pre ++ one_arg_call (t "info") q msg ++ post))
  = pre ++ logger_call (t "info") msg ++ post /\
  fst (replace_console_statements (pre ++ one_arg_call (t "log") q msg ++ post))
  = pre ++ logger_call (if has_keyword msg then t "info" else t "debug") msg ++ post.
Proof.
  intros Hq Hm Hpre Hmsg Hpost. unfold replace_console_statements. cbn [fst].
  repeat split.
  - now apply error_one_arg_in_place.
  - now apply warn_one_arg_in_place.
  - now apply info_one_arg_in_place.
  - now apply log_one_arg_in_place.
Qed.

Lemma one_arg_call_rewritten_in_place_witness :
  fst (replace_console_statements
         (t "if (!ok) { console.error('request failed'); return; }"))
  = t "if (!ok) { logger.error(" ++ dq :: t "request failed" ++ dq ::
    t "); return; }".
Proof.
  apply (proj1 (one_arg_call_rewritten_in_place
                  sq (t "if (!ok) { ") (t "request failed") (t "; return; }")
                  eq_refl eq_refl eq_refl eq_refl eq_refl)).
Defined.

(** X13: in such a file a call with a string literal and a second argument
    without closing parenthesis is rewritten where it stands as well:
    [console.error] with the argument coerced to an [Error], the other
    three with the argument in an object literal. *)
Theorem two_arg_call_rewritten_in_place (q : ascii) (pre msg arg post : text) :
  is_quote q = true ->
  forallb (cls_mem not_quote) msg = true ->
  bare_argument arg = true ->
  contains (t "console.") pre = false ->
  contains (t "console.") msg = false ->
  contains (t "console.") arg = false ->
  contains (t "console.") post = false ->
  fst (replace_console_statements
         (pre ++ two_arg_call (t "error") q msg arg ++ post))
  = pre ++ (t "logger.error(" ++ dq :: msg ++ dq :: t ", " ++ error_coercion arg
            ++ t ")") ++ post /\
  fst (replace_console_statements
         (pre ++ two_arg_call (t "warn") q msg arg ++ post))
  = pre ++ object_call (t "warn") msg arg ++ post /\
  fst (replace_console_statements
         (pre ++ two_arg_call (t "log") q msg arg ++ post))
  = pre ++ object_call (t "info") msg arg ++ post /\
  fst (replace_console_statements
         (pre ++ two_arg_call (t "info") q msg arg ++ post))
  = pre ++ object_call (t "info") msg arg ++ post.
Proof.
  intros Hq Hm Ha Hpre Hmsg Harg Hpost. unfold replace_console_statements.
  cbn [fst]. repeat split.
  - now apply error_two_arg_in_place.
  - now apply warn_two_arg_in_place.
  - now apply log_two_arg_in_place.
  - now apply info_two_arg_in_place.
Qed.

Lemma two_arg_call_rewritten_in_place_witness :
  fst (replace_console_statements
         (t "try { run(); } catch (e) { console.error('run failed', e); }"))
  = t "try { run(); } catch (e) { logger.error(" ++ dq :: t "run failed" ++ dq ::
    t ", e instanceof Error ? e : new Error(String(e))); }".
Proof.
  apply (proj1 (two_arg_call_rewritten_in_place
                  sq (t "try { run(); } catch (e) { ") (t "run failed") (t "e")
                  (t "; }")
                  eq_refl eq_refl eq_refl eq_refl eq_refl eq_refl eq_refl)).
Defined.

(** ** A destructuring declaration inside a file *)

Lemma starts_app_none_of (lit pre rest : text) (c : ascii) :
  no_border_of lit rest = true ->
  starts lit (c :: pre) = false ->
  starts lit ((c :: pre) ++ rest) = false.
Proof.
  intros Hb H. unfold starts in *.
  destruct lit as [|x lit]; [discriminate|].
  assert (Hk : forall k, k < length lit ->
                         strip_prefix (skipn k lit) rest = None).
  { intros k Hk. unfold no_border_of in Hb. rewrite forallb_forall in Hb.
    assert (Hin : In (S k) (seq 1 (length (x :: lit) - 1)))
      by (apply in_seq; simpl; lia).
    specialize (Hb (S k) Hin). apply negb_true_iff in Hb. unfold starts in Hb.
    change (skipn (S k) (x :: lit)) with (skipn k lit) in Hb.
    now destruct (strip_prefix (skipn k lit) rest). }
  cbn [app strip_prefix] in *.
  destruct (Ascii.eqb x c); [|reflexivity].
  destruct (strip_prefix lit pre) eqn:E; [discriminate|].
  now rewrite strip_prefix_app_none.
Qed.

Lemma inert_contains (lit pre rest : text) :
  contains lit pre = false ->
  no_border_of lit rest = true ->
  inert (starts lit) pre rest = true.
Proof.
  intros H Hb. induction pre as [|c pre IH]; [reflexivity|].
  unfold contains in H; fold contains in H. cbn [inert].
  destruct (strip_prefix lit (c :: pre)) eqn:E; [discriminate|].
  rewrite starts_app_none_of; [|assumption|unfold starts; now rewrite E].
  cbn [negb andb]. now apply IH.
Qed.

Lemma finditer_from_inert (re : regex) (P : text -> bool) (pre rest : text) :
  (forall prev s, P s = false -> match_here re prev s = None) ->
  inert P pre rest = true ->
  forall pos prev,
    finditer_from re 0 pos prev (pre ++ rest)
    = finditer_from re 0 (pos + length pre) (last_char pre prev) rest.
Proof.
  intros H. induction pre as [|c pre IH]; intros Hi pos prev.
  - cbn [app length]. now rewrite Nat.add_0_r.
  - cbn [inert] in Hi. apply andb_true_iff in Hi as [Hs Hi].
    apply negb_true_iff in Hs.
    change ((c :: pre) ++ rest) with (c :: pre ++ rest) in *.
    rewrite finditer_from_cons, (H _ _ Hs), IH by assumption.
    rewrite last_char_cons. cbn [length]. f_equal. lia.
Qed.

Lemma finditer_from_skip (re : regex) (a b : text) :
  forall pos prev,
    finditer_from re (length a) pos prev (a ++ b)
    = finditer_from re 0 (pos + length a) (last_char a prev) b.
Proof.
  induction a as [|c a IH]; intros pos prev.
  - cbn [app length]. now rewrite Nat.add_0_r.
  - cbn [length app finditer_from]. rewrite IH, last_char_cons. f_equal. lia.
Qed.

(** One match, of the text [call] that stands between [pre] and [post]. *)
Lemma finditer_single (re : regex) (P : text -> bool) (pre call post : text)
      (g : caps) :
  (forall prev s, P s = false -> match_here re prev s = None) ->
  inert P pre (call ++ post) = true ->
  call <> [] ->
  match_here re (last_char pre None) (call ++ post) = Some (g, post) ->
  nowhere P post = true ->
  finditer re (pre ++ call ++ post)
  = [mkMatch (length pre) (length pre + length call) g].
Proof.
  intros H Hi Hne Hm Hp. unfold finditer.
  rewrite (finditer_from_inert re P pre (call ++ post) H Hi).
  destruct call as [|c call]; [congruence|].
  change ((c :: call) ++ post) with (c :: call ++ post) in *.
  rewrite finditer_from_cons, Hm.
  replace (length (c :: call ++ post) - length post) with (S (length call))
    by (cbn [length]; rewrite length_app; lia).
  cbn [pred Nat.add length]. rewrite finditer_from_skip.
  now rewrite (finditer_from_nowhere re P H).
Qed.

Lemma splice_between (pre call post replacement : text) :
  splice (length pre) (length pre + length call) replacement (pre ++ call ++ post)
  = pre ++ replacement ++ post.
Proof.
  unfold splice.
  rewrite firstn_app, firstn_all, Nat.sub_diag. cbn [firstn]. rewrite app_nil_r.
  rewrite skipn_app, skipn_all2 by lia.
  replace (length pre + length call - length pre) with (length call) by lia.
  cbn [app]. rewrite skipn_app, skipn_all, Nat.sub_diag. reflexivity.
Qed.

Lemma filter_all (A : Type) (f : A -> bool) (l : list A) :
  length (filter f l) = length l -> filter f l = l.
Proof.
  induction l as [|x l IH]; [reflexivity|]. cbn [filter].
  destruct (f x); cbn [length]; intros H.
  - f_equal. apply IH. lia.
  - pose proof (filter_length_le f l). lia.
Qed.

Lemma lstrip_nonspace (c : ascii) (s : text) :
  is_space c = false -> lstrip (c :: s) = c :: s.
Proof. intros H. simpl. now rewrite H. Qed.

Lemma member_parts (v : text) :
  well_formed_member v = true ->
  (exists c v', v = c :: v' /\ is_space c = false) /\
  (exists d r, rev v = d :: r /\ is_space d = false) /\
  forallb (fun c => negb (in_text c (t ",}"))) v = true.
Proof.
  unfold well_formed_member. intros H.
  apply andb_true_iff in H as [H H3]. apply andb_true_iff in H as [H1 H2].
  repeat split; [| |assumption].
  - destruct v as [|c v']; [discriminate|]. exists c, v'.
    split; [reflexivity|now apply negb_true_iff].
  - destruct (rev v) as [|d r]; [discriminate|]. exists d, r.
    split; [reflexivity|now apply negb_true_iff].
Qed.

Lemma strip_member (ws v ws' : text) :
  well_formed_member v = true ->
  forallb is_space ws = true -> forallb is_space ws' = true ->
  strip (ws ++ v ++ ws') = v.
Proof.
  intros Hv Hws Hws'.
  destruct (member_parts _ Hv) as ((c & v' & -> & Hc) & (d & r & Hr & Hd) & _).
  unfold strip, rstrip.
  rewrite lstrip_spaces by assumption.
  change ((c :: v') ++ ws') with (c :: (v' ++ ws')).
  rewrite lstrip_nonspace by assumption.
  change (c :: v' ++ ws') with ((c :: v') ++ ws').
  rewrite rev_app_distr, lstrip_spaces by now rewrite forallb_rev.
  rewrite Hr, lstrip_nonspace by assumption.
  rewrite <- Hr. apply rev_involutive.
Qed.

Lemma split_on_no_sep (sep : ascii) (w : text) :
  forallb (fun c => negb (Ascii.eqb c sep)) w = true -> split_on sep w = [w].
Proof.
  induction w as [|c w IH]; [reflexivity|]. cbn [forallb split_on]. intros H.
  apply andb_true_iff in H as [Hc H]. apply negb_true_iff in Hc.
  now rewrite Hc, IH.
Qed.

Lemma split_on_app (sep : ascii) (w rest : text) :
  forallb (fun c => negb (Ascii.eqb c sep)) w = true ->
  split_on sep (w ++ sep :: rest) = w :: split_on sep rest.
Proof.
  induction w as [|c w IH]; cbn [forallb app split_on]; intros H.
  - now rewrite Ascii.eqb_refl.
  - apply andb_true_iff in H as [Hc H]. apply negb_true_iff in Hc.
    now rewrite Hc, IH.
Qed.

Lemma space_not_comma (c : ascii) : is_space c = true -> Ascii.eqb c "," = false.
Proof.
  destruct c as [[] [] [] [] [] [] [] []]; vm_compute; congruence.
Qed.

Lemma spaces_no_comma (ws : text) :
  forallb is_space ws = true ->
  forallb (fun c => negb (Ascii.eqb c ",")) ws = true.
Proof.
  intros H. rewrite forallb_forall in *. intros c Hc.
  now rewrite (space_not_comma _ (H c Hc)).
Qed.

Lemma member_no_comma (v : text) :
  well_formed_member v = true ->
  forallb (fun c => negb (Ascii.eqb c ",")) v = true.
Proof.
  intros Hv. destruct (member_parts _ Hv) as (_ & _ & H).
  rewrite forallb_forall in *. intros c Hc. specialize (H c Hc).
  cbn [t list_ascii_of_string in_text existsb] in H.
  apply negb_true_iff in H. apply orb_false_iff in H as [H _]. now rewrite H.
Qed.

Lemma member_no_brace (v : text) :
  well_formed_member v = true ->
  forallb (cls_mem (NoneOf (t "}"))) v = true.
Proof.
  intros Hv. destruct (member_parts _ Hv) as (_ & _ & H).
  rewrite forallb_forall in *. intros c Hc. specialize (H c Hc).
  cbn [t list_ascii_of_string in_text existsb cls_mem] in *.
  apply negb_true_iff in H. apply orb_false_iff in H as [_ H].
  now rewrite H.
Qed.

Lemma vars_list_join (vars : list text) :
  vars <> [] ->
  forallb well_formed_member vars = true ->
  forall ws, forallb is_space ws = true ->
             vars_list_of (ws ++ join (t ", ") vars ++ t " ") = vars.
Proof.
  induction vars as [|v vars IH]; intros Hne Hwf ws Hws; [congruence|].
  cbn [forallb] in Hwf. apply andb_true_iff in Hwf as [Hv Hwf].
  destruct vars as [|v2 vars].
  - cbn [join]. unfold vars_list_of.
    rewrite split_on_no_sep.
    + assert (Hn : nonempty v = true)
        by (destruct (member_parts _ Hv) as ((c & v' & -> & _) & _); reflexivity).
      cbn [filter]. rewrite strip_member by (auto; reflexivity).
      rewrite Hn. cbn [map]. rewrite strip_member by (auto; reflexivity).
      reflexivity.
    + rewrite !forallb_app, spaces_no_comma, member_no_comma by assumption.
      reflexivity.
  - change (join (t ", ") (v :: v2 :: vars))
      with (v ++ t ", " ++ join (t ", ") (v2 :: vars)).
    replace (ws ++ (v ++ t ", " ++ join (t ", ") (v2 :: vars)) ++ t " ")
      with ((ws ++ v) ++ ","%char :: (t " " ++ join (t ", ") (v2 :: vars) ++ t " "))
      by (rewrite <- !app_assoc; reflexivity).
    specialize (IH ltac:(discriminate) Hwf (t " ") eq_refl).
    unfold vars_list_of in *. rewrite split_on_app.
    + assert (Hn : nonempty v = true)
        by (destruct (member_parts _ Hv) as ((c & v' & -> & _) & _); reflexivity).
      assert (Hs : strip (ws ++ v) = v).
      { rewrite <- (app_nil_r v) at 1. now apply strip_member. }
      cbn [filter]. rewrite Hs, Hn. cbn [map]. rewrite Hs. f_equal. exact IH.
    + rewrite forallb_app, spaces_no_comma, member_no_comma by assumption.
      reflexivity.
Qed.

Lemma join_no_brace (vars : list text) :
  forallb well_formed_member vars = true ->
  forallb (cls_mem (NoneOf (t "}"))) (join (t ", ") vars) = true.
Proof.
  induction vars as [|v vars IH]; intros H; [reflexivity|].
  cbn [forallb] in H. apply andb_true_iff in H as [Hv H].
  destruct vars as [|v2 vars].
  - cbn [join]. now apply member_no_brace.
  - change (join (t ", ") (v :: v2 :: vars))
      with (v ++ t ", " ++ join (t ", ") (v2 :: vars)).
    rewrite !forallb_app, member_no_brace, IH by assumption. reflexivity.
Qed.

Lemma join_head (vars : list text) :
  vars <> [] ->
  forallb well_formed_member vars = true ->
  exists c s, join (t ", ") vars = c :: s /\ is_space c = false.
Proof.
  intros Hne H. destruct vars as [|v vars]; [congruence|].
  cbn [forallb] in H. apply andb_true_iff in H as [Hv _].
  destruct (member_parts _ Hv) as ((c & v' & -> & Hc) & _).
  destruct vars; cbn [join app]; eauto.
Qed.

Lemma new_line_app (vars : list text) (post : text) :
  new_line_of vars ++ post
  = t "const" ++ t " " ++ t "{" ++ t " " ++ (join (t ", ") vars ++ t " ")
    ++ t "}" ++ t " " ++ t "=" ++ post.
Proof. unfold new_line_of. rewrite <- !app_assoc. reflexivity. Qed.

Lemma destructuring_match (vars : list text) (post : text) (prev : option ascii) :
  vars <> [] ->
  forallb well_formed_member vars = true ->
  match_here destructuring_pattern prev (new_line_of vars ++ post)
  = Some (close_group 1 (t "}" ++ t " " ++ t "=" ++ post)
            (open_group 1 ((join (t ", ") vars ++ t " ")
                           ++ t "}" ++ t " " ++ t "=" ++ post) no_caps),
          post).
Proof.
  intros Hne Hwf. rewrite new_line_app. unfold match_here, destructuring_pattern.
  destruct (join_head Hne Hwf) as (c & s & Ej & Hc).
  rewrite match_Str.
  apply (@match_Plus_greedy _ _ _ Space " "%char []); [reflexivity|reflexivity|].
  rewrite match_Str.
  apply (@match_Star_greedy _ _ _ Space (t " ")); [reflexivity| |].
  { rewrite Ej. cbn [app stops cls_mem]. now rewrite Hc. }
  rewrite match_Open.
  assert (Hb : forallb (cls_mem (NoneOf (t "}"))) (join (t ", ") vars ++ t " ") = true).
  { rewrite forallb_app, join_no_brace by assumption. reflexivity. }
  rewrite Ej in *. change ((c :: s) ++ t " ") with (c :: (s ++ t " ")) in *.
  apply (@match_Plus_greedy _ _ _ (NoneOf (t "}")) c (s ++ t " "));
    [assumption|reflexivity|].
  rewrite match_Close.
  rewrite match_Star_skip by reflexivity.
  rewrite match_Str.
  apply (@match_Star_greedy _ _ _ Space (t " ")); [reflexivity|reflexivity|].
  now rewrite match_Str.
Qed.

(** X14.  A destructuring declaration written in the canonical layout
    [const { m1, ..., mn } =], standing anywhere in a buffer that holds no
    other [const], is rewritten in place to the members whose names are used
    in the buffer; the text before and after it is kept. *)
Theorem canonical_destructuring_rewritten (pre post : text) (vars : list text) :
  vars <> [] ->
  forallb well_formed_member vars = true ->
  contains (t "const") pre = false ->
  contains (t "const") post = false ->
  remove_unused_destructuring (pre ++ new_line_of vars ++ post)
  = pre ++ new_line_of (used_vars_of vars (pre ++ new_line_of vars ++ post)) ++ post.
Proof.
  intros Hne Hwf Hpre Hpost. unfold remove_unused_destructuring.
  rewrite (@finditer_single destructuring_pattern (starts (t "const"))
             pre (new_line_of vars) post
             (close_group 1 (t "}" ++ t " " ++ t "=" ++ post)
                (open_group 1 ((join (t ", ") vars ++ t " ")
                               ++ t "}" ++ t " " ++ t "=" ++ post) no_caps))).
  - cbn [fold_left]. unfold destructuring_step. cbn [m_caps m_start m_end].
    rewrite group_close_open.
    pose proof (vars_list_join Hne Hwf [] eq_refl) as Hv.
    rewrite app_nil_l in Hv. rewrite Hv.
    destruct (length (used_vars_of vars (pre ++ new_line_of vars ++ post))
              <? length vars) eqn:E.
    + apply splice_between.
    + apply Nat.ltb_ge in E. unfold used_vars_of in *.
      rewrite filter_all; [reflexivity|].
      pose proof (filter_length_le
                    (fun var => is_variable_used (var_name_of var)
                                  (pre ++ new_line_of vars ++ post)) vars).
      lia.
  - intros prev s. apply destructuring_needs_const.
  - apply inert_contains; [assumption|reflexivity].
  - unfold new_line_of. discriminate.
  - now apply destructuring_match.
  - now apply contains_false_nowhere.
Qed.

Lemma canonical_destructuring_rewritten_witness :
  remove_unused_destructuring
    ((t "// cfg" ++ [nl]) ++ new_line_of [t "a"; t "b: c"; t "d"]
     ++ t " load(); run(a, d);")
  = (t "// cfg" ++ [nl]) ++ t "const { a, d } =" ++ t " load(); run(a, d);".
Proof.
  rewrite (@canonical_destructuring_rewritten (t "// cfg" ++ [nl])
             (t " load(); run(a, d);") [t "a"; t "b: c"; t "d"]);
    [|discriminate|reflexivity|reflexivity|reflexivity].
  vm_compute. reflexivity.
Defined.

(** ** A dead simple declaration on a line of its own *)

Lemma rfind_char_app (c : ascii) (a b : text) :
  rfind_char c (a ++ b)
  = match rfind_char c b with
    | Some i => Some (length a + i)
    | None => rfind_char c a
    end.
Proof.
  induction a as [|x a IH]; cbn [app rfind_char length].
  - now destruct (rfind_char c b).
  - rewrite IH. destruct (rfind_char c b); [reflexivity|].
    reflexivity.
Qed.

Lemma rfind_char_absent (c : ascii) (s : text) :
  in_text c s = false -> rfind_char c s = None.
Proof.
  unfold in_text. induction s as [|x s IH]; cbn [existsb rfind_char];
    [reflexivity|]. intros H. apply orb_false_iff in H as [Hx H].
  rewrite (IH H). rewrite Ascii.eqb_sym in Hx. now rewrite Hx.
Qed.

Lemma find_char_app_absent (c : ascii) (a b : text) :
  in_text c a = false ->
  find_char c (a ++ b)
  = match find_char c b with
    | Some i => Some (length a + i)
    | None => None
    end.
Proof.
  unfold in_text. induction a as [|x a IH]; cbn [existsb app find_char length].
  - intros _. now destruct (find_char c b).
  - intros H. apply orb_false_iff in H as [Hx H].
    rewrite Ascii.eqb_sym in Hx. rewrite Hx, (IH H).
    now destruct (find_char c b).
Qed.

Lemma rfind_before_app (c : ascii) (a b : text) :
  rfind_before c (length a) (a ++ b) = rfind_char c a.
Proof.
  unfold rfind_before.
  now rewrite firstn_app, firstn_all, Nat.sub_diag, app_nil_r.
Qed.

Lemma find_from_app (c : ascii) (a b : text) :
  find_from c (length a) (a ++ b)
  = match find_char c b with
    | Some i => Some (length a + i)
    | None => None
    end.
Proof.
  unfold find_from.
  now rewrite skipn_app, skipn_all, Nat.sub_diag.
Qed.

Lemma line_start_above (above indent : text) :
  at_line_start above = true -> in_text nl indent = false ->
  match rfind_char nl (above ++ indent) with
  | Some i => i + 1
  | None => 0
  end = length above.
Proof.
  intros Ha Hi. rewrite rfind_char_app, (@rfind_char_absent _ _ Hi).
  unfold at_line_start in Ha.
  destruct (rev above) as [|c r] eqn:E.
  - apply (f_equal (@rev ascii)) in E. rewrite rev_involutive in E. subst above.
    reflexivity.
  - apply (f_equal (@rev ascii)) in E. rewrite rev_involutive in E. subst above.
    apply Ascii.eqb_eq in Ha. subst c. cbn [rev].
    rewrite rfind_char_app. cbn [rfind_char]. rewrite Ascii.eqb_refl.
    rewrite length_app. cbn [length]. lia.
Qed.

Lemma line_end_below (front trail below : text) :
  in_text nl trail = false -> at_line_end below = true ->
  match find_from nl (length front) (front ++ trail ++ below) with
  | Some i => i
  | None => length (front ++ trail ++ below)
  end = length (front ++ trail).
Proof.
  intros Ht Hb. rewrite find_from_app, (@find_char_app_absent _ _ _ Ht).
  destruct below as [|c below].
  - cbn [find_char]. now rewrite app_nil_r.
  - cbn [at_line_end] in Hb. cbn [find_char]. rewrite Hb.
    rewrite length_app. lia.
Qed.

(** One iteration on a dead declaration that stands on one line of the
    buffer: the line goes, with its newline. *)
Lemma simple_step_line (above indent decl trail below name : text) (g : caps) :
  at_line_start above = true -> in_text nl indent = false ->
  in_text nl trail = false -> at_line_end below = true ->
  group 2 g = name ->
  is_variable_used name ((above ++ indent) ++ decl ++ trail ++ below) = false ->
  contains name (indent ++ decl ++ trail) = true ->
  contains (t "=") (indent ++ decl ++ trail) = true ->
  simple_step ((above ++ indent) ++ decl ++ trail ++ below)
    (mkMatch (length (above ++ indent)) (length (above ++ indent) + length decl) g)
  = above ++ tl below.
Proof.
  intros Ha Hi Ht Hb Hg Hdead Hn He.
  unfold simple_step. cbn [m_caps m_start m_end]. rewrite Hg, Hdead. cbn [negb].
  rewrite rfind_before_app, (@line_start_above _ _ Ha Hi).
  replace (length (above ++ indent) + length decl)
    with (length ((above ++ indent) ++ decl)) by (rewrite !length_app; lia).
  replace ((above ++ indent) ++ decl ++ trail ++ below)
    with (((above ++ indent) ++ decl) ++ trail ++ below)
    by (rewrite <- !app_assoc; reflexivity).
  rewrite (@line_end_below _ _ _ Ht Hb).
  replace (((above ++ indent) ++ decl) ++ trail ++ below)
    with (above ++ (indent ++ decl ++ trail) ++ below)
    by (rewrite <- !app_assoc; reflexivity).
  replace (((above ++ indent) ++ decl) ++ trail)
    with (above ++ (indent ++ decl ++ trail))
    by (rewrite <- !app_assoc; reflexivity).
  set (line := indent ++ decl ++ trail) in *.
  assert (Hl : slice (length above) (length (above ++ line))
                 (above ++ line ++ below) = line).
  { unfold slice. rewrite skipn_app, skipn_all, Nat.sub_diag. cbn [skipn app].
    rewrite length_app.
    replace (length above + length line - length above) with (length line) by lia.
    now rewrite firstn_app, firstn_all, Nat.sub_diag, app_nil_r. }
  rewrite Hl, Hn, He. cbn [andb].
  rewrite firstn_app, firstn_all, Nat.sub_diag. cbn [firstn]. rewrite app_nil_r.
  f_equal.
  replace (above ++ line ++ below) with ((above ++ line) ++ below)
    by (rewrite <- app_assoc; reflexivity).
  rewrite skipn_app, skipn_all2 by lia.
  replace (length (above ++ line) + 1 - length (above ++ line)) with 1 by lia.
  now destruct below.
Qed.

Lemma simple_tail_match (g : caps) (prev : option ascii) (name expr post : text) :
  is_identifier name = true ->
  plain_initialiser expr = true ->
  match_atoms [Close 1; Plus Space; Open 2; Plus Word; Close 2;
               Star Space; Str (t "="); Star Space;
               Plus (NoneOf (t ";")); Str (t ";")] g prev
    (t " " ++ name ++ t " " ++ t "=" ++ t " " ++ expr ++ t ";" ++ post)
  = Some (close_group 2 (t " " ++ t "=" ++ t " " ++ expr ++ t ";" ++ post)
            (open_group 2 (name ++ t " " ++ t "=" ++ t " " ++ expr ++ t ";" ++ post)
               (close_group 1
                  (t " " ++ name ++ t " " ++ t "=" ++ t " " ++ expr ++ t ";" ++ post)
                  g)),
          post).
Proof.
  unfold is_identifier, plain_initialiser. intros Hn He.
  apply andb_true_iff in Hn as [Hn Hw]. apply andb_true_iff in He as [He Hs].
  destruct name as [|c name]; [discriminate|].
  destruct expr as [|e expr]; [discriminate|].
  apply negb_true_iff in He.
  assert (Hc : is_word c = true)
    by (cbn [forallb] in Hw; now apply andb_true_iff in Hw as [Hc _]).
  rewrite match_Close.
  apply (@match_Plus_greedy _ _ _ Space " "%char []); [reflexivity| |].
  { cbn [app stops cls_mem]. now rewrite (word_not_space _ Hc). }
  rewrite match_Open.
  apply (@match_Plus_greedy _ _ _ Word c name); [exact Hw|reflexivity|].
  rewrite match_Close.
  apply (@match_Star_greedy _ _ _ Space (t " ")); [reflexivity|reflexivity|].
  rewrite match_Str.
  apply (@match_Star_greedy _ _ _ Space (t " ")); [reflexivity| |].
  { cbn [app stops cls_mem]. now rewrite He. }
  apply (@match_Plus_greedy _ _ _ (NoneOf (t ";")) e expr);
    [exact Hs|reflexivity|].
  now rewrite match_Str.
Qed.

Lemma simple_declaration_match (kw name expr post : text) (prev : option ascii) :
  In kw [t "const"; t "let"; t "var"] ->
  is_identifier name = true ->
  plain_initialiser expr = true ->
  exists g,
    match_here simple_var_pattern prev (simple_declaration kw name expr ++ post)
    = Some (g, post) /\ group 2 g = name.
Proof.
  intros Hkw Hn He.
  destruct Hkw as [<-|[<-|[<-|[]]]];
    (eexists; split; [|apply group_close_open]);
    unfold match_here, simple_var_pattern, simple_declaration;
    change (t " = ") with (t " " ++ t "=" ++ t " ");
    rewrite <- !app_assoc; rewrite match_Open;
    (apply match_Alt_some;
     [ intros lit s' Hin Hs;
       destruct Hin as [<-|[<-|[<-|[]]]];
       first [ rewrite strip_prefix_app in Hs; injection Hs as <-;
               now apply simple_tail_match
             | cbv in Hs; discriminate Hs ]
     | eexists; split; [|now rewrite strip_prefix_app];
       cbn [In]; auto ]).
Qed.

Lemma inert_or (P Q : text -> bool) (pre rest : text) :
  inert P pre rest = true -> inert Q pre rest = true ->
  inert (fun x => P x || Q x) pre rest = true.
Proof.
  induction pre as [|c pre IH]; cbn [inert]; intros HP HQ; [reflexivity|].
  apply andb_true_iff in HP as [HP HP'].
  apply andb_true_iff in HQ as [HQ HQ'].
  apply negb_true_iff in HP; apply negb_true_iff in HQ.
  rewrite HP, HQ. cbn [orb negb andb]. auto.
Qed.

Lemma no_keyword_parts (s : text) :
  no_keyword s = true ->
  contains (t "const") s = false /\ contains (t "let") s = false
  /\ contains (t "var") s = false.
Proof.
  unfold no_keyword. intros H.
  apply andb_true_iff in H as [H Hv]. apply andb_true_iff in H as [Hc Hl].
  apply negb_true_iff in Hc, Hl, Hv. auto.
Qed.

Lemma no_keyword_nowhere (s : text) :
  no_keyword s = true -> nowhere starts_declaration s = true.
Proof.
  intros H. destruct (no_keyword_parts _ H) as (Hc & Hl & Hv).
  apply contains_false_nowhere in Hc, Hl, Hv.
  apply (nowhere_or (fun x => starts (t "const") x || starts (t "let") x)
                    (starts (t "var"))); [|assumption].
  now apply nowhere_or.
Qed.

Lemma no_keyword_inert (pre rest : text) :
  no_keyword pre = true ->
  no_border_of (t "const") rest = true ->
  no_border_of (t "let") rest = true ->
  no_border_of (t "var") rest = true ->
  inert starts_declaration pre rest = true.
Proof.
  intros H Bc Bl Bv. destruct (no_keyword_parts _ H) as (Hc & Hl & Hv).
  apply (inert_or (fun x => starts (t "const") x || starts (t "let") x)
                  (starts (t "var"))); [|now apply inert_contains].
  apply inert_or; now apply inert_contains.
Qed.

(** The scan of the second pass finds the declaration and nothing else. *)
Lemma simple_scan_single (above indent kw name expr trail below : text) :
  In kw [t "const"; t "let"; t "var"] ->
  is_identifier name = true ->
  plain_initialiser expr = true ->
  no_keyword (above ++ indent) = true ->
  no_keyword (trail ++ below) = true ->
  exists g,
    finditer simple_var_pattern
      ((above ++ indent) ++ simple_declaration kw name expr ++ trail ++ below)
    = [mkMatch (length (above ++ indent))
         (length (above ++ indent) + length (simple_declaration kw name expr)) g]
    /\ group 2 g = name.
Proof.
  intros Hkw Hn He Hpre Hpost.
  destruct (@simple_declaration_match kw name expr (trail ++ below)
              (last_char (above ++ indent) None) Hkw Hn He) as (g & Hm & Hg).
  exists g. split; [|exact Hg].
  apply (@finditer_single simple_var_pattern starts_declaration
           (above ++ indent) (simple_declaration kw name expr)
           (trail ++ below) g simple_needs_keyword).
  - destruct Hkw as [<-|[<-|[<-|[]]]];
      apply no_keyword_inert; try assumption; reflexivity.
  - destruct Hkw as [<-|[<-|[<-|[]]]]; discriminate.
  - exact Hm.
  - now apply no_keyword_nowhere.
Qed.

(** The line of the declaration holds its name and an equals sign. *)
Lemma declaration_line_contains (indent kw name expr trail : text) :
  contains name (indent ++ simple_declaration kw name expr ++ trail) = true /\
  contains (t "=") (indent ++ simple_declaration kw name expr ++ trail) = true.
Proof.
  unfold simple_declaration. split.
  - replace (indent ++ (kw ++ t " " ++ name ++ t " = " ++ expr ++ t ";") ++ trail)
      with ((indent ++ kw ++ t " ") ++ name ++ (t " = " ++ expr ++ t ";" ++ trail))
      by (rewrite <- !app_assoc; reflexivity).
    apply contains_app_lit.
  - replace (indent ++ (kw ++ t " " ++ name ++ t " = " ++ expr ++ t ";") ++ trail)
      with ((indent ++ kw ++ t " " ++ name ++ t " ")
              ++ t "=" ++ (t " " ++ expr ++ t ";" ++ trail))
      by (rewrite <- !app_assoc; reflexivity).
    apply contains_app_lit.
Qed.

(** X15.  A declaration [kw name = expr;] whose name is not used, standing
    on one line of a buffer that holds no other declaration keyword, is
    removed by the second pass together with the rest of its line and the
    newline that ends it; the lines above and below are kept. *)
Theorem dead_declaration_line_removed
        (above indent kw name expr trail below : text) :
  In kw [t "const"; t "let"; t "var"] ->
  is_identifier name = true ->
  plain_initialiser expr = true ->
  at_line_start above = true ->
  in_text nl indent = false ->
  in_text nl trail = false ->
  at_line_end below = true ->
  no_keyword (above ++ indent) = true ->
  no_keyword (trail ++ below) = true ->
  is_variable_used name
    (above ++ indent ++ simple_declaration kw name expr ++ trail ++ below) = false ->
  remove_unused_simple
    (above ++ indent ++ simple_declaration kw name expr ++ trail ++ below)
  = above ++ tl below.
Proof.
  intros Hkw Hn He Ha Hi Ht Hb Hpre Hpost Hdead.
  destruct (@simple_scan_single above indent kw name expr trail below
              Hkw Hn He Hpre Hpost) as (g & Hscan & Hg).
  destruct (declaration_line_contains indent kw name expr trail) as [Hc1 Hc2].
  rewrite (app_assoc above indent) in *.
  unfold remove_unused_simple. rewrite Hscan. cbn [fold_left].
  now apply (@simple_step_line above indent _ trail below name g).
Qed.

Lemma dead_declaration_line_removed_witness :
  remove_unused_simple
    ((t "// setup" ++ [nl]) ++ t "  "
     ++ simple_declaration (t "let") (t "tmp") (t "compute(1)")
     ++ t " // scratch" ++ (nl :: t "run();" ++ [nl]))
  = (t "// setup" ++ [nl]) ++ t "run();" ++ [nl].
Proof.
  apply (@dead_declaration_line_removed (t "// setup" ++ [nl]) (t "  ")
           (t "let") (t "tmp") (t "compute(1)") (t " // scratch")
           (nl :: t "run();" ++ [nl]));
    try reflexivity.
  right; left; reflexivity.
Defined.

(** ** One rewrite by [re.sub] inside a buffer *)

Lemma sub_from_inert_of (re : regex) (tpl : template) (P : text -> bool)
      (pre rest : text) :
  (forall prev s, P s = false -> match_here re prev s = None) ->
  inert P pre rest = true ->
  forall prev,
    sub_from re tpl 0 prev (pre ++ rest)
    = pre ++ sub_from re tpl 0 (last_char pre prev) rest.
Proof.
  intros H. induction pre as [|c pre IH]; intros Hi prev.
  - reflexivity.
  - cbn [inert] in Hi. apply andb_true_iff in Hi as [Hs Hi].
    apply negb_true_iff in Hs.
    change ((c :: pre) ++ rest) with (c :: pre ++ rest) in *.
    cbn [sub_from]. rewrite (H _ _ Hs).
    rewrite last_char_cons. cbn [app]. f_equal. now apply IH.
Qed.

Lemma sub_from_nowhere (re : regex) (tpl : template) (P : text -> bool) :
  (forall prev s, P s = false -> match_here re prev s = None) ->
  forall s prev, nowhere P s = true -> sub_from re tpl 0 prev s = s.
Proof.
  intros H. induction s as [|c s IH]; intros prev Hn.
  - cbn [nowhere] in Hn. apply andb_true_iff in Hn as [Hs _].
    apply negb_true_iff in Hs. cbn [sub_from]. now rewrite (H _ _ Hs).
  - cbn [nowhere] in Hn. apply andb_true_iff in Hn as [Hs Hn].
    apply negb_true_iff in Hs. cbn [sub_from]. rewrite (H _ _ Hs).
    f_equal. now apply IH.
Qed.

Lemma re_sub_single (re : regex) (tpl : template) (P : text -> bool)
      (pre call post : text) (g : caps) :
  (forall prev s, P s = false -> match_here re prev s = None) ->
  inert P pre (call ++ post) = true ->
  call <> [] ->
  match_here re (last_char pre None) (call ++ post) = Some (g, post) ->
  nowhere P post = true ->
  re_sub re tpl (pre ++ call ++ post) = pre ++ expand tpl g ++ post.
Proof.
  intros H Hi Hne Hm Hp. unfold re_sub.
  rewrite (sub_from_inert_of re tpl P pre (call ++ post) H Hi).
  f_equal. destruct call as [|c call]; [congruence|].
  change ((c :: call) ++ post) with (c :: call ++ post) in *.
  cbn [sub_from]. rewrite Hm.
  replace (length (c :: call ++ post) - length post) with (S (length call))
    by (cbn [length]; rewrite length_app; lia).
  f_equal. rewrite sub_from_skip. now apply (sub_from_nowhere re tpl P H).
Qed.

Lemma starts_prefix (a b s : text) :
  starts a s = false -> strip_prefix (a ++ b) s = None.
Proof.
  unfold starts. revert s. induction a as [|x a IH]; intros s; cbn [app strip_prefix].
  - discriminate.
  - destruct s as [|c s]; [reflexivity|].
    destruct (Ascii.eqb x c); [apply IH|reflexivity].
Qed.

Lemma literal_search (lit s : text) :
  contains lit s = false -> re_search [Str lit] s = false.
Proof.
  intros H. apply contains_false_nowhere in H. unfold re_search, finditer.
  rewrite (@finditer_from_nowhere [Str lit] (starts lit)); [reflexivity| |assumption].
  intros prev x Hx. unfold match_here. cbn [match_atoms].
  unfold starts in Hx. now destruct (strip_prefix lit x).
Qed.

(** ** The React import ([fix-common-unused.py], Pattern 1) *)

Lemma react_import_app (names post : text) :
  react_import names ++ post
  = t "import React, " ++ t "{" ++ names ++ t "}" ++ t " from 'react';" ++ post.
Proof. unfold react_import. rewrite <- !app_assoc. reflexivity. Qed.

Lemma react_import_needs_head (prev : option ascii) (s : text) :
  starts (t "import React") s = false ->
  match_here react_import_pattern prev s = None.
Proof.
  intros H. unfold match_here, react_import_pattern. cbn [match_atoms].
  change (t "import React, ") with (t "import React" ++ t ", ").
  now rewrite (@starts_prefix _ (t ", ") _ H).
Qed.

Lemma react_sub_needs_head (prev : option ascii) (s : text) :
  starts (t "import React") s = false ->
  match_here react_sub_pattern prev s = None.
Proof.
  intros H. unfold match_here, react_sub_pattern. cbn [match_atoms].
  change (t "import React, ") with (t "import React" ++ t ", ").
  now rewrite (@starts_prefix _ (t ", ") _ H).
Qed.

Lemma react_import_match (names post : text) (prev : option ascii) :
  forallb (fun c => negb (in_text c (t "}"))) names = true ->
  match_here react_import_pattern prev (react_import names ++ post)
  = Some (no_caps, post).
Proof.
  intros H. rewrite react_import_app. unfold match_here, react_import_pattern.
  rewrite !match_Str.
  apply (@match_Star_greedy _ _ _ (NoneOf (t "}")) names);
    [exact H|reflexivity|].
  rewrite match_Str. now rewrite match_Str.
Qed.

Lemma react_sub_match (names post : text) (prev : option ascii) :
  forallb (fun c => negb (in_text c (t "}"))) names = true ->
  match_here react_sub_pattern prev (react_import names ++ post)
  = Some (close_group 1 (t " from 'react';" ++ post)
            (open_group 1 ((t "{" ++ names ++ t "}") ++ t " from 'react';" ++ post)
               no_caps),
          post).
Proof.
  intros H. rewrite react_import_app. rewrite <- !app_assoc.
  unfold match_here, react_sub_pattern.
  rewrite match_Str, match_Open, match_Str.
  apply (@match_Star_greedy _ _ _ (NoneOf (t "}")) names);
    [exact H|reflexivity|].
  rewrite match_Str, match_Close. now rewrite match_Str.
Qed.

(** X16.  An import line [import React, {names} from 'react';] in a buffer
    that holds no other [import React] and no [React.] is rewritten in place
    to [import {names} from \'react\';]: the name [React] goes, the braces
    and what they hold stay, and each quote of the module name comes back
    with a backslash in front of it.  The step counts one fix. *)
Theorem react_import_rewritten (pre names post : text) :
  forallb (fun c => negb (in_text c (t "}"))) names = true ->
  contains (t "import React") pre = false ->
  contains (t "import React") post = false ->
  contains (t "React.") (pre ++ react_import names ++ post) = false ->
  remove_react_import (pre ++ react_import names ++ post)
  = (pre ++ t "import {" ++ names ++ t "} from \'react\';" ++ post, 1).
Proof.
  intros Hn Hpre Hpost Hdot.
  assert (Hi : inert (starts (t "import React")) pre (react_import names ++ post) = true)
    by (apply inert_contains; [assumption|reflexivity]).
  assert (Hp : nowhere (starts (t "import React")) post = true)
    by now apply contains_false_nowhere.
  assert (Hne : react_import names <> []) by (unfold react_import; discriminate).
  unfold remove_react_import.
  replace (contains (t "import React") (pre ++ react_import names ++ post)) with true.
  2:{ symmetry.
      change (react_import names ++ post)
        with (t "import React" ++ (t ", {" ++ names ++ t "} from 'react';") ++ post).
      apply contains_app_lit. }
  unfold react_member_pattern. rewrite (@literal_search _ _ Hdot). cbn [negb andb].
  unfold re_search.
  rewrite (@finditer_single react_import_pattern (starts (t "import React"))
             pre (react_import names) post no_caps
             react_import_needs_head Hi Hne (@react_import_match names post _ Hn) Hp).
  rewrite (@re_sub_single react_sub_pattern react_replacement
             (starts (t "import React")) pre (react_import names) post _
             react_sub_needs_head Hi Hne (@react_sub_match names post _ Hn) Hp).
  f_equal. f_equal. unfold react_replacement. cbn [expand].
  rewrite group_close_open. rewrite <- !app_assoc. reflexivity.
Qed.

Lemma react_import_rewritten_witness :
  remove_react_import
    ((t "// ui" ++ [nl]) ++ react_import (t " useState, useEffect ")
     ++ (nl :: t "export default function App() {}"))
  = ((t "// ui" ++ [nl]) ++ t "import { useState, useEffect } from \'react\';"
     ++ (nl :: t "export default function App() {}"), 1).
Proof.
  apply (@react_import_rewritten (t "// ui" ++ [nl]) (t " useState, useEffect ")
           (nl :: t "export default function App() {}"));
    reflexivity.
Defined.

(** ** Processing one file *)

Lemma nowhere_app (P : text -> bool) (a b : text) :
  inert P a b = true -> nowhere P b = true -> nowhere P (a ++ b) = true.
Proof.
  induction a as [|c a IH]; cbn [inert]; intros Hi Hn; [exact Hn|].
  apply andb_true_iff in Hi as [Hc Hi].
  change ((c :: a) ++ b) with (c :: a ++ b) in *. cbn [nowhere].
  rewrite Hc. cbn [andb]. now apply IH.
Qed.

Lemma inert_without_c (a b : text) :
  in_text "c" a = false -> inert (starts (t "console.")) a b = true.
Proof.
  unfold in_text. induction a as [|x a IH]; cbn [existsb inert]; intros H;
    [reflexivity|].
  apply orb_false_iff in H as [Hx H]. rewrite (IH H), andb_true_r.
  unfold starts. change (t "console.") with ("c"%char :: t "onsole.").
  cbn [app strip_prefix]. now rewrite Hx.
Qed.

(** No [console.] begins in [a ++ msg ++ b ++ post] when [a] and [b] are
    free of the letter c and [msg] and [post] of the text [console.]. *)
Lemma nowhere_call_text (a msg b post : text) :
  in_text "c" a = false -> in_text "c" b = false ->
  no_border_of (t "console.") (b ++ post) = true ->
  contains (t "console.") msg = false ->
  contains (t "console.") post = false ->
  nowhere (starts (t "console.")) (a ++ msg ++ b ++ post) = true.
Proof.
  intros Ha Hb Hbd Hm Hp.
  apply nowhere_app; [now apply inert_without_c|].
  apply nowhere_app; [now apply inert_contains|].
  apply nowhere_app; [now apply inert_without_c|].
  now apply contains_false_nowhere.
Qed.

Lemma console_needs_head (prev : option ascii) (s : text) :
  starts (t "console.") s = false -> match_here console_pattern prev s = None.
Proof.
  unfold starts, match_here, console_pattern. cbn [match_atoms].
  now destruct (strip_prefix (t "console.") s).
Qed.

Lemma console_head_match (callee rest : text) (prev : option ascii) :
  In callee [t "error"; t "warn"; t "info"; t "log"] ->
  exists g,
    match_here console_pattern prev ((t "console." ++ callee) ++ rest)
    = Some (g, rest).
Proof.
  intros Hc.
  destruct Hc as [<-|[<-|[<-|[<-|[]]]]];
    eexists; unfold match_here, console_pattern;
    rewrite <- app_assoc, match_Str, match_Open;
    (apply match_Alt_some;
     [ intros lit s' Hin Hs;
       destruct Hin as [<-|[<-|[<-|[<-|[]]]]];
       first [ rewrite strip_prefix_app in Hs; injection Hs as <-;
               rewrite match_Close; reflexivity
             | cbv in Hs; discriminate Hs ]
     | eexists; split; [|now rewrite strip_prefix_app]; cbn [In]; auto ]).
Qed.

Lemma one_arg_in_place (callee : text) (q : ascii) (pre msg post : text) :
  In callee [t "error"; t "warn"; t "info"; t "log"] ->
  is_quote q = true ->
  forallb (cls_mem not_quote) msg = true ->
  contains (t "console.") pre = false ->
  contains (t "console.") msg = false ->
  contains (t "console.") post = false ->
  fold_left apply_rule rules (pre ++ one_arg_call callee q msg ++ post)
  = pre ++ logger_call (migrated_level callee msg) msg ++ post.
Proof.
  intros Hc Hq Hm Hpre Hmsg Hpost.
  destruct Hc as [<-|[<-|[<-|[<-|[]]]]].
  - now apply error_one_arg_in_place.
  - now apply warn_one_arg_in_place.
  - now apply info_one_arg_in_place.
  - now apply log_one_arg_in_place.
Qed.

Lemma one_call_found (callee : text) (q : ascii) (pre msg post : text) :
  In callee [t "error"; t "warn"; t "info"; t "log"] ->
  is_quote q = true ->
  contains (t "console.") pre = false ->
  contains (t "console.") msg = false ->
  contains (t "console.") post = false ->
  length (finditer console_pattern (pre ++ one_arg_call callee q msg ++ post)) = 1.
Proof.
  intros Hc Hq Hpre Hmsg Hpost.
  destruct (@console_head_match callee
              ((t "(" ++ [q]) ++ msg ++ (q :: t ")") ++ post)
              (last_char pre None) Hc) as (g & Hg).
  rewrite one_arg_call_app.
  change (t "(" ++ q :: msg ++ q :: t ")" ++ post)
    with ((t "(" ++ [q]) ++ msg ++ (q :: t ")") ++ post).
  rewrite (@finditer_single console_pattern (starts (t "console.")) pre
             (t "console." ++ callee) _ g console_needs_head); try assumption.
  - reflexivity.
  - apply inert_contains; [assumption|reflexivity].
  - discriminate.
  - destruct (quote_cases q Hq) as [-> | ->];
      apply nowhere_call_text; auto; reflexivity.
Qed.

Lemma no_call_left (level : text) (pre msg post : text) :
  In level [t "error"; t "warn"; t "info"; t "debug"] ->
  contains (t "console.") pre = false ->
  contains (t "console.") msg = false ->
  contains (t "console.") post = false ->
  finditer console_pattern (pre ++ logger_call level msg ++ post) = [].
Proof.
  intros Hl Hpre Hmsg Hpost. unfold finditer.
  apply (@finditer_from_nowhere console_pattern (starts (t "console."))
           console_needs_head).
  apply nowhere_app.
  - apply inert_contains; [assumption|].
    destruct Hl as [<-|[<-|[<-|[<-|[]]]]]; reflexivity.
  - replace (logger_call level msg ++ post)
      with ((t "logger." ++ level ++ t "(" ++ [dq]) ++ msg ++ (dq :: t ")") ++ post)
      by (unfold logger_call; repeat (rewrite <- app_assoc; cbn [app]);
          reflexivity).
    destruct Hl as [<-|[<-|[<-|[<-|[]]]]];
      apply nowhere_call_text; auto; reflexivity.
Qed.

Lemma migrated_level_cases (callee msg : text) :
  In callee [t "error"; t "warn"; t "info"; t "log"] ->
  In (migrated_level callee msg) [t "error"; t "warn"; t "info"; t "debug"].
Proof.
  intros Hc. unfold migrated_level.
  destruct Hc as [<-|[<-|[<-|[<-|[]]]]]; cbn [starts strip_prefix t];
    try (cbn; auto; fail).
  change (starts (t "log") (t "log")) with true. cbn iota.
  destruct (has_keyword msg); cbn [In]; auto.
Qed.

(** The outcome of [process_file] when the file has no [import], one
    console statement is counted before and none after the rewrite. *)
Lemma process_file_steps (self : migrator) (file written : text) :
  contains (t "import") file = false ->
  length (finditer console_pattern file) = 1 ->
  fold_left apply_rule rules (logger_import ++ [nl; nl] ++ file) = written ->
  finditer console_pattern written = [] ->
  process_file self file
  = (mkMigrator (total_files self) (modified_files self + 1)
                (console_statements_fixed self + 1),
     Some written, true).
Proof.
  intros Himp Hone Hw Hnone.
  unfold process_file, has_console_statements, re_search, count_console.
  destruct (finditer console_pattern file) as [|m [|m' ms]] eqn:Ef;
    try discriminate Hone.
  cbn [negb length].
  unfold add_logger_import. rewrite (@guard_needs_import _ Himp).
  unfold findall1, finditer at 1.
  rewrite (finditer_from_nowhere _ _ import_needs_text)
    by now apply contains_false_nowhere.
  cbn [map rev]. unfold replace_console_statements.
  rewrite Hw, Hnone. cbn [length].
  change (Z.of_nat 1 - Z.of_nat 0 >? 0)%Z with true. cbn iota.
  reflexivity.
Qed.

(** X17.  A file without the text [import] whose only mention of
    [console.] is one call of [console.error], [console.warn],
    [console.info] or [console.log] with one string literal is written back
    with the logger import as its first line, an empty line, and the old
    content in which the call is rewritten where it stands; the file counts
    as modified and one statement as fixed. *)
Theorem process_file_migrates_call (self : migrator) (callee : text) (q : ascii)
        (pre msg post : text) :
  In callee [t "error"; t "warn"; t "info"; t "log"] ->
  is_quote q = true ->
  forallb (cls_mem not_quote) msg = true ->
  contains (t "console.") pre = false ->
  contains (t "console.") msg = false ->
  contains (t "console.") post = false ->
  contains (t "import") (pre ++ one_arg_call callee q msg ++ post) = false ->
  process_file self (pre ++ one_arg_call callee q msg ++ post)
  = (mkMigrator (total_files self) (modified_files self + 1)
                (console_statements_fixed self + 1),
     Some (logger_import ++ [nl; nl] ++ pre
           ++ logger_call (migrated_level callee msg) msg ++ post),
     true).
Proof.
  intros Hc Hq Hm Hpre Hmsg Hpost Himp.
  apply process_file_steps.
  - exact Himp.
  - now apply one_call_found.
  - exact (@one_arg_in_place callee q (logger_import ++ nl :: nl :: pre) msg post
             Hc Hq Hm Hpre Hmsg Hpost).
  - exact (@no_call_left (migrated_level callee msg)
             (logger_import ++ nl :: nl :: pre) msg post
             (@migrated_level_cases callee msg Hc) Hpre Hmsg Hpost).
Qed.

Lemma process_file_migrates_call_witness :
  process_file (mkMigrator 3 1 4)
    (t "function f() { " ++ one_arg_call (t "warn") sq (t "slow request")
     ++ t "; }")
  = (mkMigrator 3 2 5,
     Some (logger_import ++ [nl; nl] ++ t "function f() { "
           ++ logger_call (t "warn") (t "slow request") ++ t "; }"),
     true).
Proof.
  apply (@process_file_migrates_call (mkMigrator 3 1 4) (t "warn") sq
           (t "function f() { ") (t "slow request") (t "; }"));
    try reflexivity.
  right; left; reflexivity.
Defined.

(** ** A file that no rule rewrites *)

Lemma finditer_from_length (re : regex) :
  (forall prev prev' s, match_here re prev s = match_here re prev' s) ->
  forall s skip pos pos' prev prev',
    length (finditer_from re skip pos prev s)
    = length (finditer_from re skip pos' prev' s).
Proof.
  intros H. induction s as [|c s IH]; intros skip pos pos' prev prev'.
  - cbn [finditer_from]. destruct skip; [|reflexivity].
    rewrite (H prev prev'). now destruct (match_here re prev' []) as [[g r]|].
  - cbn [finditer_from]. destruct skip as [|k]; [|apply IH].
    rewrite (H prev prev').
    destruct (match_here re prev' (c :: s)) as [[g r]|]; [|apply IH].
    cbn [length]. f_equal. apply IH.
Qed.

Lemma console_pattern_blind (prev prev' : option ascii) (s : text) :
  match_here console_pattern prev s = match_here console_pattern prev' s.
Proof.
  unfold match_here, console_pattern. cbn [match_atoms].
  destruct (strip_prefix (t "console.") s) as [s'|]; [|reflexivity].
  cbn [alt_loop match_atoms].
  repeat (match goal with
          | |- context [strip_prefix ?l s'] => destruct (strip_prefix l s')
          end; try reflexivity).
Qed.

Lemma count_console_after_import (content : text) :
  count_console (logger_import ++ [nl; nl] ++ content) = count_console content.
Proof.
  unfold count_console, finditer. f_equal.
  change (logger_import ++ [nl; nl] ++ content)
    with ((logger_import ++ [nl; nl]) ++ content).
  rewrite (@finditer_from_inert console_pattern (starts (t "console."))
             (logger_import ++ [nl; nl]) content console_needs_head)
    by (apply inert_without_c; reflexivity).
  apply finditer_from_length. exact console_pattern_blind.
Qed.

Lemma quiet_after_import (content : text) :
  quiet content = true -> quiet (logger_import ++ [nl; nl] ++ content) = true.
Proof. intros H. exact H. Qed.

(** X18.  A file without the text [import] in which no rule can match
    (wherever [console.] begins, fewer than two quote characters follow) is
    never written: [process_file] returns [False] and leaves the counters as
    they are, whether the file mentions [console.log] and the like or
    not. *)
Theorem process_file_leaves_quiet_file (self : migrator) (content : text) :
  quiet content = true ->
  contains (t "import") content = false ->
  process_file self content = (self, None, false).
Proof.
  intros Hq Himp. unfold process_file.
  destruct (has_console_statements content); [|reflexivity]. cbn [negb].
  unfold add_logger_import. rewrite (@guard_needs_import _ Himp).
  unfold findall1, finditer at 1.
  rewrite (finditer_from_nowhere _ _ import_needs_text)
    by now apply contains_false_nowhere.
  cbn [map rev]. unfold replace_console_statements.
  rewrite (@rules_quiet rules (logger_import ++ [nl; nl] ++ content)
             (incl_refl _) (@quiet_after_import content Hq)).
  rewrite count_console_after_import, Z.sub_diag. reflexivity.
Qed.

Lemma process_file_leaves_quiet_file_witness :
  process_file (mkMigrator 7 2 9) (t "console.log(total);" ++ [nl])
  = (mkMigrator 7 2 9, None, false).
Proof.
  apply (@process_file_leaves_quiet_file (mkMigrator 7 2 9)
           (t "console.log(total);" ++ [nl]));
    reflexivity.
Defined.

(** X19.  The content that [process_file] writes for such a file is settled:
    a later call on it, whatever the counters then are, writes nothing,
    returns [False] and leaves the counters as they are. *)
Theorem migrated_file_is_settled (self self' : migrator) (callee : text)
        (q : ascii) (pre msg post : text) :
  In callee [t "error"; t "warn"; t "info"; t "log"] ->
  is_quote q = true ->
  forallb (cls_mem not_quote) msg = true ->
  contains (t "console.") pre = false ->
  contains (t "console.") msg = false ->
  contains (t "console.") post = false ->
  contains (t "import") (pre ++ one_arg_call callee q msg ++ post) = false ->
  exists content',
    snd (fst (process_file self (pre ++ one_arg_call callee q msg ++ post)))
    = Some content' /\
    process_file self' content' = (self', None, false).
Proof.
  intros Hc Hq Hm Hpre Hmsg Hpost Himp.
  rewrite (@process_file_steps self (pre ++ one_arg_call callee q msg ++ post)
             (logger_import ++ [nl; nl] ++ pre
              ++ logger_call (migrated_level callee msg) msg ++ post)
             Himp
             (@one_call_found callee q pre msg post Hc Hq Hpre Hmsg Hpost)
             (@one_arg_in_place callee q (logger_import ++ nl :: nl :: pre)
                msg post Hc Hq Hm Hpre Hmsg Hpost)
             (@no_call_left (migrated_level callee msg)
                (logger_import ++ nl :: nl :: pre) msg post
                (@migrated_level_cases callee msg Hc) Hpre Hmsg Hpost)).
  cbn [fst snd]. eexists. split; [reflexivity|].
  unfold process_file, has_console_statements, re_search.
  change (logger_import ++ [nl; nl] ++ pre
          ++ logger_call (migrated_level callee msg) msg ++ post)
    with ((logger_import ++ nl :: nl :: pre)
          ++ logger_call (migrated_level callee msg) msg ++ post).
  now rewrite (@no_call_left (migrated_level callee msg)
                 (logger_import ++ nl :: nl :: pre) msg post
                 (@migrated_level_cases callee msg Hc) Hpre Hmsg Hpost).
Qed.

Lemma migrated_file_is_settled_witness :
  exists content',
    snd (fst (process_file (mkMigrator 3 1 4)
                (t "try { run(); } catch (e) { "
                 ++ one_arg_call (t "log") dq (t "Process failed") ++ t "; }")))
    = Some content' /\
    process_file (mkMigrator 3 2 5) content' = (mkMigrator 3 2 5, None, false).
Proof.
  apply (@migrated_file_is_settled (mkMigrator 3 1 4) (mkMigrator 3 2 5)
           (t "log") dq (t "try { run(); } catch (e) { ")
           (t "Process failed") (t "; }"));
    try reflexivity.
  right; right; right; left; reflexivity.
Defined.

(** ** The logger import after an import statement *)

Lemma split_before_last (A : Type) (body a' b' : list A) (x : A) :
  body ++ [x] = a' ++ b' -> b' <> [] ->
  exists w', b' = w' ++ [x] /\ body = a' ++ w'.
Proof.
  intros H Hne. destruct (exists_last Hne) as (w' & y & ->).
  rewrite app_assoc in H. apply app_inj_tail in H as [-> ->]. now exists w'.
Qed.

Lemma import_part_app (a b : text) :
  import_part (a ++ b) = import_part a && import_part b.
Proof. unfold import_part. apply forallb_app. Qed.

Lemma import_part_no_newline (w : text) (p : cls) :
  import_part w = true -> p = Dot \/ p = NoneOf [nl] ->
  forallb (cls_mem p) w = true.
Proof.
  unfold import_part. intros H Hp. rewrite forallb_forall in *. intros c Hc.
  specialize (H c Hc). cbn [in_text existsb] in H.
  apply negb_true_iff in H. apply orb_false_iff in H as [H _].
  destruct Hp as [-> | ->]; cbn [cls_mem in_text existsb]; now rewrite H.
Qed.

Lemma import_part_head (w rest : text) :
  import_part w = true -> starts (t ";") (w ++ rest) = true -> w = [].
Proof.
  destruct w as [|c w]; [reflexivity|]. unfold import_part, starts.
  cbn [forallb in_text existsb app t list_ascii_of_string strip_prefix].
  intros H. apply andb_true_iff in H as [H _]. apply negb_true_iff in H.
  apply orb_false_iff in H as [_ H]. apply orb_false_iff in H as [H _].
  rewrite Ascii.eqb_sym in H. rewrite H. discriminate.
Qed.

Lemma newlines_cases (nls : text) :
  newlines nls = true ->
  (exists n, nls = nl :: n) /\ forallb (cls_mem (OneOf [nl])) nls = true.
Proof.
  unfold newlines. intros H. apply andb_true_iff in H as [Hn Hf].
  split; [|exact Hf]. destruct nls as [|c n]; [discriminate|].
  cbn [forallb in_text existsb] in Hf. apply andb_true_iff in Hf as [Hc _].
  apply orb_true_iff in Hc as [Hc|Hc]; [|discriminate].
  apply Ascii.eqb_eq in Hc. subst c. now exists n.
Qed.

Lemma newlines_then_close (g : caps) (prev : option ascii) (nls rest : text) :
  newlines nls = true -> after_newlines rest = true ->
  match_atoms [Star (OneOf [nl]); Close 1] g prev (nls ++ rest)
  = Some (close_group 1 rest g, rest).
Proof.
  intros Hn Hr. destruct (@newlines_cases nls Hn) as (_ & Hf).
  apply (@match_Star_greedy _ _ _ (OneOf [nl]) nls); [exact Hf|exact Hr|].
  reflexivity.
Qed.

(** From the end of the module name on: the rest of the line up to its
    semicolon, the semicolon and the newlines after it. *)
Lemma import_tail_match (g : caps) (prev : option ascii) (w nls rest : text) :
  import_part w = true -> newlines nls = true -> after_newlines rest = true ->
  match_atoms [Star (NoneOf [nl]); Str (t ";"); Star (OneOf [nl]); Close 1]
    g prev (w ++ t ";" ++ nls ++ rest)
  = Some (close_group 1 rest g, rest).
Proof.
  intros Hw Hn Hr. destruct (@newlines_cases nls Hn) as ((n & En) & Hf).
  rewrite app_assoc.
  apply (@match_Star_agree _ _ _ (NoneOf [nl]) (w ++ t ";") (nls ++ rest)).
  - rewrite forallb_app. rewrite (@import_part_no_newline w (NoneOf [nl]) Hw (or_intror eq_refl)).
    reflexivity.
  - rewrite En. reflexivity.
  - intros a' b' r' Hab Hk.
    destruct b' as [|c b'].
    + rewrite En in Hk. cbn [app match_atoms t list_ascii_of_string strip_prefix] in Hk.
      change (Ascii.eqb ";" nl) with false in Hk. discriminate.
    + destruct (@split_before_last _ w a' (c :: b') ";"%char Hab ltac:(discriminate))
        as (w' & Eb & Ew).
      rewrite Eb, <- app_assoc in Hk.
      change [";"%char] with (t ";") in Hk.
      assert (Hw' : import_part w' = true).
      { rewrite Ew, import_part_app in Hw. now apply andb_true_iff in Hw. }
      assert (E : w' = []).
      { apply (@import_part_head w' (t ";" ++ nls ++ rest) Hw').
        unfold starts.
        destruct (strip_prefix (t ";") (w' ++ t ";" ++ nls ++ rest)) eqn:E0;
          [reflexivity|].
        cbn [match_atoms] in Hk. rewrite E0 in Hk. discriminate. }
      subst w'. cbn [app] in Hk.
      rewrite match_Str, (@newlines_then_close g _ nls rest Hn Hr) in Hk.
      now inversion Hk.
  - exists w, (t ";"). split; [reflexivity|].
    rewrite match_Str. now apply newlines_then_close.
Qed.

Lemma match_Str_inv (re : regex) (g : caps) (prev : option ascii)
      (lit s : text) (r : caps * text) :
  match_atoms (Str lit :: re) g prev s = Some r ->
  exists s', strip_prefix lit s = Some s' /\
             match_atoms re g (last_char lit prev) s' = Some r.
Proof.
  cbn [match_atoms]. destruct (strip_prefix lit s) as [s'|]; [|discriminate].
  intros H. now exists s'.
Qed.

Lemma import_line_match (prev : option ascii) (a b nls rest : text) :
  import_part a = true -> import_part b = true ->
  newlines nls = true -> after_newlines rest = true ->
  match_here import_pattern prev ((import_line a b ++ nls) ++ rest)
  = Some (close_group 1 rest
            (open_group 1 ((import_line a b ++ nls) ++ rest) no_caps),
          rest).
Proof.
  intros Ha Hb Hn Hr. destruct (@newlines_cases nls Hn) as ((n & En) & Hf).
  unfold match_here, import_pattern. rewrite match_Open.
  set (G := open_group 1 ((import_line a b ++ nls) ++ rest) no_caps).
  replace ((import_line a b ++ nls) ++ rest)
    with (t "import" ++ ((a ++ t "from" ++ b) ++ t ";") ++ nls ++ rest)
    by (unfold import_line; rewrite <- !app_assoc; reflexivity).
  rewrite match_Str.
  assert (Hbody : import_part (a ++ t "from" ++ b) = true).
  { rewrite !import_part_app, Ha, Hb. reflexivity. }
  apply (@match_Star_agree _ _ _ Dot ((a ++ t "from" ++ b) ++ t ";") (nls ++ rest)).
  - rewrite forallb_app.
    rewrite (@import_part_no_newline _ Dot Hbody (or_introl eq_refl)).
    reflexivity.
  - rewrite En. reflexivity.
  - intros a' b' r' Hab Hk.
    destruct b' as [|c b'].
    + rewrite En in Hk. cbn [app match_atoms t list_ascii_of_string strip_prefix] in Hk.
      change (Ascii.eqb "f" nl) with false in Hk. discriminate.
    + destruct (@split_before_last _ (a ++ t "from" ++ b) a' (c :: b') ";"%char
                  Hab ltac:(discriminate)) as (w' & Eb & Ew).
      rewrite Eb, <- app_assoc in Hk.
      assert (Hw' : import_part w' = true).
      { rewrite Ew, import_part_app in Hbody. now apply andb_true_iff in Hbody. }
      apply match_Str_inv in Hk as (u & Eu & Hk).
      change ([";"%char] ++ nls ++ rest) with (";"%char :: nls ++ rest) in Eu.
      destruct (@strip_prefix_before (t "from") w' (nls ++ rest) u ";"%char
                  eq_refl Eu) as (w'' & Ew' & Eu').
      subst u.
      assert (Hw'' : import_part w'' = true).
      { rewrite Ew', import_part_app in Hw'. now apply andb_true_iff in Hw'. }
      change (w'' ++ ";"%char :: nls ++ rest) with (w'' ++ t ";" ++ nls ++ rest) in Hk.
      rewrite (@import_tail_match G _ w'' nls rest Hw'' Hn Hr) in Hk.
      now inversion Hk.
  - exists a, (t "from" ++ b ++ t ";"). split.
    + now rewrite <- !app_assoc.
    + rewrite <- !app_assoc. rewrite match_Str. now apply import_tail_match.
Qed.

(** [str.rfind] of a text that occurs once. *)
Lemma rfind_text_none (needle : text) (P : text -> bool) (s : text) :
  (forall x, P x = false -> strip_prefix needle x = None) ->
  nowhere P s = true -> rfind_text needle s = None.
Proof.
  intros H. induction s as [|c s IH]; cbn [nowhere rfind_text]; intros Hn.
  - apply andb_true_iff in Hn as [Hn _]. apply negb_true_iff in Hn.
    specialize (H _ Hn). destruct needle; [discriminate|reflexivity].
  - apply andb_true_iff in Hn as [Hc Hn]. apply negb_true_iff in Hc.
    now rewrite (IH Hn), (H _ Hc).
Qed.

Lemma rfind_text_app (needle pre s : text) (i : nat) :
  rfind_text needle s = Some i ->
  rfind_text needle (pre ++ s) = Some (length pre + i).
Proof.
  intros H. induction pre as [|c pre IH]; [exact H|].
  cbn [app rfind_text length]. now rewrite IH.
Qed.

Lemma rfind_text_once (needle : text) (P : text -> bool) (pre post : text) :
  (forall x, P x = false -> strip_prefix needle x = None) ->
  nowhere P (tl (needle ++ post)) = true ->
  needle <> [] ->
  rfind needle (pre ++ needle ++ post) = Z.of_nat (length pre).
Proof.
  intros H Hn Hne. unfold rfind.
  rewrite (@rfind_text_app needle pre (needle ++ post) 0).
  - now rewrite Nat.add_0_r.
  - destruct needle as [|c needle]; [congruence|].
    change ((c :: needle) ++ post) with (c :: needle ++ post) in *.
    cbn [tl] in Hn. cbn [rfind_text].
    rewrite (@rfind_text_none (c :: needle) P (needle ++ post) H Hn).
    change (c :: needle ++ post) with ((c :: needle) ++ post).
    now rewrite strip_prefix_app.
Qed.

Lemma nowhere_app_r (P : text -> bool) (x y : text) :
  nowhere P (x ++ y) = true -> nowhere P y = true.
Proof.
  induction x as [|c x IH]; [auto|]. cbn [app nowhere]. intros H.
  apply andb_true_iff in H as [_ H]. now apply IH.
Qed.

Lemma slice_at (pre call post : text) :
  slice_to (Z.of_nat (length pre) + Z.of_nat (length call)) (pre ++ call ++ post)
  = pre ++ call /\
  slice_from (Z.of_nat (length pre) + Z.of_nat (length call)) (pre ++ call ++ post)
  = post.
Proof.
  unfold slice_to, slice_from, slice_index.
  destruct (Z.ltb_spec (Z.of_nat (length pre) + Z.of_nat (length call)) 0); [lia|].
  replace (Z.to_nat (Z.of_nat (length pre) + Z.of_nat (length call)))
    with (length (pre ++ call)) by (rewrite length_app; lia).
  rewrite app_assoc. split.
  - now rewrite firstn_app, firstn_all, Nat.sub_diag, app_nil_r.
  - now rewrite skipn_app, skipn_all, Nat.sub_diag.
Qed.

(** X20.  In a file whose only [import] is one statement [import a from b;]
    on a line, followed by one or more newlines, the logger import goes
    after that statement and after all the newlines that follow it, with
    one newline of its own: blank lines that stood between the import and
    the code now stand between the two imports, and the code follows the
    logger import directly. *)
Theorem logger_import_follows_import (header a b nls rest : text) :
  import_part a = true ->
  import_part b = true ->
  newlines nls = true ->
  after_newlines rest = true ->
  contains (t "import") header = false ->
  contains (t "import") (a ++ t "from" ++ b ++ t ";" ++ nls ++ rest) = false ->
  contains import_guard (header ++ import_line a b ++ nls ++ rest) = false ->
  add_logger_import (header ++ import_line a b ++ nls ++ rest)
  = (header ++ import_line a b ++ nls ++ logger_import ++ [nl] ++ rest, true).
Proof.
  intros Ha Hb Hn Hr Hh Hafter Hguard.
  unfold add_logger_import. rewrite Hguard.
  replace (header ++ import_line a b ++ nls ++ rest)
    with (header ++ (import_line a b ++ nls) ++ rest)
    by now rewrite <- (app_assoc (import_line a b)).
  apply contains_false_nowhere in Hafter.
  assert (Hrest : nowhere (starts (t "import")) rest = true).
  { apply (@nowhere_app_r _ (a ++ t "from" ++ b ++ t ";" ++ nls)).
    now rewrite <- !app_assoc. }
  assert (Htl : nowhere (starts (t "import"))
                  (tl ((import_line a b ++ nls) ++ rest)) = true).
  { replace (tl ((import_line a b ++ nls) ++ rest))
      with (t "mport" ++ a ++ t "from" ++ b ++ t ";" ++ nls ++ rest)
      by (unfold import_line; rewrite <- !app_assoc; reflexivity).
    apply nowhere_app; [reflexivity|assumption]. }
  assert (Hhead : forall x, starts (t "import") x = false ->
                            strip_prefix (import_line a b ++ nls) x = None).
  { intros x Hx. unfold import_line. rewrite <- app_assoc.
    now apply starts_prefix. }
  assert (Hne : import_line a b ++ nls <> []) by (unfold import_line; discriminate).
  assert (Hin : inert (starts (t "import")) header
                  ((import_line a b ++ nls) ++ rest) = true)
    by (apply inert_contains; [assumption|reflexivity]).
  unfold findall1.
  rewrite (@finditer_single import_pattern (starts (t "import")) header
             (import_line a b ++ nls) rest _ import_needs_text
             Hin Hne
             (@import_line_match _ a b nls rest Ha Hb Hn Hr) Hrest).
  cbn [map rev app m_caps]. rewrite group_close_open.
  rewrite (@rfind_text_once _ (starts (t "import")) header rest Hhead Htl Hne).
  destruct (slice_at header (import_line a b ++ nls) rest) as [-> ->].
  rewrite <- !app_assoc. reflexivity.
Qed.

Lemma logger_import_follows_import_witness :
  add_logger_import
    (t "// app" ++ [nl]
     ++ import_line (t " { fromEvent } ") (t " 'rxjs'") ++ [nl; nl]
     ++ t "console.log('x');" ++ [nl])
  = (t "// app" ++ [nl]
     ++ import_line (t " { fromEvent } ") (t " 'rxjs'") ++ [nl; nl]
     ++ logger_import ++ [nl] ++ t "console.log('x');" ++ [nl], true).
Proof.
  rewrite (app_assoc (t "// app")).
  rewrite (@logger_import_follows_import (t "// app" ++ [nl])
             (t " { fromEvent } ") (t " 'rxjs'") [nl; nl]
             (t "console.log('x');" ++ [nl])
             eq_refl eq_refl eq_refl eq_refl eq_refl eq_refl eq_refl).
  now rewrite <- app_assoc.
Defined.

(** ** Cleaning one file *)

Lemma text_eqb_eq (a b : text) : text_eqb a b = true <-> a = b.
Proof.
  revert b; induction a as [|x a IH]; intros [|y b]; cbn [text_eqb];
    try (split; [discriminate|discriminate]); [tauto|].
  rewrite andb_true_iff, Ascii.eqb_eq, IH. split.
  - intros [-> ->]. reflexivity.
  - intros H. inversion H. auto.
Qed.

Lemma split_on_length (sep : ascii) (s : text) :
  length (split_on sep s)
  = S (length (filter (fun c => Ascii.eqb c sep) s)).
Proof.
  induction s as [|c s IH]; [reflexivity|]. cbn [split_on filter].
  destruct (Ascii.eqb c sep).
  - cbn [length]. now rewrite IH.
  - destruct (split_on sep s) as [|w ws]; [discriminate IH|exact IH].
Qed.

Lemma count_newlines_app (a b : text) :
  count_newlines (a ++ b) = count_newlines a + count_newlines b.
Proof. unfold count_newlines. now rewrite filter_app, length_app. Qed.

Lemma count_newlines_absent (a : text) :
  in_text nl a = false -> count_newlines a = 0.
Proof.
  unfold in_text, count_newlines. induction a as [|c a IH];
    cbn [existsb filter]; intros H; [reflexivity|].
  apply orb_false_iff in H as [Hc H]. rewrite Ascii.eqb_sym in Hc.
  rewrite Hc. now apply IH.
Qed.

Lemma word_not_newline (c : ascii) : is_word c = true -> Ascii.eqb c nl = false.
Proof.
  destruct c as [[] [] [] [] [] [] [] []]; vm_compute; congruence.
Qed.

Lemma word_not_brace (c : ascii) : is_word c = true -> Ascii.eqb "{" c = false.
Proof.
  destruct c as [[] [] [] [] [] [] [] []]; vm_compute; congruence.
Qed.

Lemma identifier_no_newline (name : text) :
  is_identifier name = true -> count_newlines name = 0.
Proof.
  unfold is_identifier, count_newlines. intros H.
  apply andb_true_iff in H as [_ H].
  induction name as [|c name IH]; [reflexivity|].
  cbn [forallb] in H. apply andb_true_iff in H as [Hc H].
  cbn [filter]. rewrite (word_not_newline _ Hc). now apply IH.
Qed.

(** No match at all: nothing can begin in [pre], the attempt at [rest]
    fails and nothing can begin further on. *)
Lemma finditer_none_at (re : regex) (P : text -> bool) (pre rest : text) :
  (forall prev s, P s = false -> match_here re prev s = None) ->
  inert P pre rest = true ->
  match_here re (last_char pre None) rest = None ->
  nowhere P (tl rest) = true ->
  finditer re (pre ++ rest) = [].
Proof.
  intros H Hi Hm Hn. unfold finditer.
  rewrite (finditer_from_inert re P pre rest H Hi).
  destruct rest as [|c rest].
  - cbn [finditer_from]. now rewrite Hm.
  - rewrite finditer_from_cons, Hm. cbn [tl] in Hn.
    now apply (finditer_from_nowhere re P H).
Qed.

Lemma const_name_no_destructuring (prev : option ascii) (name rest : text) :
  is_identifier name = true ->
  match_here destructuring_pattern prev (t "const" ++ t " " ++ name ++ rest) = None.
Proof.
  unfold is_identifier. intros H. apply andb_true_iff in H as [Hn Hw].
  destruct name as [|c name]; [discriminate|].
  cbn [forallb] in Hw. apply andb_true_iff in Hw as [Hc _].
  unfold match_here, destructuring_pattern. rewrite match_Str.
  cbn [match_atoms app t list_ascii_of_string].
  change (cls_mem Space " ") with true. cbn iota.
  rewrite star_loop_stop
    by (cbn [stops cls_mem]; now rewrite (word_not_space _ Hc)).
  cbn [strip_prefix]. now rewrite (word_not_brace _ Hc).
Qed.

(** The first pass finds nothing to do in a buffer whose only [const] is
    the keyword of a simple declaration. *)
Lemma destructuring_pass_idle (above indent kw name expr trail below : text) :
  In kw [t "const"; t "let"; t "var"] ->
  is_identifier name = true ->
  no_keyword (above ++ indent) = true ->
  contains (t "const") (name ++ t " = " ++ expr ++ t ";" ++ trail ++ below) = false ->
  remove_unused_destructuring
    ((above ++ indent) ++ simple_declaration kw name expr ++ trail ++ below)
  = (above ++ indent) ++ simple_declaration kw name expr ++ trail ++ below.
Proof.
  intros Hkw Hn Hpre Hc. unfold remove_unused_destructuring.
  destruct (@no_keyword_parts _ Hpre) as (Hpc & _ & _).
  apply contains_false_nowhere in Hc.
  rewrite (@finditer_none_at destructuring_pattern (starts (t "const"))
             (above ++ indent)
             (simple_declaration kw name expr ++ trail ++ below)
             destructuring_needs_const); [reflexivity| | |].
  - destruct Hkw as [<-|[<-|[<-|[]]]];
      (apply inert_contains; [assumption|reflexivity]).
  - destruct Hkw as [<-|[<-|[<-|[]]]].
    + replace (simple_declaration (t "const") name expr ++ trail ++ below)
        with (t "const" ++ t " " ++ name
                ++ (t " = " ++ expr ++ t ";" ++ trail ++ below))
        by (unfold simple_declaration; rewrite <- !app_assoc; reflexivity).
      now apply const_name_no_destructuring.
    + now apply destructuring_needs_const.
    + now apply destructuring_needs_const.
  - destruct Hkw as [<-|[<-|[<-|[]]]].
    + replace (tl (simple_declaration (t "const") name expr ++ trail ++ below))
        with (t "onst " ++ name ++ t " = " ++ expr ++ t ";" ++ trail ++ below)
        by (unfold simple_declaration; rewrite <- !app_assoc; reflexivity).
      apply nowhere_app; [reflexivity|assumption].
    + replace (tl (simple_declaration (t "let") name expr ++ trail ++ below))
        with (t "et " ++ name ++ t " = " ++ expr ++ t ";" ++ trail ++ below)
        by (unfold simple_declaration; rewrite <- !app_assoc; reflexivity).
      apply nowhere_app; [reflexivity|assumption].
    + replace (tl (simple_declaration (t "var") name expr ++ trail ++ below))
        with (t "ar " ++ name ++ t " = " ++ expr ++ t ";" ++ trail ++ below)
        by (unfold simple_declaration; rewrite <- !app_assoc; reflexivity).
      apply nowhere_app; [reflexivity|assumption].
Qed.

Lemma declaration_newlines (kw name expr : text) :
  In kw [t "const"; t "let"; t "var"] ->
  is_identifier name = true ->
  count_newlines (simple_declaration kw name expr) = count_newlines expr.
Proof.
  intros Hkw Hn. unfold simple_declaration.
  rewrite !count_newlines_app, (@identifier_no_newline name Hn).
  destruct Hkw as [<-|[<-|[<-|[]]]]; cbn; lia.
Qed.

Lemma shorter_not_equal (a b : text) :
  length a < length b -> text_eqb a b = false.
Proof.
  intros H. destruct (text_eqb a b) eqn:E; [|reflexivity].
  apply text_eqb_eq in E. subst. lia.
Qed.

(** X21.  For a file that holds one declaration [kw name = expr;] on a line
    of its own, no other declaration keyword, and in which the name is not
    used, [clean_file] writes the file back without that line, returns
    [True] and counts the file as modified.  [variables_removed] grows by
    the number of lines that went, not by the number of variables: by the
    newlines inside the initialiser, plus one when a newline ended the
    line, so by zero when the declaration was the last line of the file and
    had no newline after it. *)
Theorem clean_file_removes_dead_line
        (self : cleaner) (above indent kw name expr trail below : text) :
  In kw [t "const"; t "let"; t "var"] ->
  is_identifier name = true ->
  plain_initialiser expr = true ->
  at_line_start above = true ->
  in_text nl indent = false ->
  in_text nl trail = false ->
  at_line_end below = true ->
  no_keyword (above ++ indent) = true ->
  no_keyword (trail ++ below) = true ->
  contains (t "const") (name ++ t " = " ++ expr ++ t ";" ++ trail ++ below) = false ->
  is_variable_used name
    (above ++ indent ++ simple_declaration kw name expr ++ trail ++ below) = false ->
  clean_file self
    (above ++ indent ++ simple_declaration kw name expr ++ trail ++ below)
  = (mkCleaner (cleaner_total_files self) (cleaner_modified_files self + 1)
               (variables_removed self
                + Z.of_nat (count_newlines expr
                            + match below with [] => 0 | _ :: _ => 1 end)),
     Some (above ++ tl below), true).
Proof.
  intros Hkw Hn He Ha Hi Ht Hb Hpre Hpost Hconst Hdead.
  destruct (@simple_scan_single above indent kw name expr trail below
              Hkw Hn He Hpre Hpost) as (g & Hscan & Hg).
  destruct (declaration_line_contains indent kw name expr trail) as [Hc1 Hc2].
  rewrite (app_assoc above indent) in *.
  assert (Hclean :
    remove_unused_variables
      ((above ++ indent) ++ simple_declaration kw name expr ++ trail ++ below)
    = above ++ tl below).
  { unfold remove_unused_variables.
    rewrite (@destructuring_pass_idle above indent kw name expr trail below
               Hkw Hn Hpre Hconst).
    unfold remove_unused_simple. rewrite Hscan. cbn [fold_left].
    now apply (@simple_step_line above indent _ trail below name g). }
  unfold clean_file. rewrite Hclean.
  rewrite shorter_not_equal.
  2:{ rewrite !length_app.
      assert (0 < length (simple_declaration kw name expr))
        by (destruct Hkw as [<-|[<-|[<-|[]]]]; cbn; lia).
      destruct below; cbn [tl length]; lia. }
  cbn [negb]. do 3 f_equal. f_equal.
  rewrite !split_on_length.
  fold (count_newlines (above ++ tl below)).
  fold (count_newlines
          ((above ++ indent) ++ simple_declaration kw name expr ++ trail ++ below)).
  rewrite !count_newlines_app, (@declaration_newlines kw name expr Hkw Hn).
  rewrite (@count_newlines_absent indent Hi), (@count_newlines_absent trail Ht).
  destruct below as [|c below]; cbn [tl].
  - lia.
  - cbn [at_line_end] in Hb. unfold count_newlines at 3. cbn [filter].
    rewrite Hb. cbn [length]. fold (count_newlines below). lia.
Qed.

Lemma clean_file_removes_dead_line_witness :
  clean_file (mkCleaner 5 2 7)
    ((t "// setup" ++ [nl]) ++ t "  "
     ++ simple_declaration (t "const") (t "tmp") (t "build(" ++ [nl] ++ t "  1)")
     ++ t " // scratch" ++ (nl :: t "run();" ++ [nl]))
  = (mkCleaner 5 3 9, Some ((t "// setup" ++ [nl]) ++ t "run();" ++ [nl]), true).
Proof.
  apply (@clean_file_removes_dead_line (mkCleaner 5 2 7) (t "// setup" ++ [nl])
           (t "  ") (t "const") (t "tmp") (t "build(" ++ [nl] ++ t "  1)")
           (t " // scratch") (nl :: t "run();" ++ [nl]));
    try reflexivity.
  left; reflexivity.
Defined.

(** ** The first destructuring declaration of a buffer *)
















(** ** Aliased members *)




(** C10 fails on a source name that begins with a dollar sign: the word
    boundary of the usage pattern cannot stand between a space or a
    parenthesis and the dollar sign, so no occurrence of [$el] is counted
    and the member goes, although [$el] stands three times in the
    buffer. *)
Lemma dollar_member_dropped :
  let content := t "const { $el: e } = q; use($el, $el);" in
  var_name_of (t "$el: e") = t "$el" /\
  occurrences (t "$el") content = 3 /\
  is_variable_used (t "$el") content = false /\
  remove_unused_destructuring content = t "const {  } = q; use($el, $el);" /\
  remove_unused_variables content = t "const {  } = q; use($el, $el);".
Proof.
  vm_compute. repeat split.
Qed.

(** ** Live declarations ahead of the first removal *)

Lemma match_atoms_keeps_groups (re : regex) :
  forallb keeps_groups re = true ->
  forall g prev s g' rest,
    match_atoms re g prev s = Some (g', rest) -> g' = g.
Proof.
  induction re as [|a re IH]; intros Hk g prev s g' rest H.
  - cbn [match_atoms] in H. now inversion H.
  - cbn [forallb] in Hk. apply andb_true_iff in Hk as [Ha Hk].
    specialize (IH Hk).
    destruct a as [lit|p|p|p|lits|i|i|]; try discriminate Ha.
    + apply match_Str_inv in H as (s' & _ & H). eauto.
    + cbn [match_atoms] in H. destruct s as [|c s]; [discriminate|].
      destruct (cls_mem p c); [eauto|discriminate].
    + cbn [match_atoms] in H.
      apply star_loop_some_inv in H as (x & y & _ & _ & H). eauto.
    + cbn [match_atoms] in H. destruct s as [|c s]; [discriminate|].
      destruct (cls_mem p c); [|discriminate].
      apply star_loop_some_inv in H as (x & y & _ & _ & H). eauto.
    + apply match_Alt_inv in H as (lit & s' & _ & _ & H). eauto.
    + cbn [match_atoms] in H. destruct (at_boundary prev s); [eauto|discriminate].
Qed.

(** The name that the pattern of the second pass captures is an
    identifier. *)
Lemma simple_match_identifier (prev : option ascii) (s : text) (g : caps)
      (rest : text) :
  match_here simple_var_pattern prev s = Some (g, rest) ->
  is_identifier (group 2 g) = true.
Proof.
  unfold match_here, simple_var_pattern. rewrite match_Open. intros H.
  apply match_Alt_inv in H as (lit & s1 & _ & _ & H).
  rewrite match_Close in H. cbn [match_atoms] in H.
  destruct s1 as [|c s1]; [discriminate|].
  destruct (cls_mem Space c); [|discriminate].
  apply star_loop_some_inv in H as (a & b & _ & _ & H).
  destruct b as [|w b]; [discriminate|].
  destruct (cls_mem Word w) eqn:Ew; [|discriminate].
  apply star_loop_some_inv in H as (a2 & b3 & -> & Ha2 & H).
  change (star_loop Space _ _ b3)
    with (match_atoms [Star Space; Str (t "="); Star Space;
                       Plus (NoneOf (t ";")); Str (t ";")]
            (close_group 2 b3
               (open_group 2 (w :: a2 ++ b3)
                  (close_group 1 (c :: s1) (open_group 1 s no_caps))))
            (last_char a2 (Some w)) b3) in H.
  apply match_atoms_keeps_groups in H; [|reflexivity]. subst g.
  change (w :: a2 ++ b3) with ((w :: a2) ++ b3).
  rewrite group_close_open. unfold is_identifier. cbn [nonempty forallb andb].
  apply andb_true_iff. split; [exact Ew|exact Ha2].
Qed.

Lemma simple_scan_identifier (content : text) (d : rmatch) :
  In d (finditer simple_var_pattern content) ->
  is_identifier (group 2 (m_caps d)) = true.
Proof.
  intros Hin. apply finditer_from_caps in Hin as (prev & suf & rest & H).
  now apply simple_match_identifier in H.
Qed.

(** Where [str.rfind] lands. *)
Lemma rfind_char_nth (c : ascii) (l : text) (i : nat) :
  rfind_char c l = Some i -> nth_error l i = Some c.
Proof.
  revert i; induction l as [|x l IH]; cbn [rfind_char]; intros i H;
    [discriminate|].
  destruct (rfind_char c l) as [j|].
  - inversion H; subst. cbn [nth_error]. now apply IH.
  - destruct (Ascii.eqb x c) eqn:E; [|discriminate].
    inversion H; subst. apply Ascii.eqb_eq in E. now subst.
Qed.

Lemma rfind_char_ge (c : ascii) (l : text) (j : nat) :
  nth_error l j = Some c -> exists i, rfind_char c l = Some i /\ j <= i.
Proof.
  revert j; induction l as [|x l IH]; intros j H; [destruct j; discriminate|].
  cbn [rfind_char]. destruct j as [|j]; cbn [nth_error] in H.
  - inversion H; subst x. destruct (rfind_char c l) as [i|].
    + exists (S i). split; [reflexivity|lia].
    + rewrite Ascii.eqb_refl. exists 0. split; [reflexivity|lia].
  - destruct (IH j H) as (i & -> & Hi). exists (S i). split; [reflexivity|lia].
Qed.

(** The start of a line lies in the buffer, at or before the match, and
    right after a newline when it is not the start of the buffer. *)
Lemma line_start_facts (content : text) (m : rmatch) :
  line_start_of content m <= m_start m /\
  line_start_of content m <= length content /\
  (line_start_of content m = 0 \/
   nth_error content (line_start_of content m - 1) = Some nl).
Proof.
  unfold line_start_of, rfind_before.
  destruct (rfind_char nl (firstn (m_start m) content)) as [i|] eqn:E.
  - pose proof (rfind_char_lt _ _ E) as Hi. rewrite length_firstn in Hi.
    apply rfind_char_nth in E. rewrite nth_error_firstn in E.
    destruct (i <? m_start m) eqn:Hlt; [|discriminate].
    repeat split; try lia. right.
    now replace (i + 1 - 1) with i by lia.
  - repeat split; lia.
Qed.

(** A removal of the second pass keeps the text before a line start that
    is not beyond the start of its match. *)
Lemma simple_step_prefix (k : nat) (c : text) (m : rmatch) :
  k <= m_start m -> k <= length c ->
  (k = 0 \/ nth_error c (k - 1) = Some nl) ->
  firstn k (simple_step c m) = firstn k c /\ k <= length (simple_step c m).
Proof.
  intros Hk Hl Hnl. unfold simple_step.
  destruct (negb _); [|auto]. destruct (_ && _); [|auto].
  set (ls := match rfind_before nl (m_start m) c with
             | Some i => i + 1
             | None => 0
             end).
  assert (Hls : k <= ls /\ ls <= length c).
  { pose proof (line_start_facts c m) as (H1 & H2 & _).
    unfold line_start_of in H1, H2. fold ls in H1, H2. split; [|assumption].
    destruct k as [|k']; [lia|].
    destruct Hnl as [Hz|Hnl]; [discriminate|].
    replace (S k' - 1) with k' in Hnl by lia.
    assert (Hn : nth_error (firstn (m_start m) c) k' = Some nl).
    { rewrite nth_error_firstn.
      destruct (k' <? m_start m) eqn:Hlt; [assumption|].
      apply Nat.ltb_ge in Hlt. lia. }
    destruct (rfind_char_ge _ _ Hn) as (i & Ei & Hi).
    unfold ls, rfind_before. rewrite Ei. lia. }
  split.
  - rewrite firstn_app, length_firstn, firstn_firstn.
    replace (k - Nat.min ls (length c)) with 0 by lia.
    cbn [firstn]. rewrite app_nil_r. f_equal. lia.
  - rewrite length_app, length_firstn. lia.
Qed.

Lemma simple_fold_prefix (k : nat) (ms : list rmatch) :
  Forall (fun m => k <= m_start m) ms ->
  forall c, k <= length c ->
            (k = 0 \/ nth_error c (k - 1) = Some nl) ->
            firstn k (fold_left simple_step ms c) = firstn k c.
Proof.
  induction 1 as [|m ms Hm _ IH]; intros c Hl Hnl; [reflexivity|].
  cbn [fold_left].
  destruct (@simple_step_prefix k c m Hm Hl Hnl) as [E Hl'].
  rewrite IH, E; [reflexivity|assumption|].
  destruct k as [|k']; [now left|right].
  destruct Hnl as [Hz|Hnl]; [discriminate|].
  replace (S k' - 1) with k' in * by lia.
  rewrite <- (firstn_skipn (S k') (simple_step c m)), E.
  rewrite nth_error_app1 by (rewrite length_firstn; lia).
  rewrite nth_error_firstn.
  assert (Hpos : (k' <? S k') = true) by (apply Nat.ltb_lt; lia).
  now rewrite Hpos.
Qed.

Lemma sorted_after (live later : list rmatch) (m : rmatch) :
  StronglySorted lt (map m_start (live ++ m :: later)) ->
  Forall (fun d => m_start m <= m_start d) (m :: later).
Proof.
  induction live as [|x live IH]; cbn [app map]; intros H.
  - inversion H as [|a l Hs Hf]; subst. constructor; [lia|].
    rewrite Forall_map in Hf. eapply Forall_impl; [|exact Hf].
    cbn beta. intros d Hd. lia.
  - inversion H; subst. now apply IH.
Qed.

Lemma simple_fold_live (c : text) (live : list rmatch) :
  Forall (fun d => is_variable_used (group 2 (m_caps d)) c = true) live ->
  fold_left simple_step live c = c.
Proof.
  intros H. apply fold_left_fixed. intros d Hd.
  rewrite Forall_forall in H. unfold simple_step. now rewrite (H d Hd).
Qed.

Lemma slice_firstn (a b k : nat) (s : text) :
  b <= k -> slice a b (firstn k s) = slice a b s.
Proof.
  intros H. unfold slice. rewrite skipn_firstn_comm, firstn_firstn.
  f_equal. lia.
Qed.

Lemma live_by_count (content : text) (ds : list rmatch) :
  incl ds (finditer simple_var_pattern content) ->
  Forall (fun d => 2 <= whole_word_count (group 2 (m_caps d)) None content) ds ->
  Forall (fun d => is_variable_used (group 2 (m_caps d)) content = true) ds.
Proof.
  intros Hin H. rewrite Forall_forall in *. intros d Hd.
  apply is_variable_used_twice; [|now apply H].
  apply (@simple_scan_identifier content). now apply Hin.
Qed.

(** C2 (as amended): the second pass leaves alone all text before the line
    of the first declaration it removes.  When the simple declarations
    that come before a declaration [m] all have a name with at least one
    whole-word occurrence outside the declaration (two in all), the result
    agrees with the buffer up to the start of the line of [m], so each of
    them that ends before that line is still there, byte for byte and at
    its offsets; and when every simple declaration is live the buffer comes
    back unchanged. *)
Theorem live_declarations_kept_before_first_removal (content : text)
        (live later : list rmatch) (m : rmatch) :
  finditer simple_var_pattern content = live ++ m :: later ->
  Forall (fun d => 2 <= whole_word_count (group 2 (m_caps d)) None content) live ->
  firstn (line_start_of content m) (remove_unused_simple content)
  = firstn (line_start_of content m) content /\
  Forall (fun d =>
            m_end d <= line_start_of content m ->
            slice (m_start d) (m_end d) (remove_unused_simple content)
            = slice (m_start d) (m_end d) content) live /\
  (2 <= whole_word_count (group 2 (m_caps m)) None content ->
   Forall (fun d => 2 <= whole_word_count (group 2 (m_caps d)) None content) later ->
   remove_unused_simple content = content).
Proof.
  intros Hscan Hlive.
  assert (Hused : Forall (fun d => is_variable_used (group 2 (m_caps d)) content
                                   = true) live).
  { apply live_by_count; [|assumption].
    rewrite Hscan. intros d Hd. apply in_or_app. now left. }
  destruct (line_start_facts content m) as (Hk & Hl & Hnl).
  assert (Hpre : firstn (line_start_of content m) (remove_unused_simple content)
                 = firstn (line_start_of content m) content).
  { unfold remove_unused_simple. rewrite Hscan, fold_left_app.
    rewrite (@simple_fold_live content live Hused).
    apply simple_fold_prefix; try assumption.
    pose proof (finditer_from_sorted simple_var_pattern content 0 0 None) as Hs.
    fold (finditer simple_var_pattern content) in Hs. rewrite Hscan in Hs.
    apply sorted_after in Hs.
    eapply Forall_impl; [|exact Hs]. cbn beta. intros d Hd. lia. }
  split; [exact Hpre|]. split.
  - apply Forall_forall. intros d _ Hd.
    rewrite <- (@slice_firstn (m_start d) (m_end d) (line_start_of content m)
                  (remove_unused_simple content) Hd).
    rewrite Hpre. now apply slice_firstn.
  - intros Hm Hlater. unfold remove_unused_simple.
    apply simple_fold_live. apply live_by_count; [apply incl_refl|].
    rewrite Hscan. apply Forall_app. split; [assumption|].
    now constructor.
Qed.

Lemma live_declarations_kept_before_first_removal_witness :
  let content := t "const a = 1;" ++ nl :: t "const t = 2;" ++ nl ::
                 t "const c = 3;" ++ nl :: t "use(a, c);" ++ [nl] in
  let ms := finditer simple_var_pattern content in
  let m := nth 1 ms (mkMatch 0 0 no_caps) in
  firstn (line_start_of content m) (remove_unused_simple content)
  = firstn (line_start_of content m) content /\
  line_start_of content m = 13 /\
  remove_unused_simple content
  = t "const a = 1;" ++ nl :: t "const c = 3;" ++ nl :: t "use(a, c);" ++ [nl].
Proof.
  intros content ms m. split; [|split].
  - apply (@live_declarations_kept_before_first_removal content
             [hd (mkMatch 0 0 no_caps) ms] (skipn 2 ms) m).
    + vm_compute. reflexivity.
    + constructor; [|constructor]. apply Nat.leb_le. vm_compute. reflexivity.
  - vm_compute. reflexivity.
  - vm_compute. reflexivity.
Defined.

(** ** The calls of [console.error] *)




(** ** One rewrite for a call that two patterns match *)

Lemma nowhere_quiet (s : text) :
  nowhere (starts (t "console.")) s = true -> quiet s = true.
Proof.
  induction s as [|c s IH]; cbn [nowhere quiet]; intros H;
    apply andb_true_iff in H as [Hs H]; rewrite Hs; [reflexivity|].
  cbn [orb andb]. now apply IH.
Qed.

Lemma quiet_no_console_match (s : text) :
  quiet s = true -> no_console_match s = true.
Proof.
  intros Hq. unfold no_console_match. apply forallb_forall. intros r Hr.
  unfold finditer. now rewrite (@finditer_from_quiet r s Hr Hq).
Qed.

Lemma rule_needs_console (r : regex * template) (prev : option ascii) (s : text) :
  In r rules -> starts (t "console.") s = false -> match_here (fst r) prev s = None.
Proof.
  intros Hr Hs. apply rule_no_match; [assumption|]. now rewrite Hs.
Qed.

Lemma keyword_call_matches (q : ascii) (msg post : text) (prev : option ascii) :
  is_quote q = true ->
  forallb (cls_mem not_quote) msg = true ->
  has_keyword msg = true ->
  match_here pattern6 prev (one_arg_call (t "log") q msg ++ post)
  = Some (one_arg_caps_in q msg post, post).
Proof.
  intros Hq Hm Hk.
  unfold has_keyword in Hk. apply existsb_exists in Hk as (kw & Hin & Hc).
  destruct (contains_split _ _ Hc) as (a & b & ->).
  apply keyword_match_in; try assumption.
  - rewrite forallb_app in Hm. now apply andb_true_iff in Hm.
  - apply forallb_app_r in Hm. now apply forallb_app_r in Hm.
Qed.

(** C7 (as amended): a call [console.log(Q msg Q)] whose message holds a
    keyword and no quote character is matched by the keyword pattern and by
    the generic one-argument pattern.  In a buffer that mentions [console.]
    nowhere else, not in the message either, the pass does to it what the
    keyword pattern alone does: the call becomes [logger.info(D msg D)], and
    in the result no pattern matches any more. *)
Theorem keyword_call_rewritten_once (q : ascii) (pre msg post : text) :
  is_quote q = true ->
  forallb (cls_mem not_quote) msg = true ->
  has_keyword msg = true ->
  contains (t "console.") pre = false ->
  contains (t "console.") msg = false ->
  contains (t "console.") post = false ->
  match_here pattern6 (last_char pre None) (one_arg_call (t "log") q msg ++ post)
  <> None /\
  match_here pattern8 (last_char pre None) (one_arg_call (t "log") q msg ++ post)
  <> None /\
  fst (replace_console_statements (pre ++ one_arg_call (t "log") q msg ++ post))
  = apply_rule (pre ++ one_arg_call (t "log") q msg ++ post)
               (pattern6, replacement6) /\
  fst (replace_console_statements (pre ++ one_arg_call (t "log") q msg ++ post))
  = pre ++ logger_call (t "info") msg ++ post /\
  no_console_match
    (fst (replace_console_statements (pre ++ one_arg_call (t "log") q msg ++ post)))
  = true.
Proof.
  intros Hq Hm Hk Hpre Hmsg Hpost.
  pose proof (@keyword_call_matches q msg post (last_char pre None) Hq Hm Hk) as H6.
  pose proof (@one_arg_match_in (t "log") q msg post (last_char pre None) Hq Hm)
    as H8.
  assert (Hout : fst (replace_console_statements
                        (pre ++ one_arg_call (t "log") q msg ++ post))
                 = pre ++ logger_call (t "info") msg ++ post).
  { unfold replace_console_statements. cbn [fst].
    rewrite (@log_one_arg_in_place q pre msg post Hq Hm Hpre Hmsg Hpost).
    now rewrite Hk. }
  assert (Hone : apply_rule (pre ++ one_arg_call (t "log") q msg ++ post)
                            (pattern6, replacement6)
                 = pre ++ logger_call (t "info") msg ++ post).
  { unfold apply_rule. cbn [fst snd].
    rewrite (@re_sub_single pattern6 replacement6 (starts (t "console.")) pre
               (one_arg_call (t "log") q msg) post (one_arg_caps_in q msg post)).
    - f_equal. f_equal.
      unfold replacement6, one_arg_replacement, one_arg_caps_in, logger_call.
      cbn [expand]. rewrite group_close_open. rewrite <- !app_assoc. reflexivity.
    - intros prev s Hs.
      apply (@rule_needs_console (pattern6, replacement6) prev s); [|assumption].
      unfold rules. cbn [In]. tauto.
    - apply inert_contains; [assumption|reflexivity].
    - discriminate.
    - exact H6.
    - now apply contains_false_nowhere. }
  repeat split.
  - rewrite H6. discriminate.
  - change pattern8 with (one_arg_pattern (t "log")). rewrite H8. discriminate.
  - now rewrite Hout, Hone.
  - exact Hout.
  - rewrite Hout. apply quiet_no_console_match, nowhere_quiet.
    apply nowhere_app; [apply inert_contains; [assumption|reflexivity]|].
    replace (logger_call (t "info") msg ++ post)
      with ((t "logger." ++ t "info" ++ t "(" ++ [dq]) ++ msg
            ++ (dq :: t ")") ++ post)
      by (unfold logger_call; repeat (rewrite <- app_assoc; cbn [app]);
          reflexivity).
    apply nowhere_call_text; auto; reflexivity.
Qed.

Lemma keyword_call_rewritten_once_witness :
  fst (replace_console_statements
         (t "function boot() { "
          ++ one_arg_call (t "log") sq (t "Starting up") ++ t "; }"))
  = t "function boot() { " ++ logger_call (t "info") (t "Starting up") ++ t "; }".
Proof.
  apply (proj1 (proj2 (proj2 (proj2
           (@keyword_call_rewritten_once sq (t "function boot() { ")
              (t "Starting up") (t "; }")
              eq_refl eq_refl eq_refl eq_refl eq_refl eq_refl))))).
Defined.

(** C7 (as stated) fails: the call is matched by the keyword pattern and by
    the generic one-argument pattern; the keyword pattern rewrites it, and
    two patterns later the generic pattern matches again inside the text
    just written, from the [console.log(] of the message to the
    parenthesis that follows the next quote. *)
Lemma rewritten_span_matched_again_example :
  let content := t "console.log('Start console.log('); foo(" ++ dq :: t ")"
                 ++ dq :: t ")" in
  match_here pattern6 None content <> None /\
  match_here pattern8 None content <> None /\
  apply_rule content (pattern6, replacement6)
  = t "logger.info(" ++ dq :: t "Start console.log(" ++ dq :: t "); foo("
    ++ dq :: t ")" ++ dq :: t ")" /\
  fst (replace_console_statements content)
  = t "logger.info(" ++ dq :: t "Start logger.debug(" ++ dq :: t "); foo("
    ++ dq :: t ")" ++ dq :: t ")" /\
  fst (replace_console_statements content)
  <> apply_rule content (pattern6, replacement6).
Proof.
  vm_compute. repeat split; discriminate.
Qed.
